(** * LoggerPass: a shallow embedding of [src/passes/LoggerPass.cpp]

    The pass rewrites an LLVM function in place: it inserts calls to
    [printf] at the entry of the function, once per parameter and once per
    return instruction.  The LLVM objects the pass touches (types, values,
    instructions, basic blocks, functions, the module and the [IRBuilder])
    are modelled first, as far as the pass reads or writes them; the
    functions of the source file follow, under their own names, written in
    a state-and-error monad whose state is the module, the function under
    rewrite and the live builder. *)

From Stdlib Require Import ZArith NArith List String Ascii Bool Arith Lia.

Import ListNotations.

Local Open Scope string_scope.

Local Open Scope list_scope.

(* ================================================================== *)

(** ** LLVM types *)

(** [llvm::Type], by type id.  Integer types carry their bit width and
    pointer types their address space (pointers are opaque: the source
    uses [StringRef::starts_with], which only exists in releases where
    typed pointers are gone).  The members of structure, array and vector
    types are never inspected by the pass and are kept abstract. *)
Inductive Type_ : Type :=
| HalfTy | BFloatTy | FloatTy | DoubleTy | X86_FP80Ty | FP128Ty | PPC_FP128Ty
| VoidTy | LabelTy | MetadataTy | TokenTy
| IntegerTy (NumBits : N)
| PointerTy (AddressSpace : N)
| StructTy (id : nat)
| ArrayTy (id : nat)
| VectorTy (id : nat).

Definition isPointerTy (T : Type_) : bool :=
  match T with PointerTy _ => true | _ => false end.

Definition isIntegerTy (T : Type_) : bool :=
  match T with IntegerTy _ => true | _ => false end.

Definition isFloatingPointTy (T : Type_) : bool :=
  match T with
  | HalfTy | BFloatTy | FloatTy | DoubleTy
  | X86_FP80Ty | FP128Ty | PPC_FP128Ty => true
  | _ => false
  end.

Definition isDoubleTy (T : Type_) : bool :=
  match T with DoubleTy => true | _ => false end.

(** [Type::getScalarSizeInBits] on the scalar types; the pass never asks
    for the size of a vector. *)
Definition getScalarSizeInBits (T : Type_) : N :=
  match T with
  | HalfTy | BFloatTy => 16
  | FloatTy => 32
  | DoubleTy => 64
  | X86_FP80Ty => 80
  | FP128Ty | PPC_FP128Ty => 128
  | IntegerTy n => n
  | _ => 0
  end%N.

Definition Type_eqb (A B : Type_) : bool :=
  match A, B with
  | HalfTy, HalfTy | BFloatTy, BFloatTy | FloatTy, FloatTy
  | DoubleTy, DoubleTy | X86_FP80Ty, X86_FP80Ty | FP128Ty, FP128Ty
  | PPC_FP128Ty, PPC_FP128Ty | VoidTy, VoidTy | LabelTy, LabelTy
  | MetadataTy, MetadataTy | TokenTy, TokenTy => true
  | IntegerTy n, IntegerTy m => N.eqb n m
  | PointerTy a, PointerTy b => N.eqb a b
  | StructTy i, StructTy j => Nat.eqb i j
  | ArrayTy i, ArrayTy j => Nat.eqb i j
  | VectorTy i, VectorTy j => Nat.eqb i j
  | _, _ => false
  end.

Definition Int8PtrTy : Type_ := PointerTy 0.   (* PointerType::getUnqual(i8) *)
Definition Int32Ty : Type_ := IntegerTy 32.

Definition Int64Ty : Type_ := IntegerTy 64.

(* ================================================================== *)

(** ** Values and instructions *)

Inductive CastOps : Type :=
| Trunc | ZExt | SExt | FPToUI | FPToSI | UIToFP | SIToFP
| FPTrunc | FPExt | PtrToInt | IntToPtr | BitCast | AddrSpaceCast.

(** [CastInst::castIsValid] on scalar types. *)
Definition castIsValid (op : CastOps) (SrcTy DstTy : Type_) : bool :=
  let s := getScalarSizeInBits SrcTy in
  let d := getScalarSizeInBits DstTy in
  match op with
  | Trunc => isIntegerTy SrcTy && isIntegerTy DstTy && (d <? s)%N
  | ZExt | SExt => isIntegerTy SrcTy && isIntegerTy DstTy && (s <? d)%N
  | FPTrunc => isFloatingPointTy SrcTy && isFloatingPointTy DstTy && (d <? s)%N
  | FPExt => isFloatingPointTy SrcTy && isFloatingPointTy DstTy && (s <? d)%N
  | UIToFP | SIToFP => isIntegerTy SrcTy && isFloatingPointTy DstTy
  | FPToUI | FPToSI => isFloatingPointTy SrcTy && isIntegerTy DstTy
  | PtrToInt => isPointerTy SrcTy && isIntegerTy DstTy
  | IntToPtr => isIntegerTy SrcTy && isPointerTy DstTy
  | BitCast =>
      match SrcTy, DstTy with
      | PointerTy a, PointerTy b => N.eqb a b
      | PointerTy _, _ | _, PointerTy _ => false
      | _, _ => negb (N.eqb s 0) && N.eqb s d
      end
  | AddrSpaceCast =>
      match SrcTy, DstTy with
      | PointerTy a, PointerTy b => negb (N.eqb a b)
      | _, _ => false
      end
  end.

(** [llvm::Value].  The result of an instruction is named by the
    instruction's id (its address in LLVM); a global string made by the
    builder is named by its position in the module's list of globals. *)
Inductive Value : Type :=
| VArgument (ArgNo : nat) (T : Type_)
| VInstruction (id : nat) (T : Type_)
| VConstantInt (NumBits : N) (val : Z)
| VConstant (T : Type_) (id : nat)
| VConstantExpr (op : CastOps) (C : Value) (T : Type_)
| VGlobalVariable (idx : nat)
| VFunction (name : string).

Definition getType (V : Value) : Type_ :=
  match V with
  | VArgument _ T | VInstruction _ T | VConstant T _ | VConstantExpr _ _ T => T
  | VConstantInt n _ => IntegerTy n
  | VGlobalVariable _ | VFunction _ => PointerTy 0
  end.

Definition isConstant (V : Value) : bool :=
  match V with
  | VArgument _ _ | VInstruction _ _ => false
  | _ => true
  end.

(** [llvm::Instruction], by the classes the pass tells apart.
    [BranchInst] stands for every terminator with successor blocks other
    than a return ([br], [switch], [invoke], ...), [EHPadInst] for the
    exception-handling pads that are not terminators, [OtherInst] for
    every other instruction of the original program.  A [catchswitch],
    which is a pad and a terminator at once, has no constructor: a
    function that holds one is outside the model. *)
Inductive Instruction : Type :=
| PHINode (id : nat) (T : Type_) (incoming : list (Value * nat))
| EHPadInst (id : nat) (T : Type_)
| CallInst (id : nat) (Callee : Value) (Args : list Value)
| CastInst (id : nat) (op : CastOps) (V : Value) (DestTy : Type_)
| ReturnInst (RetVal : option Value)
| BranchInst (Successors : list nat)
| UnreachableInst
| OtherInst (id : nat) (T : Type_) (opcode : string) (Ops : list Value).

Definition isPHI (Inst : Instruction) : bool :=
  match Inst with PHINode _ _ _ => true | _ => false end.

Definition isEHPad (Inst : Instruction) : bool :=
  match Inst with EHPadInst _ _ => true | _ => false end.

Definition isTerminator (Inst : Instruction) : bool :=
  match Inst with
  | ReturnInst _ | BranchInst _ | UnreachableInst => true
  | _ => false
  end.

Definition isCall (Inst : Instruction) : bool :=
  match Inst with CallInst _ _ _ => true | _ => false end.

Definition isCast (Inst : Instruction) : bool :=
  match Inst with CastInst _ _ _ _ => true | _ => false end.

Definition inst_id (Inst : Instruction) : nat :=
  match Inst with
  | PHINode id _ _ | EHPadInst id _ | CallInst id _ _
  | CastInst id _ _ _ | OtherInst id _ _ _ => id
  | _ => 0
  end.

Definition BasicBlock : Type := list Instruction.

(** [BasicBlock::getTerminator]: the last instruction when it is a
    terminator, a null pointer otherwise. *)
Definition getTerminator (BB : BasicBlock) : option Instruction :=
  match rev BB with
  | Inst :: _ => if isTerminator Inst then Some Inst else None
  | [] => None
  end.

(** [BasicBlock::getFirstNonPHI], as an index into the block; the length
    of the block stands for the null pointer. *)
Fixpoint getFirstNonPHI (BB : BasicBlock) : nat :=
  match BB with
  | [] => 0
  | Inst :: rest => if isPHI Inst then S (getFirstNonPHI rest) else 0
  end.

(** [BasicBlock::getFirstInsertionPt], as an index; the length of the
    block is [end()]. *)
Definition getFirstInsertionPt (BB : BasicBlock) : nat :=
  let i := getFirstNonPHI BB in
  match nth_error BB i with
  | None => List.length BB
  | Some Inst => if isEHPad Inst then S i else i
  end.

Definition successors (BB : BasicBlock) : list nat :=
  match getTerminator BB with
  | Some (BranchInst succs) => succs
  | _ => []
  end.

(* ================================================================== *)

(** ** Functions and modules *)

Record Function : Type := mkFunction {
  fn_name : string;
  fn_ret : Type_;
  fn_params : list Type_;
  fn_varargs : bool;
  fn_callconv : nat;
  fn_blocks : list BasicBlock
}.

(** [GlobalValue::isDeclaration] for a function: it has no body. *)
Definition isDeclaration (F : Function) : bool :=
  match fn_blocks F with [] => true | _ => false end.

(** [Function::isIntrinsic]: the name is in LLVM's reserved name space. *)
Definition isIntrinsic (F : Function) : bool :=
  String.prefix "llvm." (fn_name F).

(** [F.args()]: the formal parameters, in declaration order. *)
Fixpoint args_from (n : nat) (Ts : list Type_) : list Value :=
  match Ts with
  | [] => []
  | T :: rest => VArgument n T :: args_from (S n) rest
  end.

Definition args (F : Function) : list Value := args_from 0 (fn_params F).

Definition set_blocks (F : Function) (bs : list BasicBlock) : Function :=
  mkFunction (fn_name F) (fn_ret F) (fn_params F) (fn_varargs F)
             (fn_callconv F) bs.

(** A global variable holding a string.  [gv_name] is the name asked for
    at creation; the module's symbol table appends a numeric suffix to it
    when the name is taken. *)
Record GlobalVariable : Type := mkGlobalVariable {
  gv_name : string;
  gv_constant : bool;
  gv_init : string
}.

Record Module : Type := mkModule {
  mod_functions : list Function;
  mod_globals : list GlobalVariable
}.

Fixpoint find_function (name : string) (Fs : list Function) : bool :=
  match Fs with
  | [] => false
  | F :: rest => String.eqb (fn_name F) name || find_function name rest
  end.

Fixpoint find_global (name : string) (n : nat) (Gs : list GlobalVariable)
  : option nat :=
  match Gs with
  | [] => None
  | G :: rest =>
      if String.eqb (gv_name G) name then Some n
      else find_global name (S n) rest
  end.

(** [Module::getNamedValue]: the function or global variable of that
    name, if there is one. *)
Definition getNamedValue (M : Module) (name : string) : option Value :=
  if find_function name (mod_functions M) then Some (VFunction name)
  else match find_global name 0 (mod_globals M) with
       | Some i => Some (VGlobalVariable i)
       | None => None
       end.

(* ================================================================== *)

(** ** The analyses a pass reports as preserved *)

Inductive AnalysisKey : Type :=
| AllAnalysesKey
| CFGAnalysesKey
| AnalysisID (n : nat).

Definition AnalysisKey_eqb (a b : AnalysisKey) : bool :=
  match a, b with
  | AllAnalysesKey, AllAnalysesKey => true
  | CFGAnalysesKey, CFGAnalysesKey => true
  | AnalysisID n, AnalysisID m => Nat.eqb n m
  | _, _ => false
  end.

Record PreservedAnalyses : Type := mkPA {
  PreservedIDs : list AnalysisKey;
  NotPreservedAnalysisIDs : list AnalysisKey
}.

Definition PA_none : PreservedAnalyses := mkPA [] [].

Definition PA_all : PreservedAnalyses := mkPA [AllAnalysesKey] [].

Definition key_in (k : AnalysisKey) (l : list AnalysisKey) : bool :=
  existsb (AnalysisKey_eqb k) l.

(** [PreservedAnalyses::areAllPreserved]. *)
Definition areAllPreserved (PA : PreservedAnalyses) : bool :=
  match NotPreservedAnalysisIDs PA with
  | [] => key_in AllAnalysesKey (PreservedIDs PA)
  | _ => false
  end.

(** [PreservedAnalysisChecker::preserved] for the analysis [ID]. *)
Definition preserved (PA : PreservedAnalyses) (ID : AnalysisKey) : bool :=
  negb (key_in ID (NotPreservedAnalysisIDs PA))
  && (key_in AllAnalysesKey (PreservedIDs PA) || key_in ID (PreservedIDs PA)).

(** [PreservedAnalysisChecker::preservedSet] for the set [SetID] of the
    analysis [ID]. *)
Definition preservedSet (PA : PreservedAnalyses) (ID SetID : AnalysisKey)
  : bool :=
  negb (key_in ID (NotPreservedAnalysisIDs PA))
  && (key_in AllAnalysesKey (PreservedIDs PA) || key_in SetID (PreservedIDs PA)).

(* ================================================================== *)

(** ** The rewriting monad *)

(** [IRBuilder<>]: the block it inserts into and the index of the
    instruction it inserts before.  LLVM keeps an iterator to that
    instruction; in a list the instruction moves one place down with
    every insertion, so the index is advanced as instructions go in. *)
Record IRBuilder : Type := mkBuilder {
  BB : nat;
  InsertPt : nat
}.

(** What a run of the pass reads and writes: the module [F.getParent()],
    the function [F] and the builder in use.  The source has three
    builder variables ([B], [BA], [BR]); none is used again once the next
    one is constructed, so one slot holds the live one. *)
Record State : Type := mkState {
  st_M : Module;
  st_F : Function;
  st_B : IRBuilder
}.

Inductive Res (A : Type) : Type :=
| Ok (a : A)
| Err (msg : string).

Arguments Ok {A} a.

Arguments Err {A} msg.

Definition Pass (A : Type) : Type := State -> Res (A * State).

Definition ret {A} (a : A) : Pass A := fun s => Ok (a, s).

Definition bind {A B} (m : Pass A) (k : A -> Pass B) : Pass B :=
  fun s => match m s with
           | Ok (a, s') => k a s'
           | Err e => Err e
           end.

Definition raise {A} (msg : string) : Pass A := fun _ => Err msg.

Notation "x <- m ;; k" := (bind m (fun x => k))
  (at level 100, m at next level, right associativity).

Notation "m ;;; k" := (bind m (fun _ => k))
  (at level 100, right associativity).

Definition getFunction : Pass Function := fun s => Ok (st_F s, s).

Definition getModule : Pass Module := fun s => Ok (st_M s, s).

Definition nl : string := String (ascii_of_nat 10) EmptyString.

(* ================================================================== *)

(** ** The LLVM calls the pass makes *)

Definition PrintfDecl : Function :=
  mkFunction "printf" Int32Ty [Int8PtrTy] true 0 [].

(** [Module::getOrInsertFunction]: the global value of that name when
    there is one, a new external declaration otherwise. *)
Definition getOrInsertFunction (name : string) (Decl : Function) : Pass Value :=
  fun s =>
    let M := st_M s in
    match getNamedValue M name with
    | Some V => Ok (V, s)
    | None =>
        Ok (VFunction name,
            mkState (mkModule (mod_functions M ++ [Decl]) (mod_globals M))
                    (st_F s) (st_B s))
    end.

(** [IRBuilder::CreateGlobalStringPtr]: a new private constant global
    holding [Str]; the value is its address and no instruction is made. *)
Definition CreateGlobalStringPtr (Str Name : string) : Pass Value :=
  fun s =>
    let M := st_M s in
    Ok (VGlobalVariable (List.length (mod_globals M)),
        mkState (mkModule (mod_functions M)
                          (mod_globals M ++ [mkGlobalVariable Name true Str]))
                (st_F s) (st_B s)).

(** [IRBuilder::getInt32]. *)
Definition getInt32 (C : Z) : Value := VConstantInt 32 (C mod 2 ^ 32).

(** An id no instruction of the function carries: the address of a newly
    allocated instruction. *)
Definition max_id (bs : list BasicBlock) : nat :=
  list_max (map (fun b => list_max (map inst_id b)) bs).

Definition fresh_id (F : Function) : nat := S (max_id (fn_blocks F)).

Fixpoint update_nth {A} (n : nat) (f : A -> A) (l : list A) : list A :=
  match l, n with
  | [], _ => []
  | x :: r, O => f x :: r
  | x :: r, S n' => x :: update_nth n' f r
  end.

(** The constructor [IRBuilder<>(Instruction *IP)] on the instruction at
    index [pt] of block [bb]: later insertions go before it.  Taking the
    address of [end()] is undefined. *)
Definition IRBuilder_at (bb pt : nat) : Pass unit :=
  fun s =>
    match nth_error (fn_blocks (st_F s)) bb with
    | Some blk =>
        if (pt <? List.length blk)%nat
        then Ok (tt, mkState (st_M s) (st_F s) (mkBuilder bb pt))
        else Err "IRBuilder: insertion point is end()"
    | None => Err "IRBuilder: no such block"
    end.

(** [IRBuilder::Insert]: the instruction goes before the insertion point. *)
Definition Insert (Inst : Instruction) : Pass unit :=
  fun s =>
    let B := st_B s in
    match nth_error (fn_blocks (st_F s)) (BB B) with
    | Some blk =>
        if (InsertPt B <=? List.length blk)%nat
        then Ok (tt,
                 mkState (st_M s)
                   (set_blocks (st_F s)
                      (update_nth (BB B)
                         (fun b => firstn (InsertPt B) b ++ Inst
                                   :: skipn (InsertPt B) b)
                         (fn_blocks (st_F s))))
                   (mkBuilder (BB B) (S (InsertPt B))))
        else Err "Insert: insertion point outside the block"
    | None => Err "Insert: no such block"
    end.

(** [IRBuilder::CreateCall] on the callee of a [FunctionCallee] whose
    function type returns [i32]. *)
Definition CreateCall (Callee : Value) (Args : list Value) : Pass Value :=
  F <- getFunction ;;
  let id := fresh_id F in
  Insert (CallInst id Callee Args) ;;;
  ret (VInstruction id Int32Ty).

(** [ConstantExpr::isDesirableCastOp]: the casts that are kept as
    constant expressions. *)
Definition isDesirableCastOp (op : CastOps) : bool :=
  match op with
  | Trunc | PtrToInt | IntToPtr | BitCast | AddrSpaceCast => true
  | _ => false
  end.

(** [ConstantFoldCastInstruction] on a scalar constant.  An integer
    constant is extended ([APInt::zext] asserts that the width does not
    shrink; the null value is folded before it gets there); a constant
    that is plain data ([VConstant]: a floating-point constant, [undef],
    [poison], a null value) is computed, and [VConstantExpr op C T]
    stands for the constant that comes out; a cast of a constant
    expression is not folded. *)
Definition ConstantFoldCastInstruction (op : CastOps) (C : Value)
  (DestTy : Type_) : Res (option Value) :=
  match C with
  | VConstantInt n v =>
      match op, DestTy with
      | ZExt, IntegerTy d =>
          if negb (Z.eqb (v mod 2 ^ Z.of_N n) 0) && (d <? n)%N
          then Err "APInt::zext: invalid request"
          else Ok (Some (VConstantInt d (v mod 2 ^ Z.of_N n)))
      | _, _ => Ok (Some (VConstantExpr op C DestTy))
      end
  | VConstant _ _ => Ok (Some (VConstantExpr op C DestTy))
  | _ => Ok None
  end.

(** [ConstantFolder::FoldCast], the folder of [IRBuilder<>]: nothing for
    a value that is no constant; a constant expression for the casts
    that are kept as such ([ConstantExpr::getCast] asserts
    [castIsValid]); what [ConstantFoldCastInstruction] makes of the
    constant for the others, nothing when it cannot fold. *)
Definition FoldCast (op : CastOps) (V : Value) (DestTy : Type_)
  : Res (option Value) :=
  if isConstant V then
    if isDesirableCastOp op then
      if castIsValid op (getType V) DestTy
      then Ok (Some (VConstantExpr op V DestTy))
      else Err "ConstantExpr::getCast: invalid cast"
    else ConstantFoldCastInstruction op V DestTy
  else Ok None.

(** [IRBuilder::CreateCast]: the value itself when the types agree; what
    the folder returns when it folds; a new cast instruction otherwise.
    [CastInst::Create] asserts [castIsValid]: an error here is that
    assertion (a build of LLVM without assertions goes on and inserts
    the invalid instruction). *)
Definition CreateCast (op : CastOps) (V : Value) (DestTy : Type_) : Pass Value :=
  if Type_eqb (getType V) DestTy then ret V
  else
    match FoldCast op V DestTy with
    | Err e => raise e
    | Ok (Some Folded) => ret Folded
    | Ok None =>
        if negb (castIsValid op (getType V) DestTy)
        then raise "CastInst::Create: invalid cast"
        else
          F <- getFunction ;;
          let id := fresh_id F in
          Insert (CastInst id op V DestTy) ;;;
          ret (VInstruction id DestTy)
    end.

(** [IRBuilder::CreateZExtOrBitCast]: a bit cast when the sizes agree,
    a zero extension otherwise. *)
Definition CreateZExtOrBitCast (V : Value) (DestTy : Type_) : Pass Value :=
  let op := if N.eqb (getScalarSizeInBits (getType V))
                     (getScalarSizeInBits DestTy)
            then BitCast else ZExt in
  CreateCast op V DestTy.

Definition CreateFPExt (V : Value) (DestTy : Type_) : Pass Value :=
  CreateCast FPExt V DestTy.

(** [IRBuilder::CreatePointerCast]. *)
Definition CreatePointerCast (V : Value) (DestTy : Type_) : Pass Value :=
  let op := match getType V, DestTy with
            | PointerTy a, PointerTy b =>
                if N.eqb a b then BitCast else AddrSpaceCast
            | _, _ => if isIntegerTy DestTy then PtrToInt else BitCast
            end in
  CreateCast op V DestTy.

(* ================================================================== *)

(** ** The pass ([src/passes/LoggerPass.cpp]) *)

Definition isSkippableFunction (F : Function) : bool :=
  if isDeclaration F then true
  else if isIntrinsic F then true
  else
    let Name := fn_name F in
    if String.eqb Name "" then false
    else if String.eqb Name "printf" then true
    else if String.prefix "__logger" Name then true
    else false.

Definition getOrInsertPrintf : Pass Value :=
  getOrInsertFunction "printf" PrintfDecl.

Definition getFunctionNameGlobal : Pass Value :=
  F <- getFunction ;;
  CreateGlobalStringPtr (fn_name F) ("__logger.fn." ++ fn_name F)%string.

Definition fmt_enter : string := (">> %s" ++ nl)%string.

Definition fmt_arg_agg : string := ("   %s(arg%d)=(aggregate)" ++ nl)%string.

Definition fmt_arg_i : string := ("   %s(arg%d)=%lld" ++ nl)%string.

Definition fmt_arg_f : string := ("   %s(arg%d)=%f" ++ nl)%string.

Definition fmt_arg_p : string := ("   %s(arg%d)=%p" ++ nl)%string.

Definition fmt_ret_v : string := ("<< %s returns void" ++ nl)%string.

Definition fmt_ret_i : string := ("<< %s returns %lld" ++ nl)%string.

Definition fmt_ret_f : string := ("<< %s returns %f" ++ nl)%string.

Definition fmt_ret_p : string := ("<< %s returns %p" ++ nl)%string.

Definition fmt_ret_agg : string := ("<< %s returns (aggregate)" ++ nl)%string.

Definition emitPrintfEnter (FnNameStr : Value) : Pass unit :=
  Printf <- getOrInsertPrintf ;;
  Fmt <- CreateGlobalStringPtr fmt_enter "__logger.fmt.enter" ;;
  CreateCall Printf [Fmt; FnNameStr] ;;;
  ret tt.

Definition emitPrintfAggregate (FnNameStr : Value) (ArgIndex : Z) : Pass unit :=
  Printf <- getOrInsertPrintf ;;
  Fmt <- CreateGlobalStringPtr fmt_arg_agg "__logger.fmt.arg.agg" ;;
  let Idx := getInt32 ArgIndex in
  CreateCall Printf [Fmt; FnNameStr; Idx] ;;;
  ret tt.

Definition emitPrintfArgInt (FnNameStr : Value) (ArgIndex : Z) (V : Value)
  : Pass unit :=
  Printf <- getOrInsertPrintf ;;
  Fmt <- CreateGlobalStringPtr fmt_arg_i "__logger.fmt.arg.i" ;;
  let Idx := getInt32 ArgIndex in
  I64 <- CreateZExtOrBitCast V Int64Ty ;;
  CreateCall Printf [Fmt; FnNameStr; Idx; I64] ;;;
  ret tt.

Definition emitPrintfArgFloat (FnNameStr : Value) (ArgIndex : Z) (V : Value)
  : Pass unit :=
  Printf <- getOrInsertPrintf ;;
  Fmt <- CreateGlobalStringPtr fmt_arg_f "__logger.fmt.arg.f" ;;
  let Idx := getInt32 ArgIndex in
  D <- (if isDoubleTy (getType V) then ret V else CreateFPExt V DoubleTy) ;;
  CreateCall Printf [Fmt; FnNameStr; Idx; D] ;;;
  ret tt.

Definition emitPrintfArgPtr (FnNameStr : Value) (ArgIndex : Z) (V : Value)
  : Pass unit :=
  Printf <- getOrInsertPrintf ;;
  Fmt <- CreateGlobalStringPtr fmt_arg_p "__logger.fmt.arg.p" ;;
  let Idx := getInt32 ArgIndex in
  P <- CreatePointerCast V Int8PtrTy ;;
  CreateCall Printf [Fmt; FnNameStr; Idx; P] ;;;
  ret tt.

Definition emitPrintfRetVoid (FnNameStr : Value) : Pass unit :=
  Printf <- getOrInsertPrintf ;;
  Fmt <- CreateGlobalStringPtr fmt_ret_v "__logger.fmt.ret.v" ;;
  CreateCall Printf [Fmt; FnNameStr] ;;;
  ret tt.

Definition emitPrintfRetInt (FnNameStr : Value) (V : Value) : Pass unit :=
  Printf <- getOrInsertPrintf ;;
  Fmt <- CreateGlobalStringPtr fmt_ret_i "__logger.fmt.ret.i" ;;
  I64 <- CreateZExtOrBitCast V Int64Ty ;;
  CreateCall Printf [Fmt; FnNameStr; I64] ;;;
  ret tt.

Definition emitPrintfRetFloat (FnNameStr : Value) (V : Value) : Pass unit :=
  Printf <- getOrInsertPrintf ;;
  Fmt <- CreateGlobalStringPtr fmt_ret_f "__logger.fmt.ret.f" ;;
  D <- (if isDoubleTy (getType V) then ret V else CreateFPExt V DoubleTy) ;;
  CreateCall Printf [Fmt; FnNameStr; D] ;;;
  ret tt.

Definition emitPrintfRetPtr (FnNameStr : Value) (V : Value) : Pass unit :=
  Printf <- getOrInsertPrintf ;;
  Fmt <- CreateGlobalStringPtr fmt_ret_p "__logger.fmt.ret.p" ;;
  P <- CreatePointerCast V Int8PtrTy ;;
  CreateCall Printf [Fmt; FnNameStr; P] ;;;
  ret tt.

(** [IRBuilder<> BA(&*Entry.getFirstInsertionPt())]: the insertion point
    is looked up in the entry block as it is at that moment. *)
Definition IRBuilder_at_entry : Pass unit :=
  F <- getFunction ;;
  match fn_blocks F with
  | Entry :: _ => IRBuilder_at 0 (getFirstInsertionPt Entry)
  | [] => raise "getEntryBlock: the function has no block"
  end.

(** The loop over [F.args()] of [run]. *)
Fixpoint logArguments (FnNameStr : Value) (Args : list Value) (argIndex : Z)
  : Pass unit :=
  match Args with
  | [] => ret tt
  | Arg :: rest =>
      let T := getType Arg in
      IRBuilder_at_entry ;;;
      (if isPointerTy T then emitPrintfArgPtr FnNameStr argIndex Arg
       else if isIntegerTy T then emitPrintfArgInt FnNameStr argIndex Arg
       else if isFloatingPointTy T then emitPrintfArgFloat FnNameStr argIndex Arg
       else emitPrintfAggregate FnNameStr argIndex) ;;;
      logArguments FnNameStr rest (argIndex + 1)
  end.

(** The loop of [run] that fills [Returns].  A [ReturnInst *] is kept as
    the index of its block, of which it is the last instruction;
    [dyn_cast] on the null pointer of a block without terminator is
    undefined. *)
Fixpoint collectReturns (bs : list BasicBlock) (i : nat) : Res (list nat) :=
  match bs with
  | [] => Ok []
  | blk :: rest =>
      match getTerminator blk with
      | None => Err "dyn_cast on a null pointer"
      | Some T =>
          match collectReturns rest (S i) with
          | Ok Returns =>
              Ok (match T with ReturnInst _ => i :: Returns | _ => Returns end)
          | Err e => Err e
          end
      end
  end.

Definition getReturns : Pass (list nat) :=
  fun s => match collectReturns (fn_blocks (st_F s)) 0 with
           | Ok Returns => Ok (Returns, s)
           | Err e => Err e
           end.

(** The body of the loop over [Returns] of [run]. *)
Definition logReturn (FnNameStr : Value) (RI : nat) : Pass unit :=
  F <- getFunction ;;
  match nth_error (fn_blocks F) RI with
  | Some blk =>
      IRBuilder_at RI (List.length blk - 1) ;;;
      match getTerminator blk with
      | Some (ReturnInst None) => emitPrintfRetVoid FnNameStr
      | Some (ReturnInst (Some RetVal)) =>
          let RT := getType RetVal in
          if isPointerTy RT then emitPrintfRetPtr FnNameStr RetVal
          else if isIntegerTy RT then emitPrintfRetInt FnNameStr RetVal
          else if isFloatingPointTy RT then emitPrintfRetFloat FnNameStr RetVal
          else
            Printf <- getOrInsertPrintf ;;
            Fmt <- CreateGlobalStringPtr fmt_ret_agg "__logger.fmt.ret.agg" ;;
            CreateCall Printf [Fmt; FnNameStr] ;;;
            ret tt
      | _ => raise "not a return instruction"
      end
  | None => raise "no such block"
  end.

Fixpoint logReturns (FnNameStr : Value) (Returns : list nat) : Pass unit :=
  match Returns with
  | [] => ret tt
  | RI :: rest => logReturn FnNameStr RI ;;; logReturns FnNameStr rest
  end.

(** [LoggerFunctionPass::run] after the test of [isSkippableFunction]. *)
Definition instrument : Pass PreservedAnalyses :=
  IRBuilder_at_entry ;;;
  FnNameStr <- getFunctionNameGlobal ;;
  emitPrintfEnter FnNameStr ;;;
  F <- getFunction ;;
  logArguments FnNameStr (args F) 0 ;;;
  Returns <- getReturns ;;
  logReturns FnNameStr Returns ;;;
  ret PA_none.

(** [LoggerFunctionPass::run] on the function [F] of the module [M]: the
    analyses preserved, and the module and the function as the run
    leaves them. *)
Definition run (M : Module) (F : Function)
  : Res (PreservedAnalyses * (Module * Function)) :=
  if isSkippableFunction F then Ok (PA_all, (M, F))
  else
    match instrument (mkState M F (mkBuilder 0 0)) with
    | Ok (PA, s) => Ok (PA, (st_M s, st_F s))
    | Err e => Err e
    end.

(* ------------------------------------------------------------------ *)
(** *** A first function *)

Definition i32 : Type_ := IntegerTy 32.

(** [define i32 @add(i32 %a, i32 %b) { %s = add i32 %a, %b ; ret i32 %s }] *)
Definition add_fn : Function :=
  mkFunction "add" i32 [i32; i32] false 0
    [[OtherInst 1 i32 "add" [VArgument 0 i32; VArgument 1 i32];
      ReturnInst (Some (VInstruction 1 i32))]].

Definition empty_module : Module := mkModule [] [].

Definition add_module : Module := mkModule [add_fn] [].

(* ================================================================== *)
(** * Definitions used by the statements and the proofs *)

(** ** Insertion at a point *)

(** The block [b] with [log] put before the instruction at index [pt]. *)
Definition insert_at (pt : nat) (log b : list Instruction) : list Instruction :=
  firstn pt b ++ log ++ skipn pt b.

(** The blocks with [log] put at the builder's insertion point. *)
Definition splice (B : IRBuilder) (log : list Instruction)
  (bs : list BasicBlock) : list BasicBlock :=
  update_nth (BB B) (insert_at (InsertPt B) log) bs.

(** ** The monad and the builder *)

(** The function and the builder of [s'] are those of [s] after [log]
    went in at the insertion point. *)
Definition steps (s : State) (log : list Instruction) (s' : State) : Prop :=
  st_F s' = set_blocks (st_F s) (splice (st_B s) log (fn_blocks (st_F s))) /\
  st_B s' = mkBuilder (BB (st_B s)) (InsertPt (st_B s) + List.length log).

(** What a call of [getOrInsertFunction] does to the function list. *)
Definition fun_ext (M M' : Module) : Prop :=
  mod_functions M' = mod_functions M \/
  (getNamedValue M "printf" = None /\
   mod_functions M' = mod_functions M ++ [PrintfDecl]).

(** What [CreateCast] returns and inserts: nothing and the value itself
    when the types agree; nothing and the constant of the folder when it
    folds; one cast instruction and its result otherwise. *)
Definition cast_result (op : CastOps) (V : Value) (T : Type_)
  (casts : list Instruction) (X : Value) : Prop :=
  (Type_eqb (getType V) T = true /\ casts = [] /\ X = V) \/
  (Type_eqb (getType V) T = false /\ FoldCast op V T = Ok (Some X) /\
   casts = []) \/
  (Type_eqb (getType V) T = false /\ FoldCast op V T = Ok None /\
   castIsValid op (getType V) T = true /\
   exists cid, casts = [CastInst cid op V T] /\ X = VInstruction cid T).

(** ** One log call *)

(** A call of [printf] whose format is the global number [g]. *)
Definition log_call (g : nat) (FnNameStr : Value) (Inst : Instruction) : Prop :=
  exists id Callee extra,
    Inst = CallInst id Callee (VGlobalVariable g :: FnNameStr :: extra).

(** What every emission helper does: one new global holding the format,
    at most one function declaration, and, at the insertion point, at
    most one cast followed by one call. *)
Definition emitted (fmt name : string) (FnNameStr : Value)
  (log : list Instruction) (s s' : State) : Prop :=
  steps s log s' /\
  (exists casts call,
      log = casts ++ [call] /\
      Forall (fun c => isCast c = true) casts /\
      List.length casts <= 1 /\
      log_call (List.length (mod_globals (st_M s))) FnNameStr call) /\
  mod_globals (st_M s')
    = mod_globals (st_M s) ++ [mkGlobalVariable name true fmt] /\
  fun_ext (st_M s) (st_M s') /\
  getNamedValue (st_M s') "printf" <> None /\
  (exists blk, nth_error (fn_blocks (st_F s)) (BB (st_B s)) = Some blk /\
               InsertPt (st_B s) <= List.length blk).

(** ** The four-way classification *)

Inductive ValueClass : Type :=
| ClassPointer | ClassInteger | ClassFloat | ClassOther.

Definition classify (T : Type_) : ValueClass :=
  if isPointerTy T then ClassPointer
  else if isIntegerTy T then ClassInteger
  else if isFloatingPointTy T then ClassFloat
  else ClassOther.

Definition arg_format (T : Type_) : string :=
  match classify T with
  | ClassPointer => fmt_arg_p
  | ClassInteger => fmt_arg_i
  | ClassFloat => fmt_arg_f
  | ClassOther => fmt_arg_agg
  end.

Definition ret_format (RetVal : option Value) : string :=
  match RetVal with
  | None => fmt_ret_v
  | Some V =>
      match classify (getType V) with
      | ClassPointer => fmt_ret_p
      | ClassInteger => fmt_ret_i
      | ClassFloat => fmt_ret_f
      | ClassOther => fmt_ret_agg
      end
  end.

(** ** The module along a run *)

(** [n] globals were appended and at most one declaration of [printf]. *)
Definition mod_ext (n : nat) (M M' : Module) : Prop :=
  (exists gs, mod_globals M' = mod_globals M ++ gs /\ List.length gs = n) /\
  fun_ext M M'.

(** The global number [g] of [M] holds the string [fmt]. *)
Definition global_str (M : Module) (g : nat) (fmt : string) : Prop :=
  exists name, nth_error (mod_globals M) g = Some (mkGlobalVariable name true fmt).

(** One log: at most one cast, then a call of the print function on the
    format [fmt] and the name of the function. *)
Definition is_log (M : Module) (fmt : string) (FnNameStr : Value)
  (log : list Instruction) : Prop :=
  exists casts call g,
    log = casts ++ [call] /\
    Forall (fun c => isCast c = true) casts /\
    List.length casts <= 1 /\
    log_call g FnNameStr call /\
    global_str M g fmt.

Definition count_calls (l : list Instruction) : nat :=
  List.length (filter isCall l).

Definition call_or_cast (Inst : Instruction) : Prop :=
  isCall Inst = true \/ isCast Inst = true.

(** ** The logs of the arguments *)

(** The instructions the loop over the arguments leaves at the first
    insertion point: the log of each later argument stands before the
    logs of the earlier ones. *)
Inductive arg_logs (M : Module) (FnNameStr : Value)
  : list Value -> list Instruction -> Prop :=
| arg_logs_nil : arg_logs M FnNameStr [] []
| arg_logs_cons Arg rest log L :
    is_log M (arg_format (getType Arg)) FnNameStr log ->
    arg_logs M FnNameStr rest L ->
    arg_logs M FnNameStr (Arg :: rest) (L ++ log).

(** ** The logs of the returns *)

Definition is_return_block (b : BasicBlock) : bool :=
  match getTerminator b with
  | Some (ReturnInst _) => true
  | _ => false
  end.

(** The number of return sites of a function. *)
Definition num_returns (bs : list BasicBlock) : nat :=
  List.length (filter is_return_block bs).

(** What the return phase does to one block: a block that ends in a
    return gets one log immediately before the return, the call last;
    every other block is left alone. *)
Definition ret_logged (M : Module) (FnNameStr : Value) (b b' : BasicBlock)
  : Prop :=
  match getTerminator b with
  | Some (ReturnInst RetVal) =>
      exists init log,
        b = init ++ [ReturnInst RetVal] /\
        is_log M (ret_format RetVal) FnNameStr log /\
        b' = init ++ log ++ [ReturnInst RetVal]
  | _ => b' = b
  end.

(** ** Runs that complete *)

(** The builder points into a block. *)
Definition valid_builder (s : State) : Prop :=
  exists blk, nth_error (fn_blocks (st_F s)) (BB (st_B s)) = Some blk /\
              InsertPt (st_B s) <= List.length blk.

(** The types the emission helpers can widen: integers of at most 64
    bits and floating-point types no wider than [double]; pointers and
    the types of the catch-all class need no widening. *)
Definition castable (T : Type_) : bool :=
  match classify T with
  | ClassInteger | ClassFloat => (getScalarSizeInBits T <=? 64)%N
  | _ => true
  end.

Definition return_castable (b : BasicBlock) : bool :=
  match getTerminator b with
  | Some (ReturnInst (Some V)) => castable (getType V)
  | _ => true
  end.

Definition has_terminator (b : BasicBlock) : bool :=
  match getTerminator b with Some _ => true | None => false end.

(** ** Example functions *)

Definition i8 : Type_ := IntegerTy 8.

Definition i128 : Type_ := IntegerTy 128.

(** The result of the pass on [add]; the instructions are listed in the
    order in which they stand in the entry block. *)
Definition add_entry_logged : BasicBlock :=
  [ CastInst 5 ZExt (VArgument 1 i32) Int64Ty;
    CallInst 6 (VFunction "printf")
      [VGlobalVariable 3; VGlobalVariable 0; VConstantInt 32 1;
       VInstruction 5 Int64Ty];
    CastInst 3 ZExt (VArgument 0 i32) Int64Ty;
    CallInst 4 (VFunction "printf")
      [VGlobalVariable 2; VGlobalVariable 0; VConstantInt 32 0;
       VInstruction 3 Int64Ty];
    CallInst 2 (VFunction "printf") [VGlobalVariable 1; VGlobalVariable 0];
    OtherInst 1 i32 "add" [VArgument 0 i32; VArgument 1 i32];
    CastInst 7 ZExt (VInstruction 1 i32) Int64Ty;
    CallInst 8 (VFunction "printf")
      [VGlobalVariable 4; VGlobalVariable 0; VInstruction 7 Int64Ty];
    ReturnInst (Some (VInstruction 1 i32)) ].

Definition add_globals : list GlobalVariable :=
  [ mkGlobalVariable "__logger.fn.add" true "add";
    mkGlobalVariable "__logger.fmt.enter" true fmt_enter;
    mkGlobalVariable "__logger.fmt.arg.i" true fmt_arg_i;
    mkGlobalVariable "__logger.fmt.arg.i" true fmt_arg_i;
    mkGlobalVariable "__logger.fmt.ret.i" true fmt_ret_i ].

Definition add_fn_logged : Function := set_blocks add_fn [add_entry_logged].

Definition add_module_logged : Module :=
  mkModule [add_fn; PrintfDecl] add_globals.

(** [define void @wide(i128 %x) { ret void }] *)
Definition wide_fn : Function :=
  mkFunction "wide" VoidTy [i128] false 0 [[ReturnInst None]].

(** [define void @ld(x86_fp80 %x) { ret void }], a [long double]
    parameter on x86. *)
Definition ld_fn : Function :=
  mkFunction "ld" VoidTy [X86_FP80Ty] false 0 [[ReturnInst None]].

(** [define i128 @wide_ret() { ret i128 %v }] with [%v] computed before. *)
Definition wide_ret_fn : Function :=
  mkFunction "wide_ret" i128 [] false 0
    [[OtherInst 1 i128 "load" [VGlobalVariable 0];
      ReturnInst (Some (VInstruction 1 i128))]].

(** A function with two return sites and a block that does not return:
    [define i32 @pick(i32 %c) { br %c, b1, b2 ; b1: ret i32 0 ;
     b2: %v = ... ; ret i32 %v ; b3: unreachable }] *)
Definition pick_fn : Function :=
  mkFunction "pick" i32 [i32] false 0
    [ [OtherInst 1 (IntegerTy 1) "icmp" [VArgument 0 i32; VConstantInt 32 0];
       BranchInst [1; 2]];
      [ReturnInst (Some (VConstantInt 32 0))];
      [OtherInst 2 i32 "mul" [VArgument 0 i32; VArgument 0 i32];
       ReturnInst (Some (VInstruction 2 i32))];
      [UnreachableInst] ].

Definition pick_module : Module := mkModule [pick_fn] [].

Definition pick_result : Module * Function :=
  Eval vm_compute in
    match run pick_module pick_fn with
    | Ok (_, r) => r
    | Err _ => (pick_module, pick_fn)
    end.

(** A defined function without a name: [define void @""() { ret void }]. *)
Definition unnamed_fn : Function :=
  mkFunction "" VoidTy [] false 0 [[ReturnInst None]].

Definition unnamed_result : Module * Function :=
  Eval vm_compute in
    match run empty_module unnamed_fn with
    | Ok (_, r) => r
    | Err _ => (empty_module, unnamed_fn)
    end.

(** A function the filter skips although it has a body. *)
Definition logger_helper_fn : Function :=
  mkFunction "__logger_flush" VoidTy [] false 0 [[ReturnInst None]].

(** ** Insertion only (C5) *)

(** [b'] is [b] with calls and casts put in: no instruction of [b] is
    missing from [b'] and those of [b] stand in [b'] in their order. *)
Inductive inserted_only : BasicBlock -> BasicBlock -> Prop :=
| inserted_nil : inserted_only [] []
| inserted_keep x b b' :
    inserted_only b b' -> inserted_only (x :: b) (x :: b')
| inserted_add y b b' :
    call_or_cast y -> inserted_only b b' -> inserted_only b (y :: b').

(** ** The functions left alone (C4) *)

(** The condition of the claim: a declaration, an intrinsic, or a
    function whose name is not empty and is the name of the print
    function or starts with the reserved prefix. *)
Definition skip_condition (F : Function) : Prop :=
  isDeclaration F = true \/
  isIntrinsic F = true \/
  (fn_name F <> "" /\
   (fn_name F = "printf" \/ String.prefix "__logger" (fn_name F) = true)).

(** ** What a cast computes and what is printed (C6) *)

(** The value of the [w]-bit pattern [x] read as a signed number. *)
Definition signed (w : N) (x : Z) : Z :=
  let m := (x mod 2 ^ Z.of_N w)%Z in
  if (m <? 2 ^ (Z.of_N w - 1))%Z then m else (m - 2 ^ Z.of_N w)%Z.

(** The bit pattern an integer cast computes from the pattern [x] of
    [SrcBits] bits (LLVM's [zext], [sext], [trunc] and [bitcast]). *)
Definition evalCast (op : CastOps) (SrcBits DstBits : N) (x : Z) : option Z :=
  match op with
  | ZExt => Some (x mod 2 ^ Z.of_N SrcBits)%Z
  | SExt => Some (signed SrcBits x mod 2 ^ Z.of_N DstBits)%Z
  | Trunc => Some (x mod 2 ^ Z.of_N DstBits)%Z
  | BitCast => Some x
  | _ => None
  end.

(** What the conversion [%lld] prints for a 64-bit argument. *)
Definition printf_lld (x : Z) : Z := signed 64 x.

(** The state of the pass on [add] when its first argument is logged:
    the builder stands at the head of the entry block. *)
Definition add_state : State := mkState add_module add_fn (mkBuilder 0 0).

(** ** Runs over the whole module (C8) *)

(** The pass on the function number [i] of the module, as the
    function-to-module adaptor of the pass manager runs it: declarations
    are passed over, and the rewritten function takes the place of the
    old one. *)
Definition runOnFunction (M : Module) (i : nat) : Res Module :=
  match nth_error (mod_functions M) i with
  | None => Ok M
  | Some F =>
      if isDeclaration F then Ok M
      else
        match run M F with
        | Ok (_, (M', F')) =>
            Ok (mkModule (update_nth i (fun _ => F') (mod_functions M'))
                         (mod_globals M'))
        | Err e => Err e
        end
  end.

Fixpoint runOnFunctions (n i : nat) (M : Module) : Res Module :=
  match n with
  | 0 => Ok M
  | S n' =>
      match runOnFunction M i with
      | Ok M1 => runOnFunctions n' (S i) M1
      | Err e => Err e
      end
  end.

(** One run of the pass over the module: every function in the list,
    the declaration the run may have appended included. *)
Definition runOnModule (M : Module) : Res Module :=
  runOnFunctions (S (List.length (mod_functions M))) 0 M.

(** [k] runs of the pass over the module, one after the other (the
    plugin registers the pass at two points of the pipeline). *)
Fixpoint runPipeline (k : nat) (M : Module) : Res Module :=
  match k with
  | 0 => Ok M
  | S k' =>
      match runOnModule M with
      | Ok M1 => runPipeline k' M1
      | Err e => Err e
      end
  end.

(** The globals one run of the pass creates for a function: none when
    it is skipped; otherwise the name, the entry format, and one format
    per parameter and per return site. *)
Definition fn_weight (F : Function) : nat :=
  if isSkippableFunction F then 0
  else 2 + List.length (fn_params F) + num_returns (fn_blocks F).

Definition fresh_globals (M : Module) : nat :=
  list_sum (map fn_weight (mod_functions M)).

(** [c] globals were appended, and at most one function, named
    [printf], which the module did not have. *)
Definition unit_ext (c : nat) (M M' : Module) : Prop :=
  (exists gs, mod_globals M' = mod_globals M ++ gs /\ List.length gs = c) /\
  (exists added,
      map fn_name (mod_functions M') = map fn_name (mod_functions M) ++ added /\
      map fn_weight (mod_functions M')
      = map fn_weight (mod_functions M) ++ map (fun _ => 0) added /\
      (added = [] \/ (added = ["printf"] /\ getNamedValue M "printf" = None))).

Definition weight_at (M : Module) (j : nat) : nat :=
  nth j (map fn_weight (mod_functions M)) 0.

Fixpoint sum_from (f : nat -> nat) (i n : nat) : nat :=
  match n with
  | 0 => 0
  | S n' => f i + sum_from f (S i) n'
  end.

Definition add_module_twice : Module :=
  Eval vm_compute in
    match runPipeline 2 add_module with
    | Ok M' => M'
    | Err _ => add_module
    end.

(** ** What each log is made of *)

(** The opcode [CreateZExtOrBitCast] asks for when the target is [i64]. *)
Definition int_cast_op (T : Type_) : CastOps :=
  if N.eqb (getScalarSizeInBits T) (getScalarSizeInBits Int64Ty)
  then BitCast else ZExt.

(** The opcode [CreatePointerCast] asks for when the target is the
    generic pointer type. *)
Definition ptr_cast_op (T : Type_) : CastOps :=
  match T, Int8PtrTy with
  | PointerTy a, PointerTy b => if N.eqb a b then BitCast else AddrSpaceCast
  | _, _ => if isIntegerTy Int8PtrTy then PtrToInt else BitCast
  end.

(** The cast the helper of the class of [V] asks of the builder: to
    [ptr], to [i64], to [double]; none for the catch-all class, whose
    helper does not take the value. *)
Definition widening (V : Value) : option (CastOps * Type_) :=
  match classify (getType V) with
  | ClassPointer => Some (ptr_cast_op (getType V), Int8PtrTy)
  | ClassInteger => Some (int_cast_op (getType V), Int64Ty)
  | ClassFloat => Some (FPExt, DoubleTy)
  | ClassOther => None
  end.

(** The builder can make the cast: the types agree, the folder folds,
    or the cast instruction is a valid one. *)
Definition cast_ok (op : CastOps) (V : Value) (T : Type_) : bool :=
  Type_eqb (getType V) T ||
  match FoldCast op V T with
  | Ok (Some _) => true
  | Ok None => castIsValid op (getType V) T
  | Err _ => false
  end.

(** The helper of the class of [V] can widen it. *)
Definition widens (V : Value) : bool :=
  match widening V with
  | Some (op, T) => cast_ok op V T
  | None => true
  end.

Definition return_widens (b : BasicBlock) : bool :=
  match getTerminator b with
  | Some (ReturnInst (Some V)) => widens V
  | _ => true
  end.

Definition arg_gname (T : Type_) : string :=
  match classify T with
  | ClassPointer => "__logger.fmt.arg.p"
  | ClassInteger => "__logger.fmt.arg.i"
  | ClassFloat => "__logger.fmt.arg.f"
  | ClassOther => "__logger.fmt.arg.agg"
  end.

Definition ret_gname (RetVal : option Value) : string :=
  match RetVal with
  | None => "__logger.fmt.ret.v"
  | Some V =>
      match classify (getType V) with
      | ClassPointer => "__logger.fmt.ret.p"
      | ClassInteger => "__logger.fmt.ret.i"
      | ClassFloat => "__logger.fmt.ret.f"
      | ClassOther => "__logger.fmt.ret.agg"
      end
  end.

(** The global a run creates for a parameter of type [T], and for a
    return site that returns [RetVal]. *)
Definition arg_global (T : Type_) : GlobalVariable :=
  mkGlobalVariable (arg_gname T) true (arg_format T).

Definition ret_global (RetVal : option Value) : GlobalVariable :=
  mkGlobalVariable (ret_gname RetVal) true (ret_format RetVal).

(** [log] is one complete log: the call goes to the value the module
    knows as [printf]; its operands are the global [G], the name of the
    function, the operands [pre] and, when the helper takes the value
    [val], what the builder returned for its widening; before the call
    stands the cast, if the builder made one. *)
Definition log_of (M : Module) (G : GlobalVariable) (FnNameStr : Value)
  (pre : list Value) (val : option Value) (log : list Instruction) : Prop :=
  exists casts vals id Callee g,
    log = casts ++ [CallInst id Callee
                      (VGlobalVariable g :: FnNameStr :: pre ++ vals)] /\
    match val with
    | Some V =>
        match widening V with
        | Some (op, T) => exists X, cast_result op V T casts X /\ vals = [X]
        | None => casts = [] /\ vals = []
        end
    | None => casts = [] /\ vals = []
    end /\
    nth_error (mod_globals M) g = Some G /\
    getNamedValue M "printf" = Some Callee.

(** The logs of the arguments as the loop leaves them at the first
    insertion point, each with the index of its parameter. *)
Inductive arg_logs_of (M : Module) (FnNameStr : Value)
  : Z -> list Value -> list Instruction -> Prop :=
| arg_logs_of_nil k : arg_logs_of M FnNameStr k [] []
| arg_logs_of_cons k Arg rest log L :
    log_of M (arg_global (getType Arg)) FnNameStr [getInt32 k] (Some Arg) log ->
    arg_logs_of M FnNameStr (k + 1) rest L ->
    arg_logs_of M FnNameStr k (Arg :: rest) (L ++ log).

(** The return phase on one block, with the operands of the log. *)
Definition ret_logged_of (M : Module) (FnNameStr : Value) (b b' : BasicBlock)
  : Prop :=
  match getTerminator b with
  | Some (ReturnInst RetVal) =>
      exists init log,
        b = init ++ [ReturnInst RetVal] /\
        log_of M (ret_global RetVal) FnNameStr [] RetVal log /\
        b' = init ++ log ++ [ReturnInst RetVal]
  | _ => b' = b
  end.

(** The value a block returns, when it ends in a return of a value. *)
Definition returned (b : BasicBlock) : option Value :=
  match getTerminator b with
  | Some (ReturnInst RetVal) => RetVal
  | _ => None
  end.

(** The value returned by the block number [i]. *)
Definition returned_at (bs : list BasicBlock) (i : nat) : option Value :=
  match nth_error bs i with
  | Some b => returned b
  | None => None
  end.

(** The return sites of a function, in the order of the blocks. *)
Definition return_sites (bs : list BasicBlock) : list (option Value) :=
  map returned (filter is_return_block bs).

(** ** What a run may insert *)

(** [b'] is [b] with instructions that satisfy [P] put in. *)
Inductive inserted_with (P : Instruction -> Prop)
  : BasicBlock -> BasicBlock -> Prop :=
| inserted_with_nil : inserted_with P [] []
| inserted_with_keep x b b' :
    inserted_with P b b' -> inserted_with P (x :: b) (x :: b')
| inserted_with_add y b b' :
    P y -> inserted_with P b b' -> inserted_with P b (y :: b').

(** The instructions of a log: a call of [Callee], a zero extension of
    an integer to [i64], a floating-point extension to [double], an
    address-space cast of a pointer to the generic pointer type. *)
Definition log_instruction (Callee : Value) (Inst : Instruction) : Prop :=
  (exists id Args, Inst = CallInst id Callee Args) \/
  (exists id V, Inst = CastInst id ZExt V Int64Ty
                /\ isIntegerTy (getType V) = true) \/
  (exists id V, Inst = CastInst id FPExt V DoubleTy
                /\ isFloatingPointTy (getType V) = true) \/
  (exists id V, Inst = CastInst id AddrSpaceCast V Int8PtrTy
                /\ isPointerTy (getType V) = true).

(** The cast a value that is not a constant needs before it is printed:
    none when its type is already the one its class is widened to. *)
Definition needed_cast (V : Value) : option (CastOps * Type_) :=
  match widening V with
  | Some (op, T) => if Type_eqb (getType V) T then None else Some (op, T)
  | None => None
  end.

(** The log of the parameter number [k], of type [T]: the cast it
    needs, if any, then the call on the format global number [g], the
    name of the function, the index and, unless the class is the
    catch-all one, the parameter or the result of the cast. *)
Definition parameter_log (cid id : nat) (Callee : Value) (g : nat)
  (FnNameStr : Value) (k : nat) (T : Type_) : list Instruction :=
  let Arg := VArgument k T in
  let Idx := getInt32 (Z.of_nat k) in
  match classify T with
  | ClassOther => [CallInst id Callee [VGlobalVariable g; FnNameStr; Idx]]
  | _ =>
      match needed_cast Arg with
      | Some (op, T') =>
          [CastInst cid op Arg T';
           CallInst id Callee
             [VGlobalVariable g; FnNameStr; Idx; VInstruction cid T']]
      | None =>
          [CallInst id Callee [VGlobalVariable g; FnNameStr; Idx; Arg]]
      end
  end.

(** ** Zero extension (C6) *)

(** [X] is what the call gets for the integer [V] zero-extended to 64
    bits, and [casts] what was inserted for it: the result of a [zext]
    instruction on [V]; for an integer constant, the constant of the
    extended integer; for another constant that the folder folds, the
    constant [zext V to i64]. *)
Definition zero_extended (V : Value) (casts : list Instruction) (X : Value)
  : Prop :=
  (exists cid, casts = [CastInst cid ZExt V Int64Ty] /\
               X = VInstruction cid Int64Ty) \/
  (casts = [] /\
   exists w x, V = VConstantInt w x /\
               X = VConstantInt 64 (x mod 2 ^ Z.of_N w)) \/
  (casts = [] /\ isConstant V = true /\ X = VConstantExpr ZExt V Int64Ty).

(** [define i8 @id8(i8 %x) { ret i8 %x }] *)
Definition byte_fn : Function :=
  mkFunction "id8" i8 [i8] false 0 [[ReturnInst (Some (VArgument 0 i8))]].

Definition byte_module : Module := mkModule [byte_fn] [].

Definition byte_result : Module * Function :=
  Eval vm_compute in
    match run byte_module byte_fn with
    | Ok (_, r) => r
    | Err _ => (byte_module, byte_fn)
    end.

(** ** The callee of the calls put in *)

(** If [Inst] is a call, it is a call of [Callee]. *)
Definition call_of (Callee : Value) (Inst : Instruction) : Prop :=
  isCall Inst = true -> exists id Args, Inst = CallInst id Callee Args.

(** ** The plugin *)

Inductive OptimizationLevel : Type := O0 | O1 | O2 | O3 | Os | Oz.

(** The passes the plugin hands to the pass managers. *)
Inductive FunctionPassT : Type := LoggerFunctionPass.

Inductive ModulePassT : Type :=
| createModuleToFunctionPassAdaptor (P : FunctionPassT).

Definition FunctionPassManager : Type := list FunctionPassT.
Definition ModulePassManager : Type := list ModulePassT.

(** [PassManager::addPass]: the pass goes to the end. *)
Definition addPass {A : Type} (PM : list A) (P : A) : list A := PM ++ [P].

Definition EPCallback : Type :=
  ModulePassManager -> OptimizationLevel -> ModulePassManager.

(** A parsing callback gets the name of the pipeline element, the pass
    manager and the inner pipeline; it returns whether it took the name,
    with the pass manager as it left it. *)
Definition ParsingCallback : Type :=
  string -> FunctionPassManager -> list string -> bool * FunctionPassManager.

(** [llvm::PassBuilder], by the three lists of callbacks the plugin
    registers to. *)
Record PassBuilder : Type := mkPassBuilder {
  PipelineStartEPCallbacks : list EPCallback;
  OptimizerLastEPCallbacks : list EPCallback;
  FunctionPipelineParsingCallbacks : list ParsingCallback
}.

Definition emptyPassBuilder : PassBuilder := mkPassBuilder [] [] [].

Definition registerPipelineStartEPCallback (PB : PassBuilder) (C : EPCallback)
  : PassBuilder :=
  mkPassBuilder (PipelineStartEPCallbacks PB ++ [C])
                (OptimizerLastEPCallbacks PB)
                (FunctionPipelineParsingCallbacks PB).

Definition registerOptimizerLastEPCallback (PB : PassBuilder) (C : EPCallback)
  : PassBuilder :=
  mkPassBuilder (PipelineStartEPCallbacks PB)
                (OptimizerLastEPCallbacks PB ++ [C])
                (FunctionPipelineParsingCallbacks PB).

Definition registerPipelineParsingCallback (PB : PassBuilder)
  (C : ParsingCallback) : PassBuilder :=
  mkPassBuilder (PipelineStartEPCallbacks PB)
                (OptimizerLastEPCallbacks PB)
                (FunctionPipelineParsingCallbacks PB ++ [C]).

(** [PassBuilder::invokePipelineStartEPCallbacks] and
    [invokeOptimizerLastEPCallbacks]: every callback, in the order of
    registration. *)
Definition invokePipelineStartEPCallbacks (PB : PassBuilder)
  (MPM : ModulePassManager) (Level : OptimizationLevel) : ModulePassManager :=
  fold_left (fun m (C : EPCallback) => C m Level)
            (PipelineStartEPCallbacks PB) MPM.

Definition invokeOptimizerLastEPCallbacks (PB : PassBuilder)
  (MPM : ModulePassManager) (Level : OptimizationLevel) : ModulePassManager :=
  fold_left (fun m (C : EPCallback) => C m Level)
            (OptimizerLastEPCallbacks PB) MPM.

(** The loop of [PassBuilder::parseFunctionPass] over the callbacks: the
    first one that takes the name ends it. *)
Fixpoint parseFunctionPassCallbacks (Cs : list ParsingCallback)
  (Name : string) (FPM : FunctionPassManager) (InnerPipeline : list string)
  : bool * FunctionPassManager :=
  match Cs with
  | [] => (false, FPM)
  | C :: Cs' =>
      let (taken, FPM') := C Name FPM InnerPipeline in
      if taken then (true, FPM')
      else parseFunctionPassCallbacks Cs' Name FPM' InnerPipeline
  end.

Record PassPluginLibraryInfo : Type := mkPassPluginLibraryInfo {
  APIVersion : nat;
  PluginName : string;
  PluginVersion : string;
  RegisterPassBuilderCallbacks : PassBuilder -> PassBuilder
}.

Definition LLVM_PLUGIN_API_VERSION : nat := 1.

(** [llvmGetPassPluginInfo]; the version string of the LLVM the plugin
    is built against is a parameter. *)
Definition llvmGetPassPluginInfo (LLVM_VERSION_STRING : string)
  : PassPluginLibraryInfo :=
  mkPassPluginLibraryInfo
    LLVM_PLUGIN_API_VERSION
    "LoggerPass"
    LLVM_VERSION_STRING
    (fun PB =>
       let PB1 :=
         registerPipelineStartEPCallback PB
           (fun MPM _ =>
              addPass MPM (createModuleToFunctionPassAdaptor LoggerFunctionPass)) in
       let PB2 :=
         registerOptimizerLastEPCallback PB1
           (fun MPM _ =>
              addPass MPM (createModuleToFunctionPassAdaptor LoggerFunctionPass)) in
       registerPipelineParsingCallback PB2
         (fun Name FPM _ =>
            if String.eqb Name "logger-fn"
            then (true, addPass FPM LoggerFunctionPass)
            else (false, FPM))).

(** A module pass manager at work: the passes one after the other, each
    on the module the one before left. *)
Definition runModulePass (P : ModulePassT) (M : Module) : Res Module :=
  match P with
  | createModuleToFunctionPassAdaptor LoggerFunctionPass => runOnModule M
  end.

Fixpoint runMPM (MPM : ModulePassManager) (M : Module) : Res Module :=
  match MPM with
  | [] => Ok M
  | P :: rest =>
      match runModulePass P M with
      | Ok M1 => runMPM rest M1
      | Err e => Err e
      end
  end.

(* ================================================================== *)
(** * Properties *)

(** ** Lists: update at an index, insertion at a point *)

Lemma update_nth_length {A} (f : A -> A) (l : list A) (n : nat) :
  List.length (update_nth n f l) = List.length l.
Proof.
  revert n; induction l as [|x r IH]; intros [|n]; simpl; auto.
Qed.

Lemma nth_error_update_nth_eq {A} (f : A -> A) (l : list A) (n : nat) :
  nth_error (update_nth n f l) n = option_map f (nth_error l n).
Proof.
  revert n; induction l as [|x r IH]; intros [|n]; simpl; auto.
Qed.

Lemma nth_error_update_nth_neq {A} (f : A -> A) (l : list A) (n m : nat) :
  n <> m -> nth_error (update_nth n f l) m = nth_error l m.
Proof.
  revert n m; induction l as [|x r IH]; intros [|n] [|m] Hnm; simpl; auto.
  - congruence.
Qed.

Lemma update_nth_ext {A} (f g : A -> A) (l : list A) (n : nat) :
  (forall x, nth_error l n = Some x -> f x = g x) ->
  update_nth n f l = update_nth n g l.
Proof.
  revert n; induction l as [|x r IH]; intros [|n] H; simpl; auto.
  - rewrite (H x); auto.
  - rewrite (IH n); auto.
Qed.

Lemma update_nth_update_nth {A} (f g : A -> A) (l : list A) (n : nat) :
  update_nth n g (update_nth n f l) = update_nth n (fun x => g (f x)) l.
Proof.
  revert n; induction l as [|x r IH]; intros [|n]; simpl; auto.
  rewrite IH; auto.
Qed.

Lemma update_nth_id {A} (f : A -> A) (l : list A) (n : nat) :
  (forall x, nth_error l n = Some x -> f x = x) ->
  update_nth n f l = l.
Proof.
  revert n; induction l as [|x r IH]; intros [|n] H; simpl; auto.
  - rewrite (H x); auto.
  - rewrite (IH n); auto.
Qed.

Lemma insert_at_nil pt b : insert_at pt [] b = b.
Proof. unfold insert_at; simpl; apply firstn_skipn. Qed.

Lemma insert_at_app pt l1 l2 b :
  insert_at (pt + List.length l1) l2 (insert_at pt l1 b)
  = insert_at pt (l1 ++ l2) b.
Proof.
  unfold insert_at.
  destruct (Nat.le_gt_cases pt (List.length b)) as [Hle|Hgt].
  - assert (Hlen : List.length (firstn pt b) = pt)
      by (rewrite length_firstn; lia).
    replace (firstn pt b ++ l1 ++ skipn pt b)
      with ((firstn pt b ++ l1) ++ skipn pt b) by (rewrite <- app_assoc; auto).
    assert (Hl : List.length (firstn pt b ++ l1) = pt + List.length l1)
      by (rewrite length_app; lia).
    rewrite <- Hl.
    rewrite firstn_app, firstn_all, Nat.sub_diag, firstn_O, app_nil_r.
    rewrite skipn_app, skipn_all, Nat.sub_diag, skipn_O; simpl.
    rewrite <- !app_assoc; reflexivity.
  - rewrite (@firstn_all2 _ pt b) by lia.
    rewrite (@skipn_all2 _ pt b) by lia.
    rewrite !app_nil_r.
    rewrite firstn_all2 by (rewrite length_app; lia).
    rewrite skipn_all2 by (rewrite length_app; lia).
    rewrite <- !app_assoc, ?app_nil_r; reflexivity.
Qed.

Lemma splice_nil B bs : splice B [] bs = bs.
Proof.
  unfold splice; apply update_nth_id; intros; apply insert_at_nil.
Qed.

Lemma splice_app B l1 l2 bs :
  splice (mkBuilder (BB B) (InsertPt B + List.length l1)) l2 (splice B l1 bs)
  = splice B (l1 ++ l2) bs.
Proof.
  unfold splice; simpl. rewrite update_nth_update_nth.
  apply update_nth_ext; intros; apply insert_at_app.
Qed.

Lemma splice_length B log bs : List.length (splice B log bs) = List.length bs.
Proof. apply update_nth_length. Qed.

Lemma set_blocks_blocks F bs : fn_blocks (set_blocks F bs) = bs.
Proof. reflexivity. Qed.

Lemma set_blocks_set_blocks F bs bs' :
  set_blocks (set_blocks F bs) bs' = set_blocks F bs'.
Proof. reflexivity. Qed.

Lemma set_blocks_same F : set_blocks F (fn_blocks F) = F.
Proof. destruct F; reflexivity. Qed.

(** ** The monad and the builder *)

Lemma bind_inv {A B} (m : Pass A) (k : A -> Pass B) s b s' :
  bind m k s = Ok (b, s') ->
  exists a s1, m s = Ok (a, s1) /\ k a s1 = Ok (b, s').
Proof.
  unfold bind; destruct (m s) as [[a s1]|e]; intros H; [eauto | discriminate].
Qed.

Tactic Notation "inv_bind" hyp(H) "as" ident(a) ident(s1) ident(H1) :=
  apply bind_inv in H; destruct H as (a & s1 & H1 & H).

Lemma steps_nil s s' : st_F s' = st_F s -> st_B s' = st_B s -> steps s [] s'.
Proof.
  intros HF HB; split.
  - rewrite splice_nil, set_blocks_same; auto.
  - rewrite HB; simpl; rewrite Nat.add_0_r; destruct (st_B s); auto.
Qed.

Lemma steps_trans s l1 s1 l2 s2 :
  steps s l1 s1 -> steps s1 l2 s2 -> steps s (l1 ++ l2) s2.
Proof.
  intros [HF1 HB1] [HF2 HB2]; split.
  - rewrite HF2, HF1, HB1, set_blocks_blocks, set_blocks_set_blocks.
    rewrite splice_app; reflexivity.
  - rewrite HB2, HB1; simpl; rewrite length_app, Nat.add_assoc; reflexivity.
Qed.

Lemma getOrInsertPrintf_inv s v s' :
  getOrInsertPrintf s = Ok (v, s') ->
  st_F s' = st_F s /\ st_B s' = st_B s /\
  mod_globals (st_M s') = mod_globals (st_M s) /\
  fun_ext (st_M s) (st_M s') /\
  getNamedValue (st_M s') "printf" <> None.
Proof.
  unfold getOrInsertPrintf, getOrInsertFunction.
  destruct (getNamedValue (st_M s) "printf") eqn:E; intros H; inversion H; subst.
  - repeat split; auto; [left; auto | congruence].
  - simpl; repeat split; auto.
    + right; auto.
    + unfold getNamedValue; simpl.
      replace (find_function "printf" (mod_functions (st_M s) ++ [PrintfDecl]))
        with true; [discriminate|].
      clear; induction (mod_functions (st_M s)) as [|F r IH]; simpl; auto.
      rewrite <- IH; symmetry; apply orb_true_r.
Qed.

Lemma CreateGlobalStringPtr_inv Str Name s v s' :
  CreateGlobalStringPtr Str Name s = Ok (v, s') ->
  st_F s' = st_F s /\ st_B s' = st_B s /\
  mod_functions (st_M s') = mod_functions (st_M s) /\
  mod_globals (st_M s')
    = mod_globals (st_M s) ++ [mkGlobalVariable Name true Str] /\
  v = VGlobalVariable (List.length (mod_globals (st_M s))).
Proof.
  unfold CreateGlobalStringPtr; intros H; inversion H; subst; simpl; auto.
Qed.

Lemma Insert_inv Inst s u s' :
  Insert Inst s = Ok (u, s') ->
  st_M s' = st_M s /\ steps s [Inst] s' /\
  exists blk, nth_error (fn_blocks (st_F s)) (BB (st_B s)) = Some blk /\
              InsertPt (st_B s) <= List.length blk.
Proof.
  unfold Insert.
  destruct (nth_error (fn_blocks (st_F s)) (BB (st_B s))) as [blk|] eqn:E;
    [|discriminate].
  destruct (InsertPt (st_B s) <=? List.length blk)%nat eqn:L; [|discriminate].
  intros H; inversion H; subst; simpl.
  split; [reflexivity|]. split.
  - split; simpl; [reflexivity | rewrite Nat.add_1_r; reflexivity].
  - exists blk; split; auto. apply Nat.leb_le; auto.
Qed.

Lemma CreateCall_inv Callee Args s v s' :
  CreateCall Callee Args s = Ok (v, s') ->
  st_M s' = st_M s /\
  (exists id, steps s [CallInst id Callee Args] s') /\
  exists blk, nth_error (fn_blocks (st_F s)) (BB (st_B s)) = Some blk /\
              InsertPt (st_B s) <= List.length blk.
Proof.
  unfold CreateCall, getFunction; intros H.
  inv_bind H as F s1 Hm. inversion Hm; subst; clear Hm.
  inv_bind H as u s2 Hm. apply Insert_inv in Hm as (HM & Hs & Hv).
  inversion H; subst. split; auto. split; eauto.
Qed.

Lemma cast_result_shape op V T casts X :
  cast_result op V T casts X ->
  Forall (fun c => isCast c = true) casts /\ List.length casts <= 1.
Proof.
  intros [(_ & -> & _)|[(_ & _ & ->)|(_ & _ & _ & cid & -> & _)]];
    simpl; split; repeat constructor.
Qed.

Lemma CreateCast_inv op V T s v s' :
  CreateCast op V T s = Ok (v, s') ->
  st_M s' = st_M s /\
  exists casts, steps s casts s' /\ cast_result op V T casts v.
Proof.
  unfold CreateCast, cast_result.
  destruct (Type_eqb (getType V) T).
  { unfold ret; intros H; inversion H; subst; split; auto.
    exists []; split; [apply steps_nil; auto | auto]. }
  destruct (FoldCast op V T) as [[Folded|]|e] eqn:EF; [| |discriminate].
  { unfold ret; intros H; inversion H; subst; split; auto.
    exists []; split; [apply steps_nil; auto |]. right; left; auto. }
  destruct (castIsValid op (getType V) T); simpl; [|discriminate].
  unfold getFunction; intros H.
  inv_bind H as F s1 Hm. inversion Hm; subst; clear Hm.
  inv_bind H as u s2 Hm. apply Insert_inv in Hm as (HM & Hs & Hv).
  inversion H; subst. split; auto.
  eexists; split; [exact Hs|]. right; right; eauto 8.
Qed.

(** ** One log call *)

Lemma steps_valid_back s log s' blk :
  steps s log s' ->
  nth_error (fn_blocks (st_F s')) (BB (st_B s')) = Some blk ->
  InsertPt (st_B s') <= List.length blk ->
  exists blk0, nth_error (fn_blocks (st_F s)) (BB (st_B s)) = Some blk0 /\
               InsertPt (st_B s) <= List.length blk0.
Proof.
  intros [HF HB] Hn Hle. rewrite HF, HB in Hn; simpl in Hn.
  unfold splice in Hn. rewrite nth_error_update_nth_eq in Hn.
  destruct (nth_error (fn_blocks (st_F s)) (BB (st_B s))) as [blk0|] eqn:E;
    simpl in Hn; [|discriminate].
  inversion Hn; subst. exists blk0; split; auto.
  rewrite HB in Hle; simpl in Hle. unfold insert_at in Hle.
  rewrite !length_app, length_firstn, length_skipn in Hle. lia.
Qed.

Lemma find_global_app_none name k l l' :
  find_global name k (l ++ l') = None -> find_global name k l = None.
Proof.
  revert k; induction l as [|G r IH]; simpl; intros k H; auto.
  destruct (gv_name G =? name)%string; [discriminate | auto].
Qed.

Lemma emit_call fmt name FnNameStr extra s s' :
  (Printf <- getOrInsertPrintf ;;
   Fmt <- CreateGlobalStringPtr fmt name ;;
   CreateCall Printf (Fmt :: FnNameStr :: extra) ;;;
   ret tt) s = Ok (tt, s') ->
  exists id Callee,
    emitted fmt name FnNameStr
      [CallInst id Callee
         (VGlobalVariable (List.length (mod_globals (st_M s)))
          :: FnNameStr :: extra)] s s'.
Proof.
  intros H.
  inv_bind H as Printf s1 H1.
  apply getOrInsertPrintf_inv in H1 as (HF1 & HB1 & HG1 & HX1 & HN1).
  inv_bind H as Fmt s2 H2.
  apply CreateGlobalStringPtr_inv in H2 as (HF2 & HB2 & HFn2 & HG2 & ->).
  inv_bind H as v s3 H3.
  apply CreateCall_inv in H3 as (HM3 & (id & Hs3) & Hv3).
  inversion H; subst s3; clear H.
  assert (Hs : steps s [] s2)
    by (apply steps_nil; [rewrite HF2, HF1 | rewrite HB2, HB1]; auto).
  pose proof (steps_trans _ _ _ _ _ Hs Hs3) as Hst; simpl in Hst.
  rewrite HG1 in Hst.
  exists id, Printf. unfold emitted. split; [exact Hst|]. split.
  { exists [], (CallInst id Printf
                  (VGlobalVariable (List.length (mod_globals (st_M s)))
                   :: FnNameStr :: extra)).
    split; [reflexivity|]. split; [constructor|]. split; [simpl; lia|].
    exists id, Printf, extra; reflexivity. }
  rewrite HM3, HG2, HG1. split; [reflexivity|]. split.
  { destruct HX1 as [E|[E1 E2]]; [left|right]; rewrite HFn2; auto. }
  split.
  { intros HN; apply HN1. unfold getNamedValue in *. rewrite HFn2 in HN.
    destruct (find_function "printf" (mod_functions (st_M s1)));
      [discriminate|].
    rewrite HG2, HG1 in HN. rewrite HG1.
    destruct (find_global "printf" 0
                (mod_globals (st_M s)
                 ++ [mkGlobalVariable name true fmt])) eqn:E;
      [discriminate|].
    apply find_global_app_none in E. rewrite E; reflexivity. }
  destruct Hv3 as (blk & Hb & Hl). rewrite HF2, HB2, HF1, HB1 in *; eauto.
Qed.

Lemma emit_cast_call fmt name FnNameStr op V T (mk : Value -> list Value) s s' :
  (Printf <- getOrInsertPrintf ;;
   Fmt <- CreateGlobalStringPtr fmt name ;;
   X <- CreateCast op V T ;;
   CreateCall Printf (Fmt :: FnNameStr :: mk X) ;;;
   ret tt) s = Ok (tt, s') ->
  exists casts X id Callee,
    emitted fmt name FnNameStr
      (casts ++ [CallInst id Callee
         (VGlobalVariable (List.length (mod_globals (st_M s)))
          :: FnNameStr :: mk X)]) s s' /\
    cast_result op V T casts X.
Proof.
  intros H.
  inv_bind H as Printf s1 H1.
  inv_bind H as Fmt s2 H2.
  inv_bind H as X s3 H3.
  apply CreateCast_inv in H3 as (HM3 & casts & Hs3 & Hc).
  assert (H' : (Printf <- getOrInsertPrintf ;;
                Fmt <- CreateGlobalStringPtr fmt name ;;
                CreateCall Printf (Fmt :: FnNameStr :: mk X) ;;;
                ret tt) (mkState (st_M s) (st_F s3) (st_B s3)) = Ok (tt, s')).
  { pose proof H1 as H1'. pose proof H2 as H2'.
    apply getOrInsertPrintf_inv in H1' as (HF1 & HB1 & HG1 & HX1 & HN1).
    apply CreateGlobalStringPtr_inv in H2' as (HF2 & HB2 & HFn2 & HG2 & ->).
    unfold bind at 1.
    unfold getOrInsertPrintf, getOrInsertFunction in H1 |- *; simpl.
    destruct (getNamedValue (st_M s) "printf") eqn:E;
      inversion H1; subst; clear H1;
      unfold bind at 1; unfold CreateGlobalStringPtr at 1; simpl;
      unfold CreateGlobalStringPtr in H2; inversion H2; subst; clear H2;
      simpl in *; rewrite <- H; f_equal; destruct s3; simpl in *; subst;
      reflexivity. }
  apply emit_call in H' as (id & Callee & He).
  destruct He as (Hst & _ & HG & HX & HN & Hv); simpl in *.
  apply getOrInsertPrintf_inv in H1 as (HF1 & HB1 & HG1 & HX1 & HN1).
  apply CreateGlobalStringPtr_inv in H2 as (HF2 & HB2 & HFn2 & HG2 & ->).
  assert (Hs : steps s [] s2)
    by (apply steps_nil; [rewrite HF2, HF1 | rewrite HB2, HB1]; auto).
  pose proof (steps_trans _ _ _ _ _ Hs Hs3) as Hs03; simpl in Hs03.
  assert (Hs3' : steps s3 [CallInst id Callee
         (VGlobalVariable (List.length (mod_globals (st_M s)))
          :: FnNameStr :: mk X)] s') by exact Hst.
  pose proof (steps_trans _ _ _ _ _ Hs03 Hs3') as Hall.
  exists casts, X, id, Callee. split; [|exact Hc].
  unfold emitted. split; [exact Hall|]. split.
  { eexists casts, _. split; [reflexivity|].
    destruct (cast_result_shape _ _ _ _ _ Hc) as (Hc1 & Hc2).
    split; auto. split; auto. eexists _, _, _; reflexivity. }
  split; [exact HG|]. split; [exact HX|]. split; [exact HN|].
  destruct Hv as (blk & Hb & Hl).
  exact (steps_valid_back _ _ _ _ Hs03 Hb Hl).
Qed.

(** ** The four-way classification *)

Lemma fpext_or_self V :
  (if isDoubleTy (getType V) then ret V else CreateFPExt V DoubleTy)
  = CreateCast FPExt V DoubleTy.
Proof.
  unfold CreateFPExt, CreateCast. destruct (getType V); reflexivity.
Qed.

Lemma emitted_weaken fmt name FnNameStr casts call s s' :
  emitted fmt name FnNameStr (casts ++ [call]) s s' ->
  exists log, emitted fmt name FnNameStr log s s'.
Proof. eauto. Qed.

(** The emission chosen for an argument of type [getType Arg]. *)
Lemma log_argument_emitted FnNameStr argIndex Arg s s' :
  (if isPointerTy (getType Arg) then emitPrintfArgPtr FnNameStr argIndex Arg
   else if isIntegerTy (getType Arg)
        then emitPrintfArgInt FnNameStr argIndex Arg
   else if isFloatingPointTy (getType Arg)
        then emitPrintfArgFloat FnNameStr argIndex Arg
   else emitPrintfAggregate FnNameStr argIndex) s = Ok (tt, s') ->
  exists name log,
    emitted (arg_format (getType Arg)) name FnNameStr log s s'.
Proof.
  unfold arg_format, classify.
  destruct (isPointerTy (getType Arg)).
  { intros H. unfold emitPrintfArgPtr, CreatePointerCast in H.
    apply (emit_cast_call _ _ _ _ _ _ (fun X => [getInt32 argIndex; X])) in H
      as (casts & X & id & Callee & He & _). eauto. }
  destruct (isIntegerTy (getType Arg)).
  { intros H. unfold emitPrintfArgInt, CreateZExtOrBitCast in H.
    apply (emit_cast_call _ _ _ _ _ _ (fun X => [getInt32 argIndex; X])) in H
      as (casts & X & id & Callee & He & _). eauto. }
  destruct (isFloatingPointTy (getType Arg)).
  { intros H. unfold emitPrintfArgFloat in H. rewrite fpext_or_self in H.
    apply (emit_cast_call _ _ _ _ _ _ (fun X => [getInt32 argIndex; X])) in H
      as (casts & X & id & Callee & He & _). eauto. }
  intros H. unfold emitPrintfAggregate in H.
  apply emit_call in H as (id & Callee & He). eauto.
Qed.

(** The emission chosen for a return instruction. *)
Lemma log_return_emitted FnNameStr RetVal s s' :
  match RetVal with
  | None => emitPrintfRetVoid FnNameStr
  | Some V =>
      if isPointerTy (getType V) then emitPrintfRetPtr FnNameStr V
      else if isIntegerTy (getType V) then emitPrintfRetInt FnNameStr V
      else if isFloatingPointTy (getType V) then emitPrintfRetFloat FnNameStr V
      else
        Printf <- getOrInsertPrintf ;;
        Fmt <- CreateGlobalStringPtr fmt_ret_agg "__logger.fmt.ret.agg" ;;
        CreateCall Printf [Fmt; FnNameStr] ;;;
        ret tt
  end s = Ok (tt, s') ->
  exists name log, emitted (ret_format RetVal) name FnNameStr log s s'.
Proof.
  destruct RetVal as [V|]; simpl.
  2:{ intros H. unfold emitPrintfRetVoid in H.
      apply emit_call in H as (id & Callee & He). eauto. }
  unfold classify.
  destruct (isPointerTy (getType V)).
  { intros H. unfold emitPrintfRetPtr, CreatePointerCast in H.
    apply (emit_cast_call _ _ _ _ _ _ (fun X => [X])) in H
      as (casts & X & id & Callee & He & _). eauto. }
  destruct (isIntegerTy (getType V)).
  { intros H. unfold emitPrintfRetInt, CreateZExtOrBitCast in H.
    apply (emit_cast_call _ _ _ _ _ _ (fun X => [X])) in H
      as (casts & X & id & Callee & He & _). eauto. }
  destruct (isFloatingPointTy (getType V)).
  { intros H. unfold emitPrintfRetFloat in H. rewrite fpext_or_self in H.
    apply (emit_cast_call _ _ _ _ _ _ (fun X => [X])) in H
      as (casts & X & id & Callee & He & _). eauto. }
  intros H. apply emit_call in H as (id & Callee & He). eauto.
Qed.

(** ** The first insertion point *)

Lemma getFirstNonPHI_le b : getFirstNonPHI b <= List.length b.
Proof.
  induction b as [|x r IH]; simpl; [lia|]. destruct (isPHI x); simpl; lia.
Qed.

Lemma getFirstNonPHI_app p x l :
  Forall (fun i => isPHI i = true) p -> isPHI x = false ->
  getFirstNonPHI (p ++ x :: l) = List.length p.
Proof.
  intros Hp Hx; induction Hp as [|y p Hy Hp IH]; simpl.
  - rewrite Hx; reflexivity.
  - rewrite Hy, IH; reflexivity.
Qed.

Lemma getFirstNonPHI_prefix b :
  Forall (fun i => isPHI i = true) (firstn (getFirstNonPHI b) b).
Proof.
  induction b as [|x r IH]; simpl; [constructor|].
  destruct (isPHI x) eqn:E; simpl; [constructor; auto | constructor].
Qed.

Lemma getFirstNonPHI_nth b i :
  nth_error b (getFirstNonPHI b) = Some i -> isPHI i = false.
Proof.
  induction b as [|x r IH]; simpl; [discriminate|].
  destruct (isPHI x) eqn:E; simpl; auto. intros H; inversion H; subst; auto.
Qed.

Lemma firstn_S_nth {A} (l : list A) k x :
  nth_error l k = Some x -> firstn (S k) l = firstn k l ++ [x].
Proof.
  revert k; induction l as [|y r IH]; intros [|k] H; simpl in *;
    try discriminate.
  - inversion H; reflexivity.
  - rewrite <- (IH k H); reflexivity.
Qed.

(** Once something that is neither a PHI node nor a pad stands at the
    first insertion point, the first insertion point is that very place:
    the next builder made from [getFirstInsertionPt] inserts before it. *)
Lemma getFirstInsertionPt_stable e x l :
  getFirstInsertionPt e < List.length e ->
  isPHI x = false -> isEHPad x = false ->
  getFirstInsertionPt (firstn (getFirstInsertionPt e) e ++ x :: l)
  = getFirstInsertionPt e.
Proof.
  unfold getFirstInsertionPt at 1 3 4.
  pose proof (getFirstNonPHI_le e) as Hle.
  pose proof (getFirstNonPHI_prefix e) as Hp.
  destruct (nth_error e (getFirstNonPHI e)) as [i|] eqn:E; [|lia].
  pose proof (getFirstNonPHI_nth _ _ E) as Hi.
  assert (Hk : List.length (firstn (getFirstNonPHI e) e) = getFirstNonPHI e)
    by (rewrite length_firstn; lia).
  destruct (isEHPad i) eqn:Ei; intros Hlt Hx Hex.
  - rewrite (firstn_S_nth _ _ _ E), <- app_assoc; simpl.
    unfold getFirstInsertionPt.
    rewrite (getFirstNonPHI_app _ _ _ Hp Hi), Hk.
    rewrite nth_error_app2 by lia. rewrite Hk, Nat.sub_diag; simpl.
    rewrite Ei; reflexivity.
  - unfold getFirstInsertionPt.
    rewrite (getFirstNonPHI_app _ _ _ Hp Hx), Hk.
    rewrite nth_error_app2 by lia. rewrite Hk, Nat.sub_diag; simpl.
    rewrite Hex; reflexivity.
Qed.

Lemma insert_at_front pt log X e :
  pt <= List.length e ->
  insert_at pt log (insert_at pt X e) = insert_at pt (log ++ X) e.
Proof.
  intros Hle. unfold insert_at.
  assert (Hk : List.length (firstn pt e) = pt) by (rewrite length_firstn; lia).
  rewrite firstn_app, skipn_app, Hk, Nat.sub_diag; simpl.
  rewrite <- Hk at 1. rewrite firstn_all.
  rewrite <- Hk at 2. rewrite skipn_all. simpl.
  rewrite app_nil_r, <- !app_assoc; reflexivity.
Qed.

Lemma IRBuilder_at_inv bb pt s u s' :
  IRBuilder_at bb pt s = Ok (u, s') ->
  st_M s' = st_M s /\ st_F s' = st_F s /\ st_B s' = mkBuilder bb pt /\
  exists blk, nth_error (fn_blocks (st_F s)) bb = Some blk
              /\ pt < List.length blk.
Proof.
  unfold IRBuilder_at.
  destruct (nth_error (fn_blocks (st_F s)) bb) as [blk|]; [|discriminate].
  destruct (pt <? List.length blk)%nat eqn:L; [|discriminate].
  intros H; inversion H; subst; simpl. repeat split; auto.
  exists blk; split; auto. apply Nat.ltb_lt; auto.
Qed.

Lemma IRBuilder_at_entry_inv s u s' :
  IRBuilder_at_entry s = Ok (u, s') ->
  st_M s' = st_M s /\ st_F s' = st_F s /\
  exists e rest,
    fn_blocks (st_F s) = e :: rest /\
    st_B s' = mkBuilder 0 (getFirstInsertionPt e) /\
    getFirstInsertionPt e < List.length e.
Proof.
  unfold IRBuilder_at_entry, getFunction; intros H.
  inv_bind H as F s1 Hm. inversion Hm; subst; clear Hm.
  destruct (fn_blocks (st_F s1)) as [|e rest] eqn:E; [discriminate|].
  apply IRBuilder_at_inv in H as (HM & HF & HB & blk & Hb & Hl).
  rewrite E in Hb; simpl in Hb; inversion Hb; subst.
  repeat split; auto. exists blk, rest; auto.
Qed.

(** ** The module along a run *)

Lemma find_function_app name l l' :
  find_function name (l ++ l') = find_function name l || find_function name l'.
Proof.
  induction l as [|F r IH]; simpl; auto. rewrite IH, orb_assoc; reflexivity.
Qed.

Lemma mod_ext_refl M : mod_ext 0 M M.
Proof.
  split; [exists []; rewrite app_nil_r; auto | left; auto].
Qed.

Lemma mod_ext_trans n m M M1 M2 :
  mod_ext n M M1 -> mod_ext m M1 M2 -> mod_ext (n + m) M M2.
Proof.
  intros [(gs1 & HG1 & HL1) HF1] [(gs2 & HG2 & HL2) HF2]. split.
  { exists (gs1 ++ gs2). rewrite HG2, HG1, <- app_assoc, length_app.
    split; auto. }
  destruct HF1 as [E1|[N1 E1]], HF2 as [E2|[N2 E2]].
  - left; congruence.
  - right; split; [|congruence].
    unfold getNamedValue in *. rewrite E1 in N2.
    destruct (find_function "printf" (mod_functions M)); [discriminate|].
    rewrite HG1 in N2.
    destruct (find_global "printf" 0 (mod_globals M ++ gs1)) eqn:E;
      [discriminate|].
    apply find_global_app_none in E; rewrite E; reflexivity.
  - right; split; [auto | congruence].
  - exfalso. unfold getNamedValue in N2.
    rewrite E1, find_function_app in N2; simpl in N2.
    rewrite orb_true_r in N2. discriminate.
Qed.

Lemma emitted_mod_ext fmt name FnNameStr log s s' :
  emitted fmt name FnNameStr log s s' -> mod_ext 1 (st_M s) (st_M s').
Proof.
  intros (_ & _ & HG & HX & _). split; auto.
  eexists; split; [exact HG | reflexivity].
Qed.

Lemma global_str_ext n M M' g fmt :
  mod_ext n M M' -> global_str M g fmt -> global_str M' g fmt.
Proof.
  intros [(gs & HG & _) _] (name & Hn). exists name.
  rewrite HG, nth_error_app1; auto.
  apply nth_error_Some; congruence.
Qed.

Lemma is_log_ext n M M' fmt FnNameStr log :
  mod_ext n M M' -> is_log M fmt FnNameStr log -> is_log M' fmt FnNameStr log.
Proof.
  intros HE (casts & call & g & -> & Hc & Hl & Hcall & Hg).
  exists casts, call, g; repeat split; auto. eapply global_str_ext; eauto.
Qed.

Lemma emitted_is_log fmt name FnNameStr log s s' :
  emitted fmt name FnNameStr log s s' -> is_log (st_M s') fmt FnNameStr log.
Proof.
  intros (_ & (casts & call & -> & Hc & Hl & Hcall) & HG & _).
  exists casts, call, (List.length (mod_globals (st_M s))).
  repeat split; auto. exists name. rewrite HG.
  rewrite nth_error_app2, Nat.sub_diag; auto.
Qed.

Lemma count_calls_app l l' :
  count_calls (l ++ l') = count_calls l + count_calls l'.
Proof. unfold count_calls; rewrite filter_app, length_app; reflexivity. Qed.

Lemma count_calls_casts casts :
  Forall (fun c => isCast c = true) casts -> count_calls casts = 0.
Proof.
  induction 1 as [|c r Hc _ IH]; auto.
  unfold count_calls in *; simpl. destruct c; try discriminate; auto.
Qed.

Lemma is_log_shape M fmt FnNameStr log :
  is_log M fmt FnNameStr log ->
  count_calls log = 1 /\ Forall call_or_cast log /\
  exists x l, log = x :: l /\ isPHI x = false /\ isEHPad x = false.
Proof.
  intros (casts & call & g & -> & Hc & Hl & (id & Callee & extra & ->) & _).
  split; [|split].
  - rewrite count_calls_app, (count_calls_casts _ Hc); reflexivity.
  - apply Forall_app; split.
    + eapply Forall_impl; [|exact Hc]. intros a Ha; right; auto.
    + repeat constructor.
  - destruct Hc as [|c r Hc _]; simpl.
    + eexists _, _; split; [reflexivity|]; auto.
    + eexists _, _; split; [reflexivity|].
      destruct c; try discriminate; auto.
Qed.

(** ** The logs of the arguments *)

Lemma arg_logs_ext n M M' FnNameStr Args L :
  mod_ext n M M' -> arg_logs M FnNameStr Args L -> arg_logs M' FnNameStr Args L.
Proof.
  intros HE H; induction H; constructor; auto. eapply is_log_ext; eauto.
Qed.

Lemma arg_logs_shape M FnNameStr Args L :
  arg_logs M FnNameStr Args L ->
  count_calls L = List.length Args /\ Forall call_or_cast L.
Proof.
  induction 1 as [|Arg rest log L Hlog _ [IHc IHf]]; simpl.
  - split; [reflexivity | constructor].
  - apply is_log_shape in Hlog as (Hc & Hf & _). split.
    + rewrite count_calls_app, IHc, Hc; lia.
    + apply Forall_app; auto.
Qed.

Lemma logArguments_inv FnNameStr Args :
  forall argIndex s s' e rest x L,
    logArguments FnNameStr Args argIndex s = Ok (tt, s') ->
    fn_blocks (st_F s)
      = insert_at (getFirstInsertionPt e) (x :: L) e :: rest ->
    getFirstInsertionPt e < List.length e ->
    isPHI x = false -> isEHPad x = false ->
    exists LA,
      arg_logs (st_M s') FnNameStr Args LA /\
      st_F s' = set_blocks (st_F s)
                  (insert_at (getFirstInsertionPt e) (LA ++ x :: L) e :: rest) /\
      mod_ext (List.length Args) (st_M s) (st_M s').
Proof.
  induction Args as [|Arg Args IH]; intros argIndex s s' e rest x L H Hb Hlt Hx Hex.
  - simpl in H. inversion H; subst. exists []. split; [constructor|].
    split; [|apply mod_ext_refl]. simpl. rewrite <- Hb, set_blocks_same. auto.
  - simpl in H.
    inv_bind H as u1 s1 H1.
    apply IRBuilder_at_entry_inv in H1
      as (HM1 & HF1 & e1 & rest1 & Hb1 & HB1 & _).
    rewrite Hb in Hb1. inversion Hb1; subst e1 rest1; clear Hb1.
    assert (Hip : getFirstInsertionPt
                    (insert_at (getFirstInsertionPt e) (x :: L) e)
                  = getFirstInsertionPt e).
    { unfold insert_at. simpl.
      apply getFirstInsertionPt_stable; auto. }
    rewrite Hip in HB1.
    inv_bind H as u2 s2 H2. destruct u2.
    apply log_argument_emitted in H2 as (name & log & He).
    pose proof (emitted_is_log _ _ _ _ _ _ He) as Hlog.
    pose proof (emitted_mod_ext _ _ _ _ _ _ He) as Hext.
    destruct He as ((HF2 & HB2) & _).
    rewrite HF1, HB1, Hb in HF2. unfold splice in HF2; simpl in HF2.
    rewrite insert_at_front in HF2 by lia.
    destruct (is_log_shape _ _ _ _ Hlog) as (_ & _ & x' & l' & El & Hx' & Hex').
    rewrite El in HF2. simpl in HF2.
    apply IH with (e := e) (rest := rest) (x := x') (L := l' ++ x :: L) in H;
      auto.
    2:{ rewrite HF2; reflexivity. }
    destruct H as (LA & HLA & HF & HE).
    exists (LA ++ log). split; [|split].
    + constructor; auto. eapply is_log_ext; eauto.
    + rewrite HF, HF2, set_blocks_set_blocks, El.
      rewrite <- app_assoc; reflexivity.
    + rewrite HM1 in Hext.
      exact (mod_ext_trans _ _ _ _ _ Hext HE).
Qed.

(** ** The logs of the returns *)

Lemma getTerminator_inv blk T :
  getTerminator blk = Some T ->
  exists init, blk = init ++ [T] /\ isTerminator T = true.
Proof.
  unfold getTerminator. destruct (rev blk) as [|x r] eqn:E; [discriminate|].
  destruct (isTerminator x) eqn:Et; [|discriminate].
  intros H; inversion H; subst. exists (rev r). split; auto.
  rewrite <- (rev_involutive blk), E; reflexivity.
Qed.

Lemma getTerminator_app init T :
  getTerminator (init ++ [T]) = if isTerminator T then Some T else None.
Proof. unfold getTerminator. rewrite rev_app_distr; reflexivity. Qed.

Lemma insert_at_end init log T :
  insert_at (List.length (init ++ [T]) - 1) log (init ++ [T])
  = init ++ log ++ [T].
Proof.
  unfold insert_at. rewrite length_app; simpl.
  replace (List.length init + 1 - 1) with (List.length init) by lia.
  rewrite firstn_app, skipn_app, firstn_all, skipn_all, Nat.sub_diag; simpl.
  rewrite app_nil_r; reflexivity.
Qed.

Lemma logReturn_inv FnNameStr RI s s' :
  logReturn FnNameStr RI s = Ok (tt, s') ->
  exists init RetVal log,
    nth_error (fn_blocks (st_F s)) RI = Some (init ++ [ReturnInst RetVal]) /\
    is_log (st_M s') (ret_format RetVal) FnNameStr log /\
    st_F s' = set_blocks (st_F s)
                (update_nth RI (fun _ => init ++ log ++ [ReturnInst RetVal])
                   (fn_blocks (st_F s))) /\
    mod_ext 1 (st_M s) (st_M s').
Proof.
  unfold logReturn, getFunction; intros H.
  inv_bind H as F s0 H0. inversion H0; subst; clear H0.
  destruct (nth_error (fn_blocks (st_F s0)) RI) as [blk|] eqn:Eb;
    [|discriminate].
  inv_bind H as u1 s1 H1.
  apply IRBuilder_at_inv in H1 as (HM1 & HF1 & HB1 & _).
  destruct (getTerminator blk) as [T|] eqn:ET; [|discriminate].
  destruct T as [| | | |RetVal| | |]; try discriminate.
  apply getTerminator_inv in ET as (init & -> & _).
  assert (He : exists name log,
             emitted (ret_format RetVal) name FnNameStr log s1 s').
  { apply log_return_emitted. destruct RetVal; exact H. }
  destruct He as (name & log & He).
  exists init, RetVal, log. split; auto.
  pose proof (emitted_is_log _ _ _ _ _ _ He) as Hlog.
  pose proof (emitted_mod_ext _ _ _ _ _ _ He) as Hext.
  destruct He as ((HF2 & HB2) & _).
  split; auto. split; [|rewrite <- HM1; auto].
  rewrite HF2, HF1, HB1. f_equal. unfold splice; simpl.
  apply update_nth_ext. intros b Hb. rewrite Eb in Hb; inversion Hb; subst.
  apply insert_at_end.
Qed.

Lemma logReturns_inv FnNameStr Returns :
  forall s s',
    NoDup Returns ->
    logReturns FnNameStr Returns s = Ok (tt, s') ->
    st_F s' = set_blocks (st_F s) (fn_blocks (st_F s')) /\
    List.length (fn_blocks (st_F s')) = List.length (fn_blocks (st_F s)) /\
    mod_ext (List.length Returns) (st_M s) (st_M s') /\
    (forall i, ~ In i Returns ->
               nth_error (fn_blocks (st_F s')) i
               = nth_error (fn_blocks (st_F s)) i) /\
    (forall i, In i Returns ->
       exists init RetVal log,
         nth_error (fn_blocks (st_F s)) i = Some (init ++ [ReturnInst RetVal]) /\
         is_log (st_M s') (ret_format RetVal) FnNameStr log /\
         nth_error (fn_blocks (st_F s')) i
         = Some (init ++ log ++ [ReturnInst RetVal])).
Proof.
  induction Returns as [|RI Returns IH]; intros s s' Hnd H.
  - simpl in H; inversion H; subst.
    split; [rewrite set_blocks_same; auto|]. split; auto.
    split; [apply mod_ext_refl|]. split; auto. intros i [].
  - simpl in H. inversion Hnd as [|? ? Hni Hnd']; subst.
    inv_bind H as u1 s1 H1. destruct u1.
    apply logReturn_inv in H1 as (init & RetVal & log & Hb & Hlog & HF1 & HE1).
    apply IH in H as (HF & HL & HE & Hout & Hin); auto.
    assert (Hbs : fn_blocks (st_F s1)
                  = update_nth RI (fun _ => init ++ log ++ [ReturnInst RetVal])
                      (fn_blocks (st_F s)))
      by (rewrite HF1; reflexivity).
    split; [rewrite HF, HF1; reflexivity|].
    split; [rewrite HL, Hbs, update_nth_length; reflexivity|].
    split; [exact (mod_ext_trans _ _ _ _ _ HE1 HE)|]. split.
    + intros i Hi. rewrite Hout by (intros Hc; apply Hi; right; auto).
      rewrite Hbs. apply nth_error_update_nth_neq.
      intros ->; apply Hi; left; auto.
    + intros i [->|Hi].
      * exists init, RetVal, log. split; auto.
        split; [eapply is_log_ext; eauto|].
        rewrite Hout by auto. rewrite Hbs, nth_error_update_nth_eq, Hb.
        reflexivity.
      * destruct (Hin i Hi) as (init' & RetVal' & log' & Hb' & Hlog' & Hn').
        exists init', RetVal', log'. split; auto.
        rewrite <- Hb', Hbs. symmetry. apply nth_error_update_nth_neq.
        intros ->; auto.
Qed.

Lemma collectReturns_inv bs :
  forall k Returns,
    collectReturns bs k = Ok Returns ->
    NoDup Returns /\
    List.length Returns = num_returns bs /\
    (forall i, In i Returns ->
       k <= i /\ exists blk, nth_error bs (i - k) = Some blk
                             /\ is_return_block blk = true) /\
    (forall j blk, nth_error bs j = Some blk -> is_return_block blk = true ->
                   In (k + j) Returns).
Proof.
  induction bs as [|b bs IH]; intros k Returns H; simpl in H.
  - inversion H; subst. split; [constructor|]. split; [reflexivity|].
    split; [intros i []|]. intros [|j] blk Hn; discriminate.
  - destruct (getTerminator b) as [T|] eqn:ET; [|discriminate].
    destruct (collectReturns bs (S k)) as [R'|] eqn:ER; [|discriminate].
    destruct (IH _ _ ER) as (Hnd & Hlen & Hin & Hall).
    assert (Hge : forall i, In i R' -> S k <= i)
      by (intros i Hi; apply Hin; auto).
    assert (Hin' : forall i, In i R' ->
              k <= i /\ exists blk, nth_error (b :: bs) (i - k) = Some blk
                                    /\ is_return_block blk = true).
    { intros i Hi. destruct (Hin i Hi) as (Hle & blk & Hn & Hr).
      split; [lia|]. exists blk; split; auto.
      replace (i - k) with (S (i - S k)) by lia. exact Hn. }
    assert (Hall' : forall j blk, nth_error (b :: bs) (S j) = Some blk ->
              is_return_block blk = true -> In (k + S j) R').
    { intros j blk Hn Hr. replace (k + S j) with (S k + j) by lia. eauto. }
    unfold num_returns in *; simpl. unfold is_return_block at 1. rewrite ET.
    destruct T; inversion H; subst; clear H;
      try (split; [auto|]; split; [auto|]; split; [auto|];
           intros [|j] blk Hn Hr;
           [simpl in Hn; inversion Hn; subst;
            unfold is_return_block in Hr; rewrite ET in Hr; discriminate
           | eauto]).
    split; [constructor; auto; intros Hc; apply Hge in Hc; lia|].
    split; [simpl; auto|]. split.
    + intros i [<-|Hi]; auto. split; auto. exists b.
      rewrite Nat.sub_diag; simpl; split; auto.
      unfold is_return_block; rewrite ET; auto.
    + intros [|j] blk Hn Hr; [left; lia | right; eauto].
Qed.

Lemma Forall2_nth {A B} (R : A -> B -> Prop) (l : list A) (l' : list B) :
  List.length l = List.length l' ->
  (forall i a b, nth_error l i = Some a -> nth_error l' i = Some b -> R a b) ->
  Forall2 R l l'.
Proof.
  revert l'; induction l as [|a l IH]; intros [|b l'] Hlen H;
    try discriminate; constructor.
  - apply (H 0); reflexivity.
  - apply IH; [simpl in Hlen; lia|]. intros i; apply (H (S i)).
Qed.

Lemma return_phase FnNameStr s Returns s1 s' :
  getReturns s = Ok (Returns, s1) ->
  logReturns FnNameStr Returns s1 = Ok (tt, s') ->
  st_F s' = set_blocks (st_F s) (fn_blocks (st_F s')) /\
  Forall2 (ret_logged (st_M s') FnNameStr)
          (fn_blocks (st_F s)) (fn_blocks (st_F s')) /\
  mod_ext (num_returns (fn_blocks (st_F s))) (st_M s) (st_M s').
Proof.
  unfold getReturns. intros HR HL.
  destruct (collectReturns (fn_blocks (st_F s)) 0) as [R|] eqn:EC;
    [|discriminate].
  inversion HR; subst; clear HR.
  apply collectReturns_inv in EC as (Hnd & Hlen & Hin & Hall).
  apply logReturns_inv in HL as (HF & HLn & HE & Hout & Hlog); auto.
  split; auto. split; [|rewrite <- Hlen; auto].
  apply Forall2_nth; auto.
  intros i b b' Hb Hb'. unfold ret_logged.
  destruct (is_return_block b) eqn:Er.
  - specialize (Hall i b Hb Er); simpl in Hall.
    destruct (Hlog i Hall) as (init & RetVal & log & Hn & Hl & Hn').
    rewrite Hb in Hn; inversion Hn; subst b.
    rewrite Hb' in Hn'; inversion Hn'; subst b'.
    rewrite getTerminator_app; simpl. eauto.
  - assert (Hni : ~ In i Returns).
    { intros Hi. destruct (Hin i Hi) as (_ & blk & Hn & Hr).
      rewrite Nat.sub_0_r, Hb in Hn; inversion Hn; subst. congruence. }
    rewrite (Hout i Hni), Hb in Hb'. inversion Hb'; subst.
    unfold is_return_block in Er.
    destruct (getTerminator b') as [[]|]; auto; discriminate.
Qed.

Lemma getTerminator_insert_at pt L e :
  pt < List.length e -> getTerminator (insert_at pt L e) = getTerminator e.
Proof.
  intros Hlt. unfold getTerminator, insert_at.
  replace (rev e) with (rev (skipn pt e) ++ rev (firstn pt e))
    by (rewrite <- rev_app_distr, firstn_skipn; reflexivity).
  rewrite !rev_app_distr.
  destruct (rev (skipn pt e)) as [|x r] eqn:E; [|reflexivity].
  exfalso. apply (f_equal (@List.length _)) in E.
  rewrite length_rev, length_skipn in E; simpl in E. lia.
Qed.

Lemma args_from_length n Ts : List.length (args_from n Ts) = List.length Ts.
Proof. revert n; induction Ts; simpl; auto. Qed.

Lemma num_returns_cons b l :
  num_returns (b :: l)
  = (if is_return_block b then 1 else 0) + num_returns l.
Proof. unfold num_returns; simpl. destruct (is_return_block b); reflexivity. Qed.

Lemma ret_logged_cases M FnNameStr b b' :
  ret_logged M FnNameStr b b' ->
  (is_return_block b = true /\
   exists RetVal init log,
     b = init ++ [ReturnInst RetVal] /\
     is_log M (ret_format RetVal) FnNameStr log /\
     b' = init ++ log ++ [ReturnInst RetVal]) \/
  (is_return_block b = false /\ b' = b).
Proof.
  unfold ret_logged, is_return_block.
  destruct (getTerminator b) as [T|]; [destruct T|]; auto.
  intros (init & log & H); left; split; eauto.
Qed.

(** ** The shape of an instrumented function *)

(** Everything a successful run on a function that is not skipped does:
    at the first insertion point [ip] of the entry block stand the logs of
    the arguments, the last argument first, and after them the entry log;
    then every block that ends in a return has its log before the
    return. *)
Lemma run_structure M F PA M' F' :
  isSkippableFunction F = false ->
  run M F = Ok (PA, (M', F')) ->
  exists e rest enter LA,
    fn_blocks F = e :: rest /\
    getFirstInsertionPt e < List.length e /\
    global_str M' (List.length (mod_globals M)) (fn_name F) /\
    is_log M' fmt_enter (VGlobalVariable (List.length (mod_globals M))) [enter] /\
    arg_logs M' (VGlobalVariable (List.length (mod_globals M))) (args F) LA /\
    Forall2 (ret_logged M' (VGlobalVariable (List.length (mod_globals M))))
      (insert_at (getFirstInsertionPt e) (LA ++ [enter]) e :: rest)
      (fn_blocks F') /\
    F' = set_blocks F (fn_blocks F') /\
    PA = PA_none /\
    mod_ext (2 + List.length (fn_params F) + num_returns (fn_blocks F)) M M' /\
    (exists id Callee,
        enter = CallInst id Callee
                  [VGlobalVariable (List.length (mod_globals M) + 1);
                   VGlobalVariable (List.length (mod_globals M))]).
Proof.
  intros Hskip H. unfold run in H. rewrite Hskip in H.
  destruct (instrument (mkState M F (mkBuilder 0 0))) as [[PA0 sf]|] eqn:EI;
    [|discriminate].
  inversion H; subst PA0 M' F'; clear H.
  unfold instrument in EI.
  inv_bind EI as u1 s1 H1.
  apply IRBuilder_at_entry_inv in H1 as (HM1 & HF1 & e & rest & Hb & HB1 & Hlt).
  simpl in HM1, HF1, Hb.
  inv_bind EI as FnNameStr s2 H2.
  unfold getFunctionNameGlobal, getFunction in H2.
  inv_bind H2 as F0 s1' H2'. inversion H2'; subst F0 s1'; clear H2'.
  apply CreateGlobalStringPtr_inv in H2 as (HF2 & HB2 & HFn2 & HG2 & ->).
  rewrite HM1 in *.
  assert (HE2 : mod_ext 1 M (st_M s2)).
  { split; [eexists; split; [exact HG2 | reflexivity] | left; auto]. }
  assert (Hname : global_str (st_M s2) (List.length (mod_globals M)) (fn_name F)).
  { eexists. rewrite HG2, nth_error_app2 by lia.
    rewrite Nat.sub_diag; simpl. rewrite HF1; reflexivity. }
  inv_bind EI as u3 s3 H3. destruct u3.
  unfold emitPrintfEnter in H3.
  apply emit_call in H3 as (id & Callee & He).
  pose proof (emitted_is_log _ _ _ _ _ _ He) as Hlog.
  pose proof (emitted_mod_ext _ _ _ _ _ _ He) as HE3.
  destruct He as ((HF3 & HB3) & _).
  rewrite HF2, HB2, HF1, HB1, Hb in HF3. unfold splice in HF3; simpl in HF3.
  set (enter := CallInst id Callee
                  [VGlobalVariable (List.length (mod_globals (st_M s2)));
                   VGlobalVariable (List.length (mod_globals M))]) in *.
  inv_bind EI as F3 s3' H4. inversion H4; subst F3 s3'; clear H4.
  inv_bind EI as u5 s5 H5. destruct u5.
  apply logArguments_inv with (e := e) (rest := rest) (x := enter) (L := [])
    in H5; auto.
  2:{ rewrite HF3; reflexivity. }
  destruct H5 as (LA & HLA & HF5 & HE5).
  inv_bind EI as Returns s6 H6.
  inv_bind EI as u7 s7 H7. destruct u7.
  inversion EI; subst PA sf; clear EI.
  destruct (return_phase _ _ _ _ _ H6 H7) as (HF7 & HFa & HE7).
  assert (Hb5 : fn_blocks (st_F s5)
                = insert_at (getFirstInsertionPt e) (LA ++ [enter]) e :: rest)
    by (rewrite HF5; reflexivity).
  assert (Hargs : List.length (args (st_F s3)) = List.length (fn_params F)).
  { unfold args. rewrite args_from_length, HF3; reflexivity. }
  assert (Hret : num_returns (fn_blocks (st_F s5)) = num_returns (fn_blocks F)).
  { rewrite Hb5, Hb. unfold num_returns; simpl.
    assert (Hr : is_return_block
                   (insert_at (getFirstInsertionPt e) (LA ++ [enter]) e)
                 = is_return_block e)
      by (unfold is_return_block; rewrite getTerminator_insert_at; auto).
    rewrite Hr. destruct (is_return_block e); reflexivity. }
  rewrite Hargs in HE5. rewrite Hret in HE7.
  pose proof (mod_ext_trans _ _ _ _ _ HE5 HE7) as HE57.
  pose proof (mod_ext_trans _ _ _ _ _ HE3 HE57) as HE37.
  pose proof (mod_ext_trans _ _ _ _ _ HE2 HE37) as HEall.
  exists e, rest, enter, LA.
  split; auto. split; auto.
  split; [eapply global_str_ext; [exact HE37 | exact Hname]|].
  split; [eapply is_log_ext; [exact HE57 | ]|].
  { unfold enter. exact Hlog. }
  split.
  { eapply arg_logs_ext; [exact HE7|].
    replace (args F) with (args (st_F s3)); auto.
    unfold args; rewrite HF3; reflexivity. }
  split; [rewrite <- Hb5; exact HFa|].
  split; [rewrite HF7, HF5, HF3; reflexivity|].
  split; auto. split; auto.
  exists id, Callee. unfold enter. rewrite HG2, length_app. reflexivity.
Qed.

(** Where the entry log ends up: in the entry block of the function
    the run returns, the logs of the arguments, the last argument first,
    stand at the first insertion point and the entry log follows them. *)
Lemma entry_layout M F PA M' F' :
  isSkippableFunction F = false ->
  run M F = Ok (PA, (M', F')) ->
  exists e rest enter LA tail rest',
    fn_blocks F = e :: rest /\
    fn_blocks F'
    = (firstn (getFirstInsertionPt e) e ++ LA ++ enter :: tail) :: rest' /\
    is_log M' fmt_enter (VGlobalVariable (List.length (mod_globals M))) [enter] /\
    arg_logs M' (VGlobalVariable (List.length (mod_globals M))) (args F) LA /\
    count_calls LA = List.length (fn_params F).
Proof.
  intros Hs H.
  destruct (run_structure _ _ _ _ _ Hs H)
    as (e & rest & enter & LA & Hb & Hlt & _ & Henter & HLA & HF2 & _).
  destruct (arg_logs_shape _ _ _ _ HLA) as (HcA & _).
  assert (Hargs : List.length (args F) = List.length (fn_params F))
    by apply args_from_length.
  inversion HF2 as [|b1 b' l1 rest' Hhead Htail]; subst.
  destruct (ret_logged_cases _ _ _ _ Hhead)
    as [(_ & RetVal & init & log & E & _ & ->)|(_ & ->)].
  - assert (Hne : skipn (getFirstInsertionPt e) e <> []).
    { intros Hnil. apply (f_equal (@List.length _)) in Hnil.
      rewrite length_skipn in Hnil; simpl in Hnil. lia. }
    destruct (exists_last Hne) as (q & t & Eq).
    unfold insert_at in E. rewrite Eq in E.
    replace (firstn (getFirstInsertionPt e) e ++ (LA ++ [enter]) ++ q ++ [t])
      with ((firstn (getFirstInsertionPt e) e ++ LA ++ enter :: q) ++ [t]) in E
      by (rewrite <- !app_assoc; reflexivity).
    apply app_inj_tail in E as (<- & _).
    exists e, rest, enter, LA, (q ++ log ++ [ReturnInst RetVal]), rest'.
    split; auto. split; [|split; auto; split; auto; lia].
    f_equal. rewrite <- !app_assoc; reflexivity.
  - exists e, rest, enter, LA, (skipn (getFirstInsertionPt e) e), rest'.
    split; auto. split; [|split; auto; split; auto; lia].
    f_equal. unfold insert_at. rewrite <- !app_assoc; reflexivity.
Qed.

(** ** Runs that complete *)

Lemma bind_ok {A B} (m : Pass A) (k : A -> Pass B) s a s1 :
  m s = Ok (a, s1) -> bind m k s = k a s1.
Proof. unfold bind; intros ->; reflexivity. Qed.

Lemma valid_builder_same s s' :
  st_F s' = st_F s -> st_B s' = st_B s -> valid_builder s -> valid_builder s'.
Proof. unfold valid_builder; intros -> ->; auto. Qed.

Lemma getOrInsertPrintf_succeeds s :
  exists v s', getOrInsertPrintf s = Ok (v, s') /\
               st_F s' = st_F s /\ st_B s' = st_B s.
Proof.
  unfold getOrInsertPrintf, getOrInsertFunction.
  destruct (getNamedValue (st_M s) "printf"); eexists _, _; split;
    try reflexivity; auto.
Qed.

Lemma Insert_succeeds Inst s :
  valid_builder s ->
  exists s', Insert Inst s = Ok (tt, s') /\ valid_builder s'.
Proof.
  intros (blk & Hb & Hl). unfold Insert. rewrite Hb.
  apply Nat.leb_le in Hl as Hl'. rewrite Hl'.
  eexists; split; [reflexivity|].
  exists (firstn (InsertPt (st_B s)) blk ++ Inst :: skipn (InsertPt (st_B s)) blk).
  simpl. rewrite nth_error_update_nth_eq, Hb; simpl. split; auto.
  rewrite length_app; simpl. rewrite length_firstn, length_skipn. lia.
Qed.

Lemma CreateCall_succeeds Callee Args s :
  valid_builder s ->
  exists v s', CreateCall Callee Args s = Ok (v, s') /\ valid_builder s'.
Proof.
  intros Hv. unfold CreateCall, getFunction.
  destruct (Insert_succeeds (CallInst (fresh_id (st_F s)) Callee Args) s Hv)
    as (s' & HI & Hv').
  eexists _, s'. split; auto.
  unfold bind at 1. unfold bind at 1. rewrite HI. reflexivity.
Qed.

Lemma CreateCast_succeeds op V T s :
  valid_builder s ->
  cast_ok op V T = true ->
  exists v s', CreateCast op V T s = Ok (v, s') /\ valid_builder s'.
Proof.
  intros Hv Hc. unfold CreateCast. unfold cast_ok in Hc.
  destruct (Type_eqb (getType V) T); [eexists _, _; split; [reflexivity|auto]|].
  simpl in Hc.
  destruct (FoldCast op V T) as [[Folded|]|e]; [| |discriminate].
  { eexists _, _; split; [reflexivity|auto]. }
  rewrite Hc; simpl.
  destruct (Insert_succeeds (CastInst (fresh_id (st_F s)) op V T) s Hv)
    as (s' & HI & Hv').
  eexists _, s'. split; auto.
  unfold getFunction. unfold bind at 1. unfold bind at 1. rewrite HI.
  reflexivity.
Qed.

Lemma emit_call_succeeds fmt name FnNameStr extra s :
  valid_builder s ->
  exists s',
    (Printf <- getOrInsertPrintf ;;
     Fmt <- CreateGlobalStringPtr fmt name ;;
     CreateCall Printf (Fmt :: FnNameStr :: extra) ;;;
     ret tt) s = Ok (tt, s').
Proof.
  intros Hv.
  destruct (getOrInsertPrintf_succeeds s) as (Printf & s1 & H1 & HF1 & HB1).
  rewrite (bind_ok _ _ _ _ _ H1).
  unfold bind at 1. unfold CreateGlobalStringPtr at 1.
  set (s2 := mkState _ (st_F s1) (st_B s1)).
  assert (Hv2 : valid_builder s2)
    by (apply (valid_builder_same s); auto).
  destruct (CreateCall_succeeds Printf
              (VGlobalVariable (List.length (mod_globals (st_M s1)))
               :: FnNameStr :: extra) s2 Hv2) as (v & s4 & H4 & Hv4).
  rewrite (bind_ok _ _ _ _ _ H4). exists s4; reflexivity.
Qed.

(** An emission helper completes when the builder points into a block
    and the cast it asks for is a valid one. *)
Lemma emit_cast_call_succeeds fmt name FnNameStr op V T
      (mk : Value -> list Value) s :
  valid_builder s ->
  cast_ok op V T = true ->
  exists s',
    (Printf <- getOrInsertPrintf ;;
     Fmt <- CreateGlobalStringPtr fmt name ;;
     X <- CreateCast op V T ;;
     CreateCall Printf (Fmt :: FnNameStr :: mk X) ;;;
     ret tt) s = Ok (tt, s').
Proof.
  intros Hv Hc.
  destruct (getOrInsertPrintf_succeeds s) as (Printf & s1 & H1 & HF1 & HB1).
  rewrite (bind_ok _ _ _ _ _ H1).
  unfold bind at 1. unfold CreateGlobalStringPtr at 1.
  set (s2 := mkState _ (st_F s1) (st_B s1)).
  assert (Hv2 : valid_builder s2)
    by (apply (valid_builder_same s); auto).
  destruct (CreateCast_succeeds op V T s2 Hv2 Hc) as (X & s3 & H3 & Hv3).
  rewrite (bind_ok _ _ _ _ _ H3).
  destruct (CreateCall_succeeds Printf
              (VGlobalVariable (List.length (mod_globals (st_M s1)))
               :: FnNameStr :: mk X) s3 Hv3) as (v & s4 & H4 & Hv4).
  rewrite (bind_ok _ _ _ _ _ H4). exists s4; reflexivity.
Qed.

(** The parameters and returned values of the types of [castable] can
    be widened, whatever value they are; so can constants the folder
    computes whatever their width. *)
Lemma castable_widens V : castable (getType V) = true -> widens V = true.
Proof.
  unfold widens, widening, castable, cast_ok, FoldCast, classify,
    ptr_cast_op, int_cast_op.
  destruct V as [k T|id T|n v|T id|op C T|g|name]; simpl;
    try (destruct T as [| | | | | | | | | | |w|a| | |]; simpl;
         try reflexivity; try discriminate;
         try (intros H; apply N.leb_le in H;
              destruct (N.eqb w 64) eqn:E; simpl; [reflexivity|];
              apply N.eqb_neq in E; try reflexivity; apply N.ltb_lt; lia);
         try (intros _; destruct (N.eqb a 0) eqn:E; simpl; rewrite ?E;
              reflexivity)).
  - intros H; apply N.leb_le in H.
    destruct (N.eqb n 64) eqn:E; simpl; [reflexivity|].
    assert (E' : (64 <? n)%N = false) by (apply N.ltb_ge; exact H).
    rewrite E', andb_false_r. reflexivity.
  - reflexivity.
  - reflexivity.
Qed.

Lemma widens_argument k T : widens (VArgument k T) = castable T.
Proof.
  unfold widens, widening, castable, cast_ok, FoldCast, classify,
    ptr_cast_op, int_cast_op.
  destruct T as [| | | | | | | | | | |w|a| | |]; simpl; try reflexivity.
  - destruct (N.eqb w 64) eqn:E; simpl.
    + apply N.eqb_eq in E; subst; reflexivity.
    + apply N.eqb_neq in E.
      destruct (N.ltb_spec w 64), (N.leb_spec w 64); try reflexivity; lia.
  - destruct (N.eqb a 0) eqn:E; simpl; rewrite ?E; reflexivity.
Qed.

Lemma return_castable_widens b :
  return_castable b = true -> return_widens b = true.
Proof.
  unfold return_castable, return_widens.
  destruct (getTerminator b) as [[| | | |[V|]| | |]|]; auto.
  apply castable_widens.
Qed.

Lemma log_argument_succeeds FnNameStr argIndex Arg s :
  valid_builder s -> widens Arg = true ->
  exists s',
    (if isPointerTy (getType Arg) then emitPrintfArgPtr FnNameStr argIndex Arg
     else if isIntegerTy (getType Arg)
          then emitPrintfArgInt FnNameStr argIndex Arg
     else if isFloatingPointTy (getType Arg)
          then emitPrintfArgFloat FnNameStr argIndex Arg
     else emitPrintfAggregate FnNameStr argIndex) s = Ok (tt, s').
Proof.
  intros Hv Hc. unfold widens, widening, classify in Hc.
  destruct (isPointerTy (getType Arg)) eqn:Ep.
  { unfold emitPrintfArgPtr, CreatePointerCast.
    apply (emit_cast_call_succeeds _ _ _ _ _ _
             (fun X => [getInt32 argIndex; X])); auto. }
  destruct (isIntegerTy (getType Arg)) eqn:Ei.
  { unfold emitPrintfArgInt, CreateZExtOrBitCast.
    apply (emit_cast_call_succeeds _ _ _ _ _ _
             (fun X => [getInt32 argIndex; X])); auto. }
  destruct (isFloatingPointTy (getType Arg)) eqn:Ef.
  { unfold emitPrintfArgFloat. rewrite fpext_or_self.
    apply (emit_cast_call_succeeds _ _ _ _ _ _
             (fun X => [getInt32 argIndex; X])); auto. }
  unfold emitPrintfAggregate. apply emit_call_succeeds; auto.
Qed.

Lemma log_return_succeeds FnNameStr RetVal s :
  valid_builder s ->
  match RetVal with Some V => widens V = true | None => True end ->
  exists s',
    match RetVal with
    | None => emitPrintfRetVoid FnNameStr
    | Some V =>
        if isPointerTy (getType V) then emitPrintfRetPtr FnNameStr V
        else if isIntegerTy (getType V) then emitPrintfRetInt FnNameStr V
        else if isFloatingPointTy (getType V) then emitPrintfRetFloat FnNameStr V
        else
          Printf <- getOrInsertPrintf ;;
          Fmt <- CreateGlobalStringPtr fmt_ret_agg "__logger.fmt.ret.agg" ;;
          CreateCall Printf [Fmt; FnNameStr] ;;;
          ret tt
    end s = Ok (tt, s').
Proof.
  intros Hv Hc. destruct RetVal as [V|].
  2:{ unfold emitPrintfRetVoid. apply emit_call_succeeds; auto. }
  unfold widens, widening, classify in Hc.
  destruct (isPointerTy (getType V)) eqn:Ep.
  { unfold emitPrintfRetPtr, CreatePointerCast.
    apply (emit_cast_call_succeeds _ _ _ _ _ _ (fun X => [X])); auto. }
  destruct (isIntegerTy (getType V)) eqn:Ei.
  { unfold emitPrintfRetInt, CreateZExtOrBitCast.
    apply (emit_cast_call_succeeds _ _ _ _ _ _ (fun X => [X])); auto. }
  destruct (isFloatingPointTy (getType V)) eqn:Ef.
  { unfold emitPrintfRetFloat. rewrite fpext_or_self.
    apply (emit_cast_call_succeeds _ _ _ _ _ _ (fun X => [X])); auto. }
  apply emit_call_succeeds; auto.
Qed.

Lemma getFirstInsertionPt_PHI a l :
  isPHI a = true -> getFirstInsertionPt (a :: l) = S (getFirstInsertionPt l).
Proof.
  intros Ha. unfold getFirstInsertionPt. simpl. rewrite Ha. simpl.
  destruct (nth_error l (getFirstNonPHI l)) as [i|]; auto.
  destruct (isEHPad i); auto.
Qed.

(** In a block that ends in a terminator the first insertion point is
    an instruction of the block. *)
Lemma getFirstInsertionPt_lt e :
  has_terminator e = true -> getFirstInsertionPt e < List.length e.
Proof.
  unfold has_terminator. destruct (getTerminator e) as [T|] eqn:ET;
    [|discriminate]. intros _.
  apply getTerminator_inv in ET as (init & -> & HT).
  induction init as [|a r IH]; simpl.
  - unfold getFirstInsertionPt; simpl.
    destruct T; try discriminate; simpl; lia.
  - destruct (isPHI a) eqn:Ea.
    + rewrite (getFirstInsertionPt_PHI _ _ Ea). simpl in IH. lia.
    + unfold getFirstInsertionPt; simpl. rewrite Ea; simpl.
      rewrite length_app; simpl. destruct (isEHPad a); lia.
Qed.

Lemma IRBuilder_at_entry_succeeds s e rest :
  fn_blocks (st_F s) = e :: rest ->
  getFirstInsertionPt e < List.length e ->
  IRBuilder_at_entry s
  = Ok (tt, mkState (st_M s) (st_F s) (mkBuilder 0 (getFirstInsertionPt e))).
Proof.
  intros Hb Hlt. unfold IRBuilder_at_entry, getFunction.
  unfold bind at 1. rewrite Hb. unfold IRBuilder_at. rewrite Hb; simpl.
  apply Nat.ltb_lt in Hlt. rewrite Hlt. reflexivity.
Qed.

(** One turn of the loop over the arguments: the log goes in at the
    first insertion point, before what earlier turns put there. *)
Lemma arg_iteration_inv FnNameStr argIndex Arg s u1 s1 s2 e rest x L :
  fn_blocks (st_F s) = insert_at (getFirstInsertionPt e) (x :: L) e :: rest ->
  getFirstInsertionPt e < List.length e ->
  isPHI x = false -> isEHPad x = false ->
  IRBuilder_at_entry s = Ok (u1, s1) ->
  (if isPointerTy (getType Arg) then emitPrintfArgPtr FnNameStr argIndex Arg
   else if isIntegerTy (getType Arg)
        then emitPrintfArgInt FnNameStr argIndex Arg
   else if isFloatingPointTy (getType Arg)
        then emitPrintfArgFloat FnNameStr argIndex Arg
   else emitPrintfAggregate FnNameStr argIndex) s1 = Ok (tt, s2) ->
  exists log x' l',
    log = x' :: l' /\ isPHI x' = false /\ isEHPad x' = false /\
    is_log (st_M s2) (arg_format (getType Arg)) FnNameStr log /\
    st_F s2 = set_blocks (st_F s)
                (insert_at (getFirstInsertionPt e) (log ++ x :: L) e :: rest) /\
    mod_ext 1 (st_M s) (st_M s2) /\
    valid_builder s1.
Proof.
  intros Hb Hlt Hx Hex H1 H2.
  apply IRBuilder_at_entry_inv in H1
    as (HM1 & HF1 & e1 & rest1 & Hb1 & HB1 & Hlt1).
  rewrite Hb in Hb1. inversion Hb1; subst e1 rest1; clear Hb1.
  assert (Hip : getFirstInsertionPt
                  (insert_at (getFirstInsertionPt e) (x :: L) e)
                = getFirstInsertionPt e).
  { unfold insert_at. simpl. apply getFirstInsertionPt_stable; auto. }
  assert (Hv1 : valid_builder s1).
  { eexists. rewrite HF1, HB1, Hb; simpl. split; [reflexivity | lia]. }
  rewrite Hip in HB1.
  apply log_argument_emitted in H2 as (name & log & He).
  pose proof (emitted_is_log _ _ _ _ _ _ He) as Hlog.
  pose proof (emitted_mod_ext _ _ _ _ _ _ He) as Hext.
  destruct He as ((HF2 & HB2) & _).
  rewrite HF1, HB1, Hb in HF2. unfold splice in HF2; simpl in HF2.
  rewrite insert_at_front in HF2 by lia.
  destruct (is_log_shape _ _ _ _ Hlog) as (_ & _ & x' & l' & El & Hx' & Hex').
  exists log, x', l'. rewrite HM1 in Hext.
  split; [exact El|]. split; [exact Hx'|]. split; [exact Hex'|].
  split; [exact Hlog|]. split; [exact HF2|]. split; [exact Hext | exact Hv1].
Qed.

Lemma logArguments_succeeds FnNameStr Args :
  forall argIndex s e rest x L,
    Forall (fun A => widens A = true) Args ->
    fn_blocks (st_F s)
      = insert_at (getFirstInsertionPt e) (x :: L) e :: rest ->
    getFirstInsertionPt e < List.length e ->
    isPHI x = false -> isEHPad x = false ->
    exists s', logArguments FnNameStr Args argIndex s = Ok (tt, s').
Proof.
  induction Args as [|Arg Args IH];
    intros argIndex s e rest x L HC Hb Hlt Hx Hex; simpl.
  - eexists; reflexivity.
  - inversion HC as [|? ? HC1 HC2]; subst.
    assert (Hip : getFirstInsertionPt
                    (insert_at (getFirstInsertionPt e) (x :: L) e)
                  = getFirstInsertionPt e).
    { unfold insert_at. simpl. apply getFirstInsertionPt_stable; auto. }
    assert (Hlt1 : getFirstInsertionPt
                     (insert_at (getFirstInsertionPt e) (x :: L) e)
                   < List.length (insert_at (getFirstInsertionPt e) (x :: L) e)).
    { rewrite Hip. unfold insert_at.
      rewrite !length_app, length_firstn, length_skipn. simpl. lia. }
    pose proof (IRBuilder_at_entry_succeeds s _ _ Hb Hlt1) as H1.
    rewrite (bind_ok _ _ _ _ _ H1).
    set (s1 := mkState (st_M s) (st_F s) _) in *.
    assert (Hv1 : valid_builder s1).
    { eexists. unfold s1; simpl. rewrite Hb; simpl.
      split; [reflexivity | lia]. }
    destruct (log_argument_succeeds FnNameStr argIndex Arg s1 Hv1 HC1)
      as (s2 & H2).
    rewrite (bind_ok _ _ _ _ _ H2).
    destruct (arg_iteration_inv _ _ _ _ _ _ _ _ _ _ _ Hb Hlt Hx Hex H1 H2)
      as (log & x' & l' & -> & Hx' & Hex' & _ & HF2 & _).
    apply (IH _ s2 e rest x' (l' ++ x :: L)); auto.
    rewrite HF2; reflexivity.
Qed.

Lemma collectReturns_succeeds bs : forall k,
  Forall (fun b => has_terminator b = true) bs ->
  exists Returns, collectReturns bs k = Ok Returns.
Proof.
  induction bs as [|b bs IH]; intros k H; simpl; [eexists; reflexivity|].
  inversion H as [|? ? Hb Hbs]; subst. unfold has_terminator in Hb.
  destruct (getTerminator b); [|discriminate].
  destruct (IH (S k) Hbs) as (R & ->). eexists; reflexivity.
Qed.

Lemma logReturn_succeeds FnNameStr RI s blk :
  nth_error (fn_blocks (st_F s)) RI = Some blk ->
  is_return_block blk = true -> return_widens blk = true ->
  exists s', logReturn FnNameStr RI s = Ok (tt, s').
Proof.
  intros Hb Hr Hc. unfold logReturn, getFunction.
  unfold bind at 1. rewrite Hb.
  unfold is_return_block in Hr. unfold return_widens in Hc.
  destruct (getTerminator blk) as [T|] eqn:ET; [|discriminate].
  destruct T as [| | | |RetVal| | |]; try discriminate.
  destruct (getTerminator_inv _ _ ET) as (init & E & _).
  assert (Hlen : (List.length blk - 1 <? List.length blk)%nat = true).
  { apply Nat.ltb_lt. rewrite E, length_app; simpl. lia. }
  assert (H1 : IRBuilder_at RI (List.length blk - 1) s
               = Ok (tt, mkState (st_M s) (st_F s)
                           (mkBuilder RI (List.length blk - 1)))).
  { unfold IRBuilder_at. rewrite Hb, Hlen. reflexivity. }
  rewrite (bind_ok _ _ _ _ _ H1).
  assert (Hv : valid_builder
                 (mkState (st_M s) (st_F s)
                    (mkBuilder RI (List.length blk - 1)))).
  { exists blk; simpl; split; auto. lia. }
  destruct (log_return_succeeds FnNameStr RetVal _ Hv) as (s' & H2).
  { destruct RetVal; auto. }
  exists s'. destruct RetVal; exact H2.
Qed.

Lemma logReturns_succeeds FnNameStr Returns : forall s,
  NoDup Returns ->
  (forall i, In i Returns ->
     exists blk, nth_error (fn_blocks (st_F s)) i = Some blk /\
                 is_return_block blk = true /\ return_widens blk = true) ->
  exists s', logReturns FnNameStr Returns s = Ok (tt, s').
Proof.
  induction Returns as [|RI Returns IH]; intros s Hnd Hall; simpl.
  - eexists; reflexivity.
  - inversion Hnd as [|? ? Hni Hnd']; subst.
    destruct (Hall RI (or_introl eq_refl)) as (blk & Hb & Hr & Hc).
    destruct (logReturn_succeeds FnNameStr RI s blk Hb Hr Hc) as (s1 & H1).
    rewrite (bind_ok _ _ _ _ _ H1).
    apply IH; auto. intros i Hi.
    destruct (Hall i (or_intror Hi)) as (blk' & Hb' & Hr' & Hc').
    exists blk'. split; auto.
    apply logReturn_inv in H1 as (init & RetVal & log & _ & _ & HF1 & _).
    rewrite HF1; simpl. rewrite nth_error_update_nth_neq; auto.
    intros ->; auto.
Qed.

Lemma args_from_castable Ts : forall n,
  Forall (fun T => castable T = true) Ts ->
  Forall (fun A => widens A = true) (args_from n Ts).
Proof.
  induction Ts as [|T Ts IH]; intros n H; simpl; constructor;
    inversion H; subst; auto.
  rewrite widens_argument; assumption.
Qed.

(** The pass completes on every function that is not skipped, whose
    blocks all end in a terminator, and whose parameters and returned
    values the helpers can widen. *)
Lemma run_completes_widens M F :
  isSkippableFunction F = false ->
  Forall (fun b => has_terminator b = true) (fn_blocks F) ->
  Forall (fun T => castable T = true) (fn_params F) ->
  Forall (fun b => return_widens b = true) (fn_blocks F) ->
  exists M' F', run M F = Ok (PA_none, (M', F')).
Proof.
  intros Hs HT HP HR. unfold run. rewrite Hs.
  assert (Hinst : exists s, instrument (mkState M F (mkBuilder 0 0))
                            = Ok (PA_none, s)).
  2:{ destruct Hinst as (s & ->). eexists _, _; reflexivity. }
  destruct (fn_blocks F) as [|e rest] eqn:Hb.
  { unfold isSkippableFunction, isDeclaration in Hs. rewrite Hb in Hs.
    discriminate. }
  inversion HT as [|? ? HTe HTr]; subst.
  inversion HR as [|? ? HRe HRr]; subst.
  pose proof (getFirstInsertionPt_lt _ HTe) as Hlt.
  unfold instrument.
  set (s0 := mkState M F (mkBuilder 0 0)).
  pose proof (IRBuilder_at_entry_succeeds s0 e rest Hb Hlt) as H1.
  rewrite (bind_ok _ _ _ _ _ H1).
  unfold bind at 1. unfold getFunctionNameGlobal, getFunction. unfold bind at 1.
  unfold CreateGlobalStringPtr at 1. simpl st_M; simpl st_F; simpl st_B.
  set (s2 := mkState _ F (mkBuilder 0 (getFirstInsertionPt e))).
  assert (Hv2 : valid_builder s2).
  { exists e. unfold s2; simpl. rewrite Hb; simpl. split; auto. lia. }
  unfold emitPrintfEnter.
  destruct (emit_call_succeeds fmt_enter "__logger.fmt.enter"
              (VGlobalVariable (List.length (mod_globals M)))
              [] s2 Hv2) as (s3 & H3).
  rewrite (bind_ok _ _ _ _ _ H3).
  pose proof H3 as H3'.
  apply emit_call in H3' as (id & Callee & ((HF3 & _) & _)).
  unfold s2 in HF3; simpl in HF3. rewrite Hb in HF3.
  unfold splice in HF3; simpl in HF3.
  rewrite (bind_ok _ _ s3 (st_F s3) s3 eq_refl).
  assert (HA : Forall (fun A => widens A = true) (args (st_F s3))).
  { unfold args. rewrite HF3; simpl. apply args_from_castable; auto. }
  set (enter := CallInst id Callee
                  [VGlobalVariable (List.length (mod_globals (st_M s2)));
                   VGlobalVariable (List.length (mod_globals M))]).
  assert (Hb3 : fn_blocks (st_F s3)
                = insert_at (getFirstInsertionPt e) [enter] e :: rest)
    by (rewrite HF3; reflexivity).
  destruct (logArguments_succeeds (VGlobalVariable (List.length (mod_globals M)))
              (args (st_F s3)) 0 s3 e rest enter [] HA Hb3 Hlt eq_refl eq_refl)
    as (s5 & H5).
  rewrite (bind_ok _ _ _ _ _ H5).
  destruct (logArguments_inv _ _ _ _ _ e rest enter [] H5 Hb3 Hlt
              eq_refl eq_refl) as (LA & _ & HF5 & _).
  assert (Hb5 : fn_blocks (st_F s5)
                = insert_at (getFirstInsertionPt e) (LA ++ [enter]) e :: rest)
    by (rewrite HF5; reflexivity).
  assert (HT5 : Forall (fun b => has_terminator b = true) (fn_blocks (st_F s5))).
  { rewrite Hb5. constructor; auto. unfold has_terminator.
    rewrite getTerminator_insert_at by auto. exact HTe. }
  assert (HR5 : Forall (fun b => return_widens b = true)
                       (fn_blocks (st_F s5))).
  { rewrite Hb5. constructor; auto. unfold return_widens.
    rewrite getTerminator_insert_at by auto. exact HRe. }
  destruct (collectReturns_succeeds _ 0 HT5) as (Returns & HC).
  assert (H6 : getReturns s5 = Ok (Returns, s5))
    by (unfold getReturns; rewrite HC; reflexivity).
  rewrite (bind_ok _ _ _ _ _ H6).
  apply collectReturns_inv in HC as (Hnd & _ & Hin & _).
  destruct (logReturns_succeeds (VGlobalVariable (List.length (mod_globals M)))
              Returns s5 Hnd) as (s7 & H7).
  { intros i Hi. destruct (Hin i Hi) as (_ & blk & Hn & Hr).
    rewrite Nat.sub_0_r in Hn. exists blk. split; auto. split; auto.
    rewrite Forall_forall in HR5. apply HR5.
    eapply nth_error_In; eauto. }
  rewrite (bind_ok _ _ _ _ _ H7). eexists; reflexivity.
Qed.

Lemma run_completes M F :
  isSkippableFunction F = false ->
  Forall (fun b => has_terminator b = true) (fn_blocks F) ->
  Forall (fun T => castable T = true) (fn_params F) ->
  Forall (fun b => return_castable b = true) (fn_blocks F) ->
  exists M' F', run M F = Ok (PA_none, (M', F')).
Proof.
  intros Hs HT HP HR. apply run_completes_widens; auto.
  eapply Forall_impl; [|exact HR]. exact return_castable_widens.
Qed.

(** ** Example functions *)

Lemma run_add :
  run add_module add_fn = Ok (PA_none, (add_module_logged, add_fn_logged)).
Proof. vm_compute. reflexivity. Qed.

Lemma run_pick : run pick_module pick_fn = Ok (PA_none, pick_result).
Proof. vm_compute. reflexivity. Qed.

Lemma run_unnamed : run empty_module unnamed_fn = Ok (PA_none, unnamed_result).
Proof. vm_compute. reflexivity. Qed.

(** ** C1 and C2: where the entry log and the argument logs stand *)

(** C1, at the function [add] of two integer parameters: the pass makes
    one entry-log call, and that call is the fifth instruction of the
    entry block, after the four instructions that log the arguments; it
    does not precede every other inserted instruction. *)
Theorem C1_entry_log_follows_argument_logs :
  run add_module add_fn = Ok (PA_none, (add_module_logged, add_fn_logged)) /\
  fn_blocks add_fn_logged = [add_entry_logged] /\
  getFirstInsertionPt (hd [] (fn_blocks add_fn)) = 0 /\
  nth_error add_entry_logged 4
  = Some (CallInst 2 (VFunction "printf")
            [VGlobalVariable 1; VGlobalVariable 0]) /\
  nth_error (mod_globals add_module_logged) 1
  = Some (mkGlobalVariable "__logger.fmt.enter" true fmt_enter) /\
  nth_error (mod_globals add_module_logged) 0
  = Some (mkGlobalVariable "__logger.fn.add" true "add") /\
  List.length
    (filter (fun g => String.eqb (gv_init g) fmt_enter)
            (mod_globals add_module_logged)) = 1 /\
  (forall Inst, In Inst (firstn 4 add_entry_logged) ->
                ~ In Inst (hd [] (fn_blocks add_fn))) /\
  skipn 5 add_entry_logged
  = [ OtherInst 1 i32 "add" [VArgument 0 i32; VArgument 1 i32];
      CastInst 7 ZExt (VInstruction 1 i32) Int64Ty;
      CallInst 8 (VFunction "printf")
        [VGlobalVariable 4; VGlobalVariable 0; VInstruction 7 Int64Ty];
      ReturnInst (Some (VInstruction 1 i32)) ].
Proof.
  split; [exact run_add|].
  repeat split.
  intros Inst Hin Hold. simpl in Hin, Hold.
  repeat (destruct Hin as [<-|Hin]; [destruct Hold as [E|[E|[]]]; discriminate|]).
  destruct Hin.
Qed.

(** C2, at the same function: the two argument logs are there, one per
    parameter and of the integer kind, but the log of [arg1] stands
    before the log of [arg0], and both stand before the entry log, not
    after it. *)
Theorem C2_argument_logs_reversed_before_entry :
  exists PA M' F' entry,
    run add_module add_fn = Ok (PA, (M', F')) /\
    fn_blocks F' = [entry] /\
    (exists c1 c0 enter,
        nth_error entry 1
        = Some (CallInst c1 (VFunction "printf")
                  [VGlobalVariable 3; VGlobalVariable 0; getInt32 1;
                   VInstruction 5 Int64Ty]) /\
        nth_error entry 3
        = Some (CallInst c0 (VFunction "printf")
                  [VGlobalVariable 2; VGlobalVariable 0; getInt32 0;
                   VInstruction 3 Int64Ty]) /\
        nth_error entry 4
        = Some (CallInst enter (VFunction "printf")
                  [VGlobalVariable 1; VGlobalVariable 0])) /\
    global_str M' 3 (arg_format i32) /\
    global_str M' 2 (arg_format i32) /\
    global_str M' 1 fmt_enter /\
    count_calls (firstn 5 entry) = 3 /\
    nth_error entry 5
    = Some (OtherInst 1 i32 "add" [VArgument 0 i32; VArgument 1 i32]).
Proof.
  exists PA_none, add_module_logged, add_fn_logged, add_entry_logged.
  split; [exact run_add|]. split; [reflexivity|].
  split; [exists 6, 4, 2; repeat split|].
  repeat split; try (eexists; reflexivity).
Qed.

(** ** C7: values the emission cannot widen *)

(** C7, at three functions the filter lets through: a parameter of type
    [i128], a parameter of type [x86_fp80] and a returned value of type
    [i128].  The classification puts them in the integer and the
    floating-point class, the emission of that class asks for a zero
    extension, or a floating-point extension, to a narrower type, and
    the run stops on the invalid cast instead of completing. *)
Theorem C7_wide_values_reach_an_invalid_cast :
  isSkippableFunction wide_fn = false /\
  classify i128 = ClassInteger /\
  castIsValid ZExt i128 Int64Ty = false /\
  run empty_module wide_fn = Err "CastInst::Create: invalid cast" /\
  isSkippableFunction ld_fn = false /\
  classify X86_FP80Ty = ClassFloat /\
  castIsValid FPExt X86_FP80Ty DoubleTy = false /\
  run empty_module ld_fn = Err "CastInst::Create: invalid cast" /\
  isSkippableFunction wide_ret_fn = false /\
  run (mkModule [wide_ret_fn] [mkGlobalVariable "g" false "x"]) wide_ret_fn
  = Err "CastInst::Create: invalid cast".
Proof. repeat split; vm_compute; reflexivity. Qed.

(** ** C9 and C10: the analyses reported as preserved *)

Lemma run_not_skipped_PA M F PA r :
  isSkippableFunction F = false -> run M F = Ok (PA, r) -> PA = PA_none.
Proof.
  intros Hs H. destruct r as [M' F'].
  destruct (run_structure _ _ _ _ _ Hs H)
    as (_ & _ & _ & _ & _ & _ & _ & _ & _ & _ & _ & HPA & _).
  exact HPA.
Qed.

(** What C9 asks of the result is asked of no impossible thing: the
    result [PreservedAnalyses PA; PA.preserveSet<CFGAnalyses>()] reports
    no analysis as preserved by itself and the set of control-flow-graph
    analyses as preserved for every one of them. *)
Lemma cfg_only_result_exists :
  exists PA,
    (forall n, preserved PA (AnalysisID n) = false) /\
    (forall n, preservedSet PA (AnalysisID n) CFGAnalysesKey = true).
Proof. exists (mkPA [CFGAnalysesKey] []). split; intros n; reflexivity. Qed.

(** C9 as stated fails: the result of an instrumenting run reports no
    analysis as preserved, but it does not report the set of
    control-flow-graph analyses as preserved for any analysis. *)
Lemma C9_counterexample :
  ~ (forall M F PA r,
        isSkippableFunction F = false ->
        run M F = Ok (PA, r) ->
        (forall n, preserved PA (AnalysisID n) = false) /\
        (forall n, preservedSet PA (AnalysisID n) CFGAnalysesKey = true)).
Proof.
  intros H.
  destruct (H add_module add_fn PA_none (add_module_logged, add_fn_logged)
              eq_refl run_add) as [_ Hcfg].
  specialize (Hcfg 0). discriminate.
Qed.

(** C9, amended: when a function is instrumented the result is the
    empty set of preserved analyses: every analysis is reported as
    invalidated, and the set of control-flow-graph analyses is not
    reported as preserved either. *)
Theorem C9_instrumenting_run_preserves_none M F PA r :
  isSkippableFunction F = false ->
  run M F = Ok (PA, r) ->
  PA = PA_none /\
  areAllPreserved PA = false /\
  (forall ID, preserved PA ID = false) /\
  (forall ID, preservedSet PA ID CFGAnalysesKey = false).
Proof.
  intros Hs H. rewrite (run_not_skipped_PA _ _ _ _ Hs H).
  repeat split; intros ID; unfold preserved, preservedSet; simpl;
    apply andb_false_r.
Qed.

Lemma C9_witness :
  isSkippableFunction add_fn = false /\
  run add_module add_fn = Ok (PA_none, (add_module_logged, add_fn_logged)) /\
  (PA_none = PA_none /\
   areAllPreserved PA_none = false /\
   (forall ID, preserved PA_none ID = false) /\
   (forall ID, preservedSet PA_none ID CFGAnalysesKey = false)).
Proof.
  split; [reflexivity|]. split; [exact run_add|].
  exact (C9_instrumenting_run_preserves_none add_module add_fn PA_none
           (add_module_logged, add_fn_logged) eq_refl run_add).
Defined.

(** C10: for every function the filter skips, the run changes nothing
    and reports every analysis as preserved, which is not the result
    reported after instrumenting. *)
Theorem C10_skipped_function_preserves_all M F :
  isSkippableFunction F = true ->
  run M F = Ok (PA_all, (M, F)) /\
  areAllPreserved PA_all = true /\
  (forall ID, preserved PA_all ID = true) /\
  (forall ID SetID, preservedSet PA_all ID SetID = true) /\
  PA_all <> PA_none /\
  areAllPreserved PA_none = false.
Proof.
  intros Hs. unfold run; rewrite Hs.
  repeat split; try reflexivity. discriminate.
Qed.

Lemma C10_witness :
  isSkippableFunction logger_helper_fn = true /\
  run empty_module logger_helper_fn
  = Ok (PA_all, (empty_module, logger_helper_fn)).
Proof.
  split; [reflexivity|].
  exact (proj1 (C10_skipped_function_preserves_all empty_module
                  logger_helper_fn eq_refl)).
Defined.

(** ** C3: the return logs *)

Lemma count_calls_insert_at pt L e :
  count_calls (insert_at pt L e) = count_calls e + count_calls L.
Proof.
  assert (He : count_calls e
               = count_calls (firstn pt e) + count_calls (skipn pt e))
    by (rewrite <- count_calls_app, firstn_skipn; reflexivity).
  unfold insert_at. rewrite !count_calls_app. lia.
Qed.

Lemma num_returns_insert_at pt L e rest :
  pt < List.length e ->
  num_returns (insert_at pt L e :: rest) = num_returns (e :: rest).
Proof.
  intros Hlt. unfold num_returns; simpl.
  assert (Hr : is_return_block (insert_at pt L e) = is_return_block e)
    by (unfold is_return_block; rewrite getTerminator_insert_at; auto).
  rewrite Hr. destruct (is_return_block e); reflexivity.
Qed.

Lemma ret_logged_count M FnNameStr l l' :
  Forall2 (ret_logged M FnNameStr) l l' ->
  count_calls (List.concat l') = count_calls (List.concat l) + num_returns l.
Proof.
  induction 1 as [|b b' l l' Hb _ IH]; [reflexivity|].
  simpl. rewrite !count_calls_app, IH, num_returns_cons.
  destruct (ret_logged_cases _ _ _ _ Hb)
    as [(-> & RetVal & init & log & -> & Hlog & ->)|(-> & ->)]; [|lia].
  apply is_log_shape in Hlog as (Hc & _).
  rewrite !count_calls_app, Hc. simpl. lia.
Qed.

Lemma ret_logged_no_return M FnNameStr l l' :
  Forall2 (ret_logged M FnNameStr) l l' -> num_returns l = 0 -> l' = l.
Proof.
  induction 1 as [|b b' l l' Hb _ IH]; [reflexivity|].
  rewrite num_returns_cons.
  destruct (ret_logged_cases _ _ _ _ Hb) as [(-> & _)|(-> & ->)];
    [discriminate|].
  simpl; intros Hn; f_equal; auto.
Qed.

Lemma run_call_count M F PA M' F' :
  isSkippableFunction F = false ->
  run M F = Ok (PA, (M', F')) ->
  count_calls (List.concat (fn_blocks F'))
  = count_calls (List.concat (fn_blocks F))
    + (1 + List.length (fn_params F)) + num_returns (fn_blocks F).
Proof.
  intros Hs H.
  destruct (run_structure _ _ _ _ _ Hs H)
    as (e & rest & enter & LA & Hb & Hlt & Hname & Henter & HLA & HF2 & _).
  destruct (arg_logs_shape _ _ _ _ HLA) as (HcA & HfA).
  destruct (is_log_shape _ _ _ _ Henter) as (HcE & HfE & _).
  assert (Hargs : List.length (args F) = List.length (fn_params F))
    by apply args_from_length.
  rewrite (ret_logged_count _ _ _ _ HF2), num_returns_insert_at by auto.
  rewrite Hb; simpl. rewrite !count_calls_app, count_calls_insert_at.
  rewrite count_calls_app, HcA, HcE, Hargs. unfold BasicBlock. lia.
Qed.

(** C3: a successful run on a function that is not skipped first puts
    [L], the entry log and the argument logs ([1 + N] calls), at the
    first insertion point of the entry block; then, block by block
    ([ret_logged]), a block that ends in a return instruction receives
    one log immediately before that instruction, its call last and of
    the format of the class of the returned value, and a block that ends
    otherwise receives nothing.  The calls added for the returns are as
    many as the return sites, and none when there is no return site. *)
Theorem C3_one_log_before_each_return M F PA M' F' :
  isSkippableFunction F = false ->
  run M F = Ok (PA, (M', F')) ->
  exists e rest L,
    fn_blocks F = e :: rest /\
    Forall call_or_cast L /\
    count_calls L = 1 + List.length (fn_params F) /\
    Forall2 (ret_logged M' (VGlobalVariable (List.length (mod_globals M))))
      (insert_at (getFirstInsertionPt e) L e :: rest) (fn_blocks F') /\
    global_str M' (List.length (mod_globals M)) (fn_name F) /\
    count_calls (List.concat (fn_blocks F'))
    = count_calls (List.concat (fn_blocks F))
      + (1 + List.length (fn_params F)) + num_returns (fn_blocks F) /\
    (num_returns (fn_blocks F) = 0 ->
     fn_blocks F' = insert_at (getFirstInsertionPt e) L e :: rest).
Proof.
  intros Hs H.
  destruct (run_structure _ _ _ _ _ Hs H)
    as (e & rest & enter & LA & Hb & Hlt & Hname & Henter & HLA & HF2 & _).
  destruct (arg_logs_shape _ _ _ _ HLA) as (HcA & HfA).
  destruct (is_log_shape _ _ _ _ Henter) as (HcE & HfE & _).
  assert (Hargs : List.length (args F) = List.length (fn_params F))
    by apply args_from_length.
  exists e, rest, (LA ++ [enter]).
  split; auto. split; [apply Forall_app; auto|].
  split; [rewrite count_calls_app, HcA, HcE, Hargs; lia|].
  split; auto. split; auto. split.
  - exact (run_call_count _ _ _ _ _ Hs H).
  - intros Hn. apply (ret_logged_no_return _ _ _ _ HF2).
    rewrite num_returns_insert_at by auto. rewrite Hb in Hn. exact Hn.
Qed.

Lemma C3_witness :
  isSkippableFunction pick_fn = false /\
  run pick_module pick_fn = Ok (PA_none, pick_result) /\
  num_returns (fn_blocks pick_fn) = 2 /\
  count_calls (List.concat (fn_blocks (snd pick_result)))
  = count_calls (List.concat (fn_blocks pick_fn)) + (1 + 1) + 2.
Proof.
  split; [reflexivity|]. split; [exact run_pick|]. split; [reflexivity|].
  destruct (C3_one_log_before_each_return pick_module pick_fn PA_none
              (fst pick_result) (snd pick_result) eq_refl run_pick)
    as (e & rest & L & _ & _ & _ & _ & _ & Hcount & _).
  exact Hcount.
Defined.

(** ** C5: the control-flow graph and the signature *)

Lemma inserted_only_refl b : inserted_only b b.
Proof. induction b; constructor; auto. Qed.

Lemma inserted_only_middle a L c :
  Forall call_or_cast L -> inserted_only (a ++ c) (a ++ L ++ c).
Proof.
  intros HL. induction a as [|x a IH]; simpl.
  - induction HL; simpl; [apply inserted_only_refl | constructor; auto].
  - constructor; auto.
Qed.

Lemma inserted_only_insert_at pt L e :
  Forall call_or_cast L -> inserted_only e (insert_at pt L e).
Proof.
  intros HL. unfold insert_at.
  rewrite <- (firstn_skipn pt e) at 1. apply inserted_only_middle; auto.
Qed.

Lemma inserted_only_trans a b c :
  inserted_only a b -> inserted_only b c -> inserted_only a c.
Proof.
  intros Hab Hbc. revert a Hab.
  induction Hbc as [|x b c Hbc IH|y b c Hy Hbc IH]; intros a Hab; auto.
  - inversion Hab; subst.
    + constructor; auto.
    + apply inserted_add; auto.
  - apply inserted_add; auto.
Qed.

Lemma call_or_cast_not_terminator y :
  call_or_cast y -> isTerminator y = false.
Proof. destruct y; intros [H|H]; try discriminate; reflexivity. Qed.

Lemma ret_logged_block M FnNameStr b b' :
  ret_logged M FnNameStr b b' ->
  getTerminator b' = getTerminator b /\ inserted_only b b'.
Proof.
  intros H. destruct (ret_logged_cases _ _ _ _ H)
    as [(_ & RetVal & init & log & -> & Hlog & ->)|(_ & ->)].
  - split.
    + rewrite app_assoc, !getTerminator_app; reflexivity.
    + apply inserted_only_middle. apply is_log_shape in Hlog; tauto.
  - split; [reflexivity | apply inserted_only_refl].
Qed.

(** Block by block, a successful run keeps the terminator and only puts
    calls and casts in. *)
Lemma run_blocks_related M F PA M' F' :
  isSkippableFunction F = false ->
  run M F = Ok (PA, (M', F')) ->
  F' = set_blocks F (fn_blocks F') /\
  Forall2 (fun b b' =>
             getTerminator b' = getTerminator b /\ inserted_only b b')
          (fn_blocks F) (fn_blocks F').
Proof.
  intros Hs H.
  destruct (run_structure _ _ _ _ _ Hs H)
    as (e & rest & enter & LA & Hb & Hlt & _ & Henter & HLA & HF2 & HF & _).
  destruct (arg_logs_shape _ _ _ _ HLA) as (_ & HfA).
  destruct (is_log_shape _ _ _ _ Henter) as (_ & HfE & _).
  assert (HL : Forall call_or_cast (LA ++ [enter])) by (apply Forall_app; auto).
  split; auto.
  rewrite Hb. inversion HF2 as [|b1 b' l1 l' Hhead Htail]; subst.
  constructor.
  - apply ret_logged_block in Hhead as (HT & Hio).
    rewrite getTerminator_insert_at in HT by auto.
    split; auto.
    eapply inserted_only_trans; [|exact Hio].
    apply inserted_only_insert_at; auto.
  - eapply Forall2_impl; [|exact Htail].
    intros b b2 Hr. apply ret_logged_block in Hr; auto.
Qed.

(** C5: after a successful run on a function that is not skipped, the
    name, the return type, the parameter types, the variadic flag and the
    calling convention are those of before; there are as many blocks, and
    block by block the terminator and the successors are the same and
    the new block is the old one with calls and casts, which are not
    terminators, put in among its instructions. *)
Theorem C5_control_flow_graph_unchanged M F PA M' F' :
  isSkippableFunction F = false ->
  run M F = Ok (PA, (M', F')) ->
  fn_name F' = fn_name F /\
  fn_ret F' = fn_ret F /\
  fn_params F' = fn_params F /\
  fn_varargs F' = fn_varargs F /\
  fn_callconv F' = fn_callconv F /\
  List.length (fn_blocks F') = List.length (fn_blocks F) /\
  Forall2 (fun b b' =>
             getTerminator b' = getTerminator b /\
             successors b' = successors b /\
             inserted_only b b')
          (fn_blocks F) (fn_blocks F') /\
  (forall y, call_or_cast y -> isTerminator y = false).
Proof.
  intros Hs H.
  destruct (run_blocks_related _ _ _ _ _ Hs H) as (HF & HB).
  rewrite HF; simpl. repeat split; auto.
  - symmetry; exact (Forall2_length HB).
  - eapply Forall2_impl; [|exact HB].
    intros b b' (HT & Hio). split; auto. split; auto.
    unfold successors; rewrite HT; reflexivity.
  - apply call_or_cast_not_terminator.
Qed.

Lemma C5_witness :
  isSkippableFunction pick_fn = false /\
  run pick_module pick_fn = Ok (PA_none, pick_result) /\
  List.length (fn_blocks (snd pick_result)) = 4 /\
  map successors (fn_blocks pick_fn) = [[1; 2]; []; []; []] /\
  Forall2 (fun b b' =>
             getTerminator b' = getTerminator b /\
             successors b' = successors b /\
             inserted_only b b')
          (fn_blocks pick_fn) (fn_blocks (snd pick_result)).
Proof.
  split; [reflexivity|]. split; [exact run_pick|].
  destruct (C5_control_flow_graph_unchanged pick_module pick_fn PA_none
              (fst pick_result) (snd pick_result) eq_refl run_pick)
    as (_ & _ & _ & _ & _ & Hlen & Hblocks & _).
  split; [exact Hlen|]. split; [reflexivity | exact Hblocks].
Defined.

(** ** C4: which functions are left alone *)

Lemma isSkippableFunction_spec F :
  isSkippableFunction F = true <-> skip_condition F.
Proof.
  unfold isSkippableFunction, skip_condition.
  destruct (isDeclaration F); [tauto|].
  destruct (isIntrinsic F); [tauto|].
  destruct (String.eqb_spec (fn_name F) "") as [E|E].
  { rewrite E. split; [discriminate|].
    intros [H|[H|[H _]]]; try discriminate. congruence. }
  destruct (String.eqb_spec (fn_name F) "printf") as [E1|E1]; [tauto|].
  destruct (String.prefix "__logger" (fn_name F)); [tauto|].
  split; [discriminate|]. intros [H|[H|[_ [H|H]]]]; congruence.
Qed.

(** C4: the run leaves the function and the module as they are exactly
    when the condition holds.  When it holds the run returns them
    untouched; when it does not, a run that completes returns a function
    with more instructions and a module with more globals.  A function
    with a body and an empty name does not meet the condition. *)
Theorem C4_untouched_iff_skippable M F :
  ((exists PA, run M F = Ok (PA, (M, F))) <-> skip_condition F) /\
  (skip_condition F -> run M F = Ok (PA_all, (M, F))) /\
  (~ skip_condition F ->
   forall PA M' F', run M F = Ok (PA, (M', F')) -> F' <> F /\ M' <> M) /\
  (fn_name F = "" -> isDeclaration F = false -> ~ skip_condition F).
Proof.
  assert (Hskip : skip_condition F -> run M F = Ok (PA_all, (M, F))).
  { intros Hc. apply isSkippableFunction_spec in Hc.
    unfold run; rewrite Hc; reflexivity. }
  assert (Hchg : ~ skip_condition F ->
            forall PA M' F', run M F = Ok (PA, (M', F')) -> F' <> F /\ M' <> M).
  { intros Hn PA M' F' H.
    assert (Hs : isSkippableFunction F = false).
    { destruct (isSkippableFunction F) eqn:E; auto.
      exfalso; apply Hn, isSkippableFunction_spec; auto. }
    split.
    - pose proof (run_call_count _ _ _ _ _ Hs H) as Hcount.
      intros ->. lia.
    - destruct (run_structure _ _ _ _ _ Hs H)
        as (_ & _ & _ & _ & _ & _ & _ & _ & _ & _ & _ & _
            & ((gs & HG & HL) & _) & _).
      intros ->. apply (f_equal (@List.length _)) in HG.
      rewrite length_app in HG. lia. }
  split; [split|split; [auto|split; [auto|]]].
  - intros (PA & H). destruct (isSkippableFunction F) eqn:E.
    + apply isSkippableFunction_spec; auto.
    + exfalso.
      assert (Hn : ~ skip_condition F)
        by (intros Hc; apply isSkippableFunction_spec in Hc; congruence).
      destruct (Hchg Hn _ _ _ H) as [HF _]. auto.
  - intros Hc; eauto.
  - intros Hname Hdecl [H|[H|[H _]]]; try congruence.
    unfold isIntrinsic in H. rewrite Hname in H. discriminate.
Qed.

Lemma C4_witness :
  ~ skip_condition unnamed_fn /\
  run empty_module unnamed_fn = Ok (PA_none, unnamed_result) /\
  snd unnamed_result <> unnamed_fn /\ fst unnamed_result <> empty_module.
Proof.
  assert (Hn : ~ skip_condition unnamed_fn)
    by exact (proj2 (proj2 (proj2
                (C4_untouched_iff_skippable empty_module unnamed_fn)))
                eq_refl eq_refl).
  split; [exact Hn|]. split; [exact run_unnamed|].
  exact (proj1 (proj2 (proj2
           (C4_untouched_iff_skippable empty_module unnamed_fn)))
           Hn PA_none (fst unnamed_result) (snd unnamed_result) run_unnamed).
Defined.

(** ** C8: runs over the whole module *)

Lemma find_function_names name Fs Gs :
  map fn_name Fs = map fn_name Gs ->
  find_function name Fs = find_function name Gs.
Proof.
  revert Gs; induction Fs as [|F Fs IH]; intros [|G Gs] H; simpl in *;
    try discriminate; auto.
  inversion H as [[Hn Ht]]. rewrite Hn, (IH Gs Ht). reflexivity.
Qed.

Lemma find_function_printf_last Fs l :
  map fn_name Fs = l ++ ["printf"] -> find_function "printf" Fs = true.
Proof.
  revert l; induction Fs as [|F Fs IH]; intros l H; simpl in *.
  - destruct l; discriminate.
  - destruct l as [|x l]; simpl in H; injection H as Hn Ht.
    + rewrite Hn; reflexivity.
    + rewrite (IH l Ht). apply orb_true_r.
Qed.

Lemma unit_ext_refl M : unit_ext 0 M M.
Proof.
  split; [exists []; rewrite app_nil_r; auto|].
  exists []; simpl; rewrite !app_nil_r; auto.
Qed.

Lemma unit_ext_trans c1 c2 M M1 M2 :
  unit_ext c1 M M1 -> unit_ext c2 M1 M2 -> unit_ext (c1 + c2) M M2.
Proof.
  intros [(gs1 & HG1 & HL1) (a1 & HN1 & HW1 & HA1)]
         [(gs2 & HG2 & HL2) (a2 & HN2 & HW2 & HA2)].
  split.
  { exists (gs1 ++ gs2). rewrite HG2, HG1, <- app_assoc, length_app; auto. }
  exists (a1 ++ a2). rewrite HN2, HN1, HW2, HW1, map_app, <- !app_assoc.
  split; auto. split; auto.
  destruct HA1 as [->|[-> N1]], HA2 as [->|[-> N2]]; simpl; auto.
  - right; split; auto.
    unfold getNamedValue in *. rewrite app_nil_r in HN1.
    rewrite (find_function_names _ _ _ HN1) in N2.
    destruct (find_function "printf" (mod_functions M)); [discriminate|].
    rewrite HG1 in N2.
    destruct (find_global "printf" 0 (mod_globals M ++ gs1)) eqn:E;
      [discriminate|].
    apply find_global_app_none in E; rewrite E; reflexivity.
  - exfalso. unfold getNamedValue in N2.
    rewrite (find_function_printf_last _ _ HN1) in N2. discriminate.
Qed.

Lemma map_update_nth_same {A B} (f : A -> B) (l : list A) i x y :
  nth_error l i = Some x -> f y = f x ->
  map f (update_nth i (fun _ => y) l) = map f l.
Proof.
  revert i; induction l as [|a l IH]; intros [|i] H E; simpl in *;
    try discriminate.
  - inversion H; subst. rewrite E; reflexivity.
  - rewrite (IH i H E); reflexivity.
Qed.

Lemma num_returns_same l l' :
  Forall2 (fun b b' : BasicBlock =>
             getTerminator b' = getTerminator b /\ inserted_only b b') l l' ->
  num_returns l' = num_returns l.
Proof.
  induction 1 as [|b b' l l' [HT _] _ IH]; [reflexivity|].
  rewrite !num_returns_cons, IH. unfold is_return_block. rewrite HT.
  reflexivity.
Qed.

(** A run on a function does not change what the next run will create
    for it. *)
Lemma run_weight M F PA M' F' :
  run M F = Ok (PA, (M', F')) ->
  fn_name F' = fn_name F /\ fn_weight F' = fn_weight F.
Proof.
  intros H. destruct (isSkippableFunction F) eqn:Hs.
  { unfold run in H; rewrite Hs in H; inversion H; subst; auto. }
  destruct (run_blocks_related _ _ _ _ _ Hs H) as (HF & HB).
  split; [rewrite HF; reflexivity|].
  assert (Hs' : isSkippableFunction F' = false).
  { rewrite HF. unfold isSkippableFunction, isDeclaration, isIntrinsic in *.
    simpl. destruct (fn_blocks F) as [|e rest] eqn:Eb; [discriminate|].
    inversion HB; subst. exact Hs. }
  unfold fn_weight. rewrite Hs, Hs', (num_returns_same _ _ HB).
  rewrite HF at 1; reflexivity.
Qed.

Lemma run_unit_ext M F i PA M' F' :
  nth_error (mod_functions M) i = Some F ->
  run M F = Ok (PA, (M', F')) ->
  unit_ext (fn_weight F) M
    (mkModule (update_nth i (fun _ => F') (mod_functions M')) (mod_globals M')).
Proof.
  intros Hi H. destruct (run_weight _ _ _ _ _ H) as (Hname & Hweight).
  assert (HE : mod_ext (fn_weight F) M M').
  { unfold fn_weight. destruct (isSkippableFunction F) eqn:Hs.
    - unfold run in H; rewrite Hs in H; inversion H; subst.
      apply mod_ext_refl.
    - destruct (run_structure _ _ _ _ _ Hs H)
        as (_ & _ & _ & _ & _ & _ & _ & _ & _ & _ & _ & _ & HE & _). exact HE. }
  destruct HE as [HG HX]. split; [exact HG|]. simpl.
  destruct HX as [E|[N E]].
  - exists []. simpl. rewrite !app_nil_r, E.
    rewrite (map_update_nth_same fn_name _ _ _ _ Hi Hname).
    rewrite (map_update_nth_same fn_weight _ _ _ _ Hi Hweight). auto.
  - exists ["printf"]. rewrite E.
    assert (Hi' : nth_error (mod_functions M ++ [PrintfDecl]) i = Some F)
      by (rewrite nth_error_app1; auto; apply nth_error_Some; congruence).
    rewrite (map_update_nth_same fn_name _ _ _ _ Hi' Hname).
    rewrite (map_update_nth_same fn_weight _ _ _ _ Hi' Hweight).
    rewrite !map_app. simpl. auto.
Qed.

Lemma sum_from_ext f g i n :
  (forall j, f j = g j) -> sum_from f i n = sum_from g i n.
Proof.
  intros H; revert i; induction n as [|n IH]; intros i; simpl; auto.
Qed.

Lemma sum_from_shift f i n :
  sum_from f (S i) n = sum_from (fun j => f (S j)) i n.
Proof. revert i; induction n as [|n IH]; intros i; simpl; auto. Qed.

Lemma sum_from_nth l : forall n,
  List.length l <= n -> sum_from (fun j => nth j l 0) 0 n = list_sum l.
Proof.
  induction l as [|a l IH]; intros n Hn.
  - clear Hn. generalize 0 at 2.
    induction n as [|n IHn]; intros i; simpl; auto.
    rewrite IHn. destruct i; reflexivity.
  - destruct n as [|n]; simpl in Hn; [lia|]. simpl.
    rewrite sum_from_shift. simpl. rewrite IH by lia. reflexivity.
Qed.

Lemma nth_app_zeros (l : list nat) (added : list string) j :
  nth j (l ++ map (fun _ => 0) added) 0 = nth j l 0.
Proof.
  destruct (Nat.lt_ge_cases j (List.length l)) as [Hlt|Hge].
  - apply app_nth1; auto.
  - rewrite app_nth2 by auto. rewrite (nth_overflow l) by auto.
    generalize (j - List.length l). induction added as [|a r IH]; intros [|k];
      simpl; auto.
Qed.

Lemma unit_ext_weight_at c M M' j :
  unit_ext c M M' -> weight_at M' j = weight_at M j.
Proof.
  intros [_ (added & _ & HW & _)]. unfold weight_at. rewrite HW.
  apply nth_app_zeros.
Qed.

Lemma runOnFunction_unit_ext M i M1 :
  runOnFunction M i = Ok M1 -> unit_ext (weight_at M i) M M1.
Proof.
  unfold runOnFunction, weight_at.
  destruct (nth_error (mod_functions M) i) as [F|] eqn:Hi.
  2:{ intros H; inversion H; subst.
      rewrite nth_overflow; [apply unit_ext_refl|].
      rewrite length_map. apply nth_error_None; auto. }
  assert (Hw : nth i (map fn_weight (mod_functions M)) 0 = fn_weight F).
  { apply nth_error_nth. rewrite nth_error_map, Hi; reflexivity. }
  rewrite Hw.
  destruct (isDeclaration F) eqn:Hd.
  { intros H; inversion H; subst.
    unfold fn_weight, isSkippableFunction. rewrite Hd. apply unit_ext_refl. }
  destruct (run M F) as [[PA [M' F']]|] eqn:Hr; [|discriminate].
  intros H; inversion H; subst. eapply run_unit_ext; eauto.
Qed.

Lemma runOnFunctions_unit_ext n : forall i M M',
  runOnFunctions n i M = Ok M' ->
  unit_ext (sum_from (weight_at M) i n) M M'.
Proof.
  induction n as [|n IH]; intros i M M' H; simpl in H.
  - inversion H; subst; apply unit_ext_refl.
  - destruct (runOnFunction M i) as [M1|] eqn:H1; [|discriminate].
    apply runOnFunction_unit_ext in H1. apply IH in H.
    simpl.
    rewrite (sum_from_ext (weight_at M) (weight_at M1))
      by (intros j; symmetry; eapply unit_ext_weight_at; eauto).
    eapply unit_ext_trans; eauto.
Qed.

Lemma list_sum_app_zeros (l : list nat) (added : list string) :
  list_sum (l ++ map (fun _ => 0) added) = list_sum l.
Proof.
  rewrite list_sum_app.
  assert (H : list_sum (map (fun _ : string => 0) added) = 0)
    by (induction added; simpl; auto).
  rewrite H; lia.
Qed.

Lemma runOnModule_unit_ext M M' :
  runOnModule M = Ok M' ->
  unit_ext (fresh_globals M) M M' /\ fresh_globals M' = fresh_globals M.
Proof.
  unfold runOnModule. intros H. apply runOnFunctions_unit_ext in H.
  unfold weight_at in H at 1.
  rewrite sum_from_nth in H by (rewrite length_map; lia).
  split; [exact H|].
  destruct H as [_ (added & _ & HW & _)].
  unfold fresh_globals. rewrite HW. apply list_sum_app_zeros.
Qed.

Lemma runPipeline_unit_ext k : forall M M',
  runPipeline k M = Ok M' -> unit_ext (k * fresh_globals M) M M'.
Proof.
  induction k as [|k IH]; intros M M' H; simpl in H.
  - inversion H; subst; apply unit_ext_refl.
  - destruct (runOnModule M) as [M1|] eqn:H1; [|discriminate].
    apply runOnModule_unit_ext in H1 as (HE & Hf).
    apply IH in H. rewrite Hf in H.
    exact (unit_ext_trans _ _ _ _ _ HE H).
Qed.

Lemma inserted_only_In b b' x : inserted_only b b' -> In x b -> In x b'.
Proof.
  induction 1 as [|y b b' _ IH|y b b' _ _ IH]; simpl; auto.
  intros [->|H]; auto.
Qed.

Lemma run_add_twice : runPipeline 2 add_module = Ok add_module_twice.
Proof. vm_compute. reflexivity. Qed.

(** C8: however many times the pass runs over a module, the list of
    functions grows by at most one function, named [printf], and only
    when the module had no global value of that name; and the [k] runs
    append [k] times the globals of one run, the old ones staying in
    place.  In each single run on a function the new globals start with
    the name of the function and the entry format, and the entry log
    refers to these two new globals, at positions the module did not
    have before the run. *)
Theorem C8_printf_declared_once_constants_fresh :
  (forall k M M',
      runPipeline k M = Ok M' ->
      (exists added,
          map fn_name (mod_functions M')
          = map fn_name (mod_functions M) ++ added /\
          (added = [] \/
           (added = ["printf"] /\ getNamedValue M "printf" = None))) /\
      (exists gs,
          mod_globals M' = mod_globals M ++ gs /\
          List.length gs = k * fresh_globals M)) /\
  (forall M F PA M' F',
      isSkippableFunction F = false ->
      run M F = Ok (PA, (M', F')) ->
      exists gs id Callee,
        mod_globals M' = mod_globals M ++ gs /\
        List.length gs
        = 2 + List.length (fn_params F) + num_returns (fn_blocks F) /\
        global_str M' (List.length (mod_globals M)) (fn_name F) /\
        global_str M' (List.length (mod_globals M) + 1) fmt_enter /\
        In (CallInst id Callee
              [VGlobalVariable (List.length (mod_globals M) + 1);
               VGlobalVariable (List.length (mod_globals M))])
           (hd [] (fn_blocks F')) /\
        (mod_functions M' = mod_functions M \/
         (getNamedValue M "printf" = None /\
          mod_functions M' = mod_functions M ++ [PrintfDecl]))).
Proof.
  split.
  - intros k M M' H.
    destruct (runPipeline_unit_ext _ _ _ H) as [HG (added & HN & _ & HA)].
    split; [exists added; auto | exact HG].
  - intros M F PA M' F' Hs H.
    destruct (run_structure _ _ _ _ _ Hs H)
      as (e & rest & enter & LA & Hb & Hlt & Hname & Henter & HLA & HF2 & _
          & _ & [(gs & HG & HL) HX] & (id & Callee & Eenter)).
    exists gs, id, Callee.
    split; auto. split; auto. split; auto. split; [|split; auto].
    + destruct Henter as (casts & call & g & E & _ & _ & Hcall & Hg).
      destruct casts as [|c casts]; simpl in E.
      * inversion E; subst call.
        destruct Hcall as (id' & Callee' & extra & E').
        rewrite Eenter in E'. inversion E'; subst. exact Hg.
      * destruct casts; discriminate.
    + inversion HF2 as [|b1 b' l1 l' Hhead Htail]; subst. simpl.
      apply ret_logged_block in Hhead as (_ & Hio).
      apply (inserted_only_In _ _ _ Hio).
      unfold insert_at. rewrite !in_app_iff. right; left; right.
      left; reflexivity.
Qed.

Lemma C8_witness :
  runPipeline 2 add_module = Ok add_module_twice /\
  map fn_name (mod_functions add_module_twice) = ["add"; "printf"] /\
  fresh_globals add_module = 5 /\
  (exists gs,
      mod_globals add_module_twice = mod_globals add_module ++ gs /\
      List.length gs = 2 * fresh_globals add_module).
Proof.
  split; [exact run_add_twice|]. split; [reflexivity|].
  split; [reflexivity|].
  exact (proj2 (proj1 C8_printf_declared_once_constants_fresh
                  2 add_module add_module_twice run_add_twice)).
Defined.

(** ** The operands of the logs *)

Lemma find_global_app_some name k l l' i :
  find_global name k l = Some i -> find_global name k (l ++ l') = Some i.
Proof.
  revert k; induction l as [|G r IH]; simpl; intros k H; [discriminate|].
  destruct (gv_name G =? name)%string; auto.
Qed.

Lemma getNamedValue_ext n M M' v :
  mod_ext n M M' ->
  getNamedValue M "printf" = Some v -> getNamedValue M' "printf" = Some v.
Proof.
  intros [(gs & HG & _) [E|[N _]]] H; [|congruence].
  unfold getNamedValue in *. rewrite E.
  destruct (find_function "printf" (mod_functions M)); auto.
  rewrite HG.
  destruct (find_global "printf" 0 (mod_globals M)) as [i|] eqn:Ei;
    [|discriminate].
  rewrite (find_global_app_some _ _ _ gs _ Ei). exact H.
Qed.

(** What [getOrInsertPrintf] returns is what the module then knows as
    [printf]. *)
Lemma getOrInsertPrintf_lookup s v s' :
  getOrInsertPrintf s = Ok (v, s') ->
  getNamedValue (st_M s') "printf" = Some v.
Proof.
  unfold getOrInsertPrintf, getOrInsertFunction.
  destruct (getNamedValue (st_M s) "printf") eqn:E; intros H;
    inversion H; subst; auto.
  unfold getNamedValue; simpl.
  rewrite find_function_app; simpl. rewrite orb_true_r. reflexivity.
Qed.

Lemma emit_call_detail fmt name FnNameStr extra s s' :
  (Printf <- getOrInsertPrintf ;;
   Fmt <- CreateGlobalStringPtr fmt name ;;
   CreateCall Printf (Fmt :: FnNameStr :: extra) ;;;
   ret tt) s = Ok (tt, s') ->
  exists id Callee,
    steps s [CallInst id Callee
               (VGlobalVariable (List.length (mod_globals (st_M s)))
                :: FnNameStr :: extra)] s' /\
    mod_globals (st_M s')
    = mod_globals (st_M s) ++ [mkGlobalVariable name true fmt] /\
    getNamedValue (st_M s') "printf" = Some Callee /\
    mod_ext 1 (st_M s) (st_M s').
Proof.
  intros H. pose proof H as H0.
  apply emit_call in H0 as (id0 & Callee0 & He).
  pose proof (emitted_mod_ext _ _ _ _ _ _ He) as Hext.
  destruct He as (_ & _ & HG & _).
  inv_bind H as Printf s1 H1.
  pose proof (getOrInsertPrintf_lookup _ _ _ H1) as Hlook.
  apply getOrInsertPrintf_inv in H1 as (HF1 & HB1 & HG1 & HX1 & HN1).
  inv_bind H as Fmt s2 H2.
  apply CreateGlobalStringPtr_inv in H2 as (HF2 & HB2 & HFn2 & HG2 & ->).
  inv_bind H as v s3 H3.
  apply CreateCall_inv in H3 as (HM3 & (id & Hs3) & Hv3).
  inversion H; subst s3; clear H.
  assert (Hs : steps s [] s2)
    by (apply steps_nil; [rewrite HF2, HF1 | rewrite HB2, HB1]; auto).
  pose proof (steps_trans _ _ _ _ _ Hs Hs3) as Hst; simpl in Hst.
  rewrite HG1 in Hst.
  exists id, Printf. split; [exact Hst|]. split; [exact HG|].
  split; [|exact Hext].
  rewrite HM3.
  apply (getNamedValue_ext 1 (st_M s1)); auto.
  split; [eexists; split; [exact HG2 | reflexivity] | left; auto].
Qed.

Lemma emit_cast_call_detail fmt name FnNameStr op V T
      (mk : Value -> list Value) s s' :
  (Printf <- getOrInsertPrintf ;;
   Fmt <- CreateGlobalStringPtr fmt name ;;
   X <- CreateCast op V T ;;
   CreateCall Printf (Fmt :: FnNameStr :: mk X) ;;;
   ret tt) s = Ok (tt, s') ->
  exists casts X id Callee,
    steps s (casts ++ [CallInst id Callee
               (VGlobalVariable (List.length (mod_globals (st_M s)))
                :: FnNameStr :: mk X)]) s' /\
    cast_result op V T casts X /\
    mod_globals (st_M s')
    = mod_globals (st_M s) ++ [mkGlobalVariable name true fmt] /\
    getNamedValue (st_M s') "printf" = Some Callee /\
    mod_ext 1 (st_M s) (st_M s').
Proof.
  intros H. pose proof H as H0.
  apply emit_cast_call in H0 as (casts0 & X0 & id0 & Callee0 & He & _).
  pose proof (emitted_mod_ext _ _ _ _ _ _ He) as Hext.
  destruct He as (_ & _ & HG & _).
  inv_bind H as Printf s1 H1.
  inv_bind H as Fmt s2 H2.
  inv_bind H as X s3 H3.
  apply CreateCast_inv in H3 as (HM3 & casts & Hs3 & Hc).
  assert (H' : (Printf <- getOrInsertPrintf ;;
                Fmt <- CreateGlobalStringPtr fmt name ;;
                CreateCall Printf (Fmt :: FnNameStr :: mk X) ;;;
                ret tt) (mkState (st_M s) (st_F s3) (st_B s3)) = Ok (tt, s')).
  { pose proof H1 as H1'. pose proof H2 as H2'.
    apply getOrInsertPrintf_inv in H1' as (HF1 & HB1 & HG1 & HX1 & HN1).
    apply CreateGlobalStringPtr_inv in H2' as (HF2 & HB2 & HFn2 & HG2 & ->).
    unfold bind at 1.
    unfold getOrInsertPrintf, getOrInsertFunction in H1 |- *; simpl.
    destruct (getNamedValue (st_M s) "printf") eqn:E;
      inversion H1; subst; clear H1;
      unfold bind at 1; unfold CreateGlobalStringPtr at 1; simpl;
      unfold CreateGlobalStringPtr in H2; inversion H2; subst; clear H2;
      simpl in *; rewrite <- H; f_equal; destruct s3; simpl in *; subst;
      reflexivity. }
  apply emit_call_detail in H' as (id & Callee & Hst & _ & Hlook & _).
  simpl in Hst.
  apply getOrInsertPrintf_inv in H1 as (HF1 & HB1 & HG1 & HX1 & HN1).
  apply CreateGlobalStringPtr_inv in H2 as (HF2 & HB2 & HFn2 & HG2 & ->).
  assert (Hs : steps s [] s2)
    by (apply steps_nil; [rewrite HF2, HF1 | rewrite HB2, HB1]; auto).
  pose proof (steps_trans _ _ _ _ _ Hs Hs3) as Hs03; simpl in Hs03.
  assert (Hs3' : steps s3 [CallInst id Callee
         (VGlobalVariable (List.length (mod_globals (st_M s)))
          :: FnNameStr :: mk X)] s') by exact Hst.
  pose proof (steps_trans _ _ _ _ _ Hs03 Hs3') as Hall.
  exists casts, X, id, Callee. auto.
Qed.

Lemma log_of_ext n M M' G FnNameStr pre val log :
  mod_ext n M M' ->
  log_of M G FnNameStr pre val log -> log_of M' G FnNameStr pre val log.
Proof.
  intros HE (casts & vals & id & Callee & g & -> & Hv & Hg & Hc).
  exists casts, vals, id, Callee, g. split; auto. split; auto. split.
  - destruct HE as [(gs & HG & _) _]. rewrite HG, nth_error_app1; auto.
    apply nth_error_Some; congruence.
  - eapply getNamedValue_ext; eauto.
Qed.

Lemma nth_error_last_global (l : list GlobalVariable) G :
  nth_error (l ++ [G]) (List.length l) = Some G.
Proof. rewrite nth_error_app2, Nat.sub_diag; auto. Qed.

(** The emission chosen for an argument, with its operands. *)
Lemma log_argument_detail FnNameStr argIndex Arg s s' :
  (if isPointerTy (getType Arg) then emitPrintfArgPtr FnNameStr argIndex Arg
   else if isIntegerTy (getType Arg)
        then emitPrintfArgInt FnNameStr argIndex Arg
   else if isFloatingPointTy (getType Arg)
        then emitPrintfArgFloat FnNameStr argIndex Arg
   else emitPrintfAggregate FnNameStr argIndex) s = Ok (tt, s') ->
  exists log,
    steps s log s' /\
    log_of (st_M s') (arg_global (getType Arg)) FnNameStr
           [getInt32 argIndex] (Some Arg) log /\
    mod_globals (st_M s') = mod_globals (st_M s) ++ [arg_global (getType Arg)] /\
    mod_ext 1 (st_M s) (st_M s').
Proof.
  unfold log_of, widening, arg_global, arg_gname, arg_format, classify.
  destruct (isPointerTy (getType Arg)).
  { intros H. unfold emitPrintfArgPtr, CreatePointerCast in H.
    apply (emit_cast_call_detail _ _ _ _ _ _
             (fun X => [getInt32 argIndex; X])) in H
      as (casts & X & id & Callee & Hst & Hc & HG & Hl & HE).
    eexists; split; [exact Hst|]. split; [|split; auto].
    exists casts, [X], id, Callee, (List.length (mod_globals (st_M s))).
    split; [reflexivity|]. split; [exists X; auto|]. split; auto.
    rewrite HG; apply nth_error_last_global. }
  destruct (isIntegerTy (getType Arg)).
  { intros H. unfold emitPrintfArgInt, CreateZExtOrBitCast in H.
    apply (emit_cast_call_detail _ _ _ _ _ _
             (fun X => [getInt32 argIndex; X])) in H
      as (casts & X & id & Callee & Hst & Hc & HG & Hl & HE).
    eexists; split; [exact Hst|]. split; [|split; auto].
    exists casts, [X], id, Callee, (List.length (mod_globals (st_M s))).
    split; [reflexivity|]. split; [exists X; auto|]. split; auto.
    rewrite HG; apply nth_error_last_global. }
  destruct (isFloatingPointTy (getType Arg)).
  { intros H. unfold emitPrintfArgFloat in H. rewrite fpext_or_self in H.
    apply (emit_cast_call_detail _ _ _ _ _ _
             (fun X => [getInt32 argIndex; X])) in H
      as (casts & X & id & Callee & Hst & Hc & HG & Hl & HE).
    eexists; split; [exact Hst|]. split; [|split; auto].
    exists casts, [X], id, Callee, (List.length (mod_globals (st_M s))).
    split; [reflexivity|]. split; [exists X; auto|]. split; auto.
    rewrite HG; apply nth_error_last_global. }
  intros H. unfold emitPrintfAggregate in H.
  apply emit_call_detail in H as (id & Callee & Hst & HG & Hl & HE).
  eexists; split; [exact Hst|]. split; [|split; auto].
  exists [], [], id, Callee, (List.length (mod_globals (st_M s))).
  split; [reflexivity|]. split; auto. split; auto.
  rewrite HG; apply nth_error_last_global.
Qed.

(** The emission chosen for a return instruction, with its operands. *)
Lemma log_return_detail FnNameStr RetVal s s' :
  match RetVal with
  | None => emitPrintfRetVoid FnNameStr
  | Some V =>
      if isPointerTy (getType V) then emitPrintfRetPtr FnNameStr V
      else if isIntegerTy (getType V) then emitPrintfRetInt FnNameStr V
      else if isFloatingPointTy (getType V) then emitPrintfRetFloat FnNameStr V
      else
        Printf <- getOrInsertPrintf ;;
        Fmt <- CreateGlobalStringPtr fmt_ret_agg "__logger.fmt.ret.agg" ;;
        CreateCall Printf [Fmt; FnNameStr] ;;;
        ret tt
  end s = Ok (tt, s') ->
  exists log,
    steps s log s' /\
    log_of (st_M s') (ret_global RetVal) FnNameStr [] RetVal log /\
    mod_globals (st_M s') = mod_globals (st_M s) ++ [ret_global RetVal] /\
    mod_ext 1 (st_M s) (st_M s').
Proof.
  unfold log_of, ret_global, ret_gname, ret_format.
  destruct RetVal as [V|].
  2:{ intros H. unfold emitPrintfRetVoid in H.
      apply emit_call_detail in H as (id & Callee & Hst & HG & Hl & HE).
      eexists; split; [exact Hst|]. split; [|split; auto].
      exists [], [], id, Callee, (List.length (mod_globals (st_M s))).
      split; [reflexivity|]. split; auto. split; auto.
      rewrite HG; apply nth_error_last_global. }
  unfold widening, classify.
  destruct (isPointerTy (getType V)).
  { intros H. unfold emitPrintfRetPtr, CreatePointerCast in H.
    apply (emit_cast_call_detail _ _ _ _ _ _ (fun X => [X])) in H
      as (casts & X & id & Callee & Hst & Hc & HG & Hl & HE).
    eexists; split; [exact Hst|]. split; [|split; auto].
    exists casts, [X], id, Callee, (List.length (mod_globals (st_M s))).
    split; [reflexivity|]. split; [exists X; auto|]. split; auto.
    rewrite HG; apply nth_error_last_global. }
  destruct (isIntegerTy (getType V)).
  { intros H. unfold emitPrintfRetInt, CreateZExtOrBitCast in H.
    apply (emit_cast_call_detail _ _ _ _ _ _ (fun X => [X])) in H
      as (casts & X & id & Callee & Hst & Hc & HG & Hl & HE).
    eexists; split; [exact Hst|]. split; [|split; auto].
    exists casts, [X], id, Callee, (List.length (mod_globals (st_M s))).
    split; [reflexivity|]. split; [exists X; auto|]. split; auto.
    rewrite HG; apply nth_error_last_global. }
  destruct (isFloatingPointTy (getType V)).
  { intros H. unfold emitPrintfRetFloat in H. rewrite fpext_or_self in H.
    apply (emit_cast_call_detail _ _ _ _ _ _ (fun X => [X])) in H
      as (casts & X & id & Callee & Hst & Hc & HG & Hl & HE).
    eexists; split; [exact Hst|]. split; [|split; auto].
    exists casts, [X], id, Callee, (List.length (mod_globals (st_M s))).
    split; [reflexivity|]. split; [exists X; auto|]. split; auto.
    rewrite HG; apply nth_error_last_global. }
  intros H.
  apply emit_call_detail in H as (id & Callee & Hst & HG & Hl & HE).
  eexists; split; [exact Hst|]. split; [|split; auto].
  exists [], [], id, Callee, (List.length (mod_globals (st_M s))).
  split; [reflexivity|]. split; auto. split; auto.
  rewrite HG; apply nth_error_last_global.
Qed.

Lemma log_of_is_log M name fmt FnNameStr pre val log :
  log_of M (mkGlobalVariable name true fmt) FnNameStr pre val log ->
  is_log M fmt FnNameStr log.
Proof.
  intros (casts & vals & id & Callee & g & -> & Hv & Hg & _).
  assert (Hs : Forall (fun c => isCast c = true) casts /\ List.length casts <= 1).
  { destruct val as [V|]; [destruct (widening V) as [[op T]|]|].
    - destruct Hv as (X & Hc & _). eapply cast_result_shape; eauto.
    - destruct Hv as (-> & _); simpl; split; [constructor | lia].
    - destruct Hv as (-> & _); simpl; split; [constructor | lia]. }
  destruct Hs as (Hs1 & Hs2).
  exists casts, (CallInst id Callee
                   (VGlobalVariable g :: FnNameStr :: pre ++ vals)), g.
  split; auto. split; auto. split; auto. split.
  - eexists _, _, _; reflexivity.
  - exists name; exact Hg.
Qed.

Lemma arg_logs_of_ext n M M' FnNameStr k Args L :
  mod_ext n M M' ->
  arg_logs_of M FnNameStr k Args L -> arg_logs_of M' FnNameStr k Args L.
Proof.
  intros HE H; induction H; constructor; auto. eapply log_of_ext; eauto.
Qed.

Lemma logArguments_detail FnNameStr Args :
  forall argIndex s s' e rest x L,
    logArguments FnNameStr Args argIndex s = Ok (tt, s') ->
    fn_blocks (st_F s)
      = insert_at (getFirstInsertionPt e) (x :: L) e :: rest ->
    getFirstInsertionPt e < List.length e ->
    isPHI x = false -> isEHPad x = false ->
    exists LA,
      arg_logs_of (st_M s') FnNameStr argIndex Args LA /\
      st_F s' = set_blocks (st_F s)
                  (insert_at (getFirstInsertionPt e) (LA ++ x :: L) e :: rest) /\
      mod_globals (st_M s')
      = mod_globals (st_M s) ++ map (fun A => arg_global (getType A)) Args /\
      mod_ext (List.length Args) (st_M s) (st_M s').
Proof.
  induction Args as [|Arg Args IH];
    intros argIndex s s' e rest x L H Hb Hlt Hx Hex.
  - simpl in H. inversion H; subst. exists []. split; [constructor|].
    split; [simpl; rewrite <- Hb, set_blocks_same; auto|].
    split; [simpl; rewrite app_nil_r; auto | apply mod_ext_refl].
  - simpl in H.
    inv_bind H as u1 s1 H1.
    apply IRBuilder_at_entry_inv in H1
      as (HM1 & HF1 & e1 & rest1 & Hb1 & HB1 & _).
    rewrite Hb in Hb1. inversion Hb1; subst e1 rest1; clear Hb1.
    assert (Hip : getFirstInsertionPt
                    (insert_at (getFirstInsertionPt e) (x :: L) e)
                  = getFirstInsertionPt e).
    { unfold insert_at. simpl. apply getFirstInsertionPt_stable; auto. }
    rewrite Hip in HB1.
    inv_bind H as u2 s2 H2. destruct u2.
    apply log_argument_detail in H2 as (log & (HF2 & HB2) & Hlog & HG2 & Hext).
    rewrite HF1, HB1, Hb in HF2. unfold splice in HF2; simpl in HF2.
    rewrite insert_at_front in HF2 by lia.
    destruct (is_log_shape _ _ _ _ (log_of_is_log _ _ _ _ _ _ _ Hlog))
      as (_ & _ & x' & l' & El & Hx' & Hex').
    rewrite El in HF2. simpl in HF2.
    apply IH with (e := e) (rest := rest) (x := x') (L := l' ++ x :: L) in H;
      auto.
    2:{ rewrite HF2; reflexivity. }
    destruct H as (LA & HLA & HF & HG & HE).
    exists (LA ++ log). split; [|split; [|split]].
    + constructor; auto. eapply log_of_ext; eauto.
    + rewrite HF, HF2, set_blocks_set_blocks, El.
      rewrite <- app_assoc; reflexivity.
    + rewrite HG, HG2, HM1, <- app_assoc. reflexivity.
    + rewrite HM1 in Hext. exact (mod_ext_trans _ _ _ _ _ Hext HE).
Qed.

Lemma logReturn_detail FnNameStr RI s s' :
  logReturn FnNameStr RI s = Ok (tt, s') ->
  exists init RetVal log,
    nth_error (fn_blocks (st_F s)) RI = Some (init ++ [ReturnInst RetVal]) /\
    log_of (st_M s') (ret_global RetVal) FnNameStr [] RetVal log /\
    st_F s' = set_blocks (st_F s)
                (update_nth RI (fun _ => init ++ log ++ [ReturnInst RetVal])
                   (fn_blocks (st_F s))) /\
    mod_globals (st_M s') = mod_globals (st_M s) ++ [ret_global RetVal] /\
    mod_ext 1 (st_M s) (st_M s').
Proof.
  unfold logReturn, getFunction; intros H.
  inv_bind H as F s0 H0. inversion H0; subst; clear H0.
  destruct (nth_error (fn_blocks (st_F s0)) RI) as [blk|] eqn:Eb;
    [|discriminate].
  inv_bind H as u1 s1 H1.
  apply IRBuilder_at_inv in H1 as (HM1 & HF1 & HB1 & _).
  destruct (getTerminator blk) as [T|] eqn:ET; [|discriminate].
  destruct T as [| | | |RetVal| | |]; try discriminate.
  apply getTerminator_inv in ET as (init & -> & _).
  assert (He : exists log,
             steps s1 log s' /\
             log_of (st_M s') (ret_global RetVal) FnNameStr [] RetVal log /\
             mod_globals (st_M s')
             = mod_globals (st_M s1) ++ [ret_global RetVal] /\
             mod_ext 1 (st_M s1) (st_M s')).
  { apply log_return_detail. destruct RetVal; exact H. }
  destruct He as (log & (HF2 & HB2) & Hlog & HG & Hext).
  exists init, RetVal, log. split; auto. split; auto.
  rewrite HM1 in *. split; [|split; auto].
  rewrite HF2, HF1, HB1. f_equal. unfold splice; simpl.
  apply update_nth_ext. intros b Hb. rewrite Eb in Hb; inversion Hb; subst.
  apply insert_at_end.
Qed.

Lemma returned_app init RetVal : returned (init ++ [ReturnInst RetVal]) = RetVal.
Proof. unfold returned. rewrite getTerminator_app. reflexivity. Qed.

Lemma logReturns_detail FnNameStr Returns :
  forall s s',
    NoDup Returns ->
    logReturns FnNameStr Returns s = Ok (tt, s') ->
    mod_globals (st_M s')
    = mod_globals (st_M s)
      ++ map (fun RI => ret_global (returned_at (fn_blocks (st_F s)) RI))
             Returns /\
    (forall i, In i Returns ->
       exists init RetVal log,
         nth_error (fn_blocks (st_F s)) i = Some (init ++ [ReturnInst RetVal]) /\
         log_of (st_M s') (ret_global RetVal) FnNameStr [] RetVal log /\
         nth_error (fn_blocks (st_F s')) i
         = Some (init ++ log ++ [ReturnInst RetVal])).
Proof.
  induction Returns as [|RI Returns IH]; intros s s' Hnd H.
  - simpl in H; inversion H; subst. simpl. rewrite app_nil_r.
    split; auto. intros i [].
  - simpl in H. inversion Hnd as [|? ? Hni Hnd']; subst.
    inv_bind H as u1 s1 H1. destruct u1.
    apply logReturn_detail in H1
      as (init & RetVal & log & Hb & Hlog & HF1 & HG1 & HE1).
    pose proof H as H'.
    apply logReturns_inv in H' as (_ & _ & HE & Hout & _); auto.
    apply IH in H as (HG & Hin); auto.
    assert (Hbs : fn_blocks (st_F s1)
                  = update_nth RI (fun _ => init ++ log ++ [ReturnInst RetVal])
                      (fn_blocks (st_F s)))
      by (rewrite HF1; reflexivity).
    split.
    + rewrite HG, HG1, <- app_assoc. simpl. f_equal. f_equal.
      * unfold returned_at. rewrite Hb, returned_app. reflexivity.
      * apply map_ext_in. intros i Hi. unfold returned_at.
        rewrite Hbs, nth_error_update_nth_neq; auto. intros ->; auto.
    + intros i [->|Hi].
      * exists init, RetVal, log. split; auto.
        split; [eapply log_of_ext; eauto|].
        rewrite Hout by auto. rewrite Hbs, nth_error_update_nth_eq, Hb.
        reflexivity.
      * destruct (Hin i Hi) as (init' & RetVal' & log' & Hb' & Hlog' & Hn').
        exists init', RetVal', log'. split; auto.
        rewrite <- Hb', Hbs. symmetry. apply nth_error_update_nth_neq.
        intros ->; auto.
Qed.

Lemma collectReturns_sites bs : forall pre Returns,
  collectReturns bs (List.length pre) = Ok Returns ->
  map (returned_at (pre ++ bs)) Returns = return_sites bs.
Proof.
  induction bs as [|b bs IH]; intros pre Returns H; simpl in H.
  - inversion H; reflexivity.
  - destruct (getTerminator b) as [T|] eqn:ET; [|discriminate].
    destruct (collectReturns bs (S (List.length pre))) as [R'|] eqn:ER;
      [|discriminate].
    assert (IH' : map (returned_at (pre ++ b :: bs)) R' = return_sites bs).
    { replace (pre ++ b :: bs) with ((pre ++ [b]) ++ bs)
        by (rewrite <- app_assoc; reflexivity).
      apply IH. rewrite length_app; simpl.
      replace (List.length pre + 1) with (S (List.length pre)) by lia.
      exact ER. }
    unfold return_sites in *; simpl. unfold is_return_block at 1. rewrite ET.
    destruct T; inversion H; subst; clear H; auto.
    simpl. rewrite IH'. f_equal.
    unfold returned_at. rewrite nth_error_app2, Nat.sub_diag by lia.
    reflexivity.
Qed.

Lemma return_phase_detail FnNameStr s Returns s1 s' :
  getReturns s = Ok (Returns, s1) ->
  logReturns FnNameStr Returns s1 = Ok (tt, s') ->
  Forall2 (ret_logged_of (st_M s') FnNameStr)
          (fn_blocks (st_F s)) (fn_blocks (st_F s')) /\
  mod_globals (st_M s')
  = mod_globals (st_M s) ++ map ret_global (return_sites (fn_blocks (st_F s))).
Proof.
  unfold getReturns. intros HR HL.
  destruct (collectReturns (fn_blocks (st_F s)) 0) as [R|] eqn:EC;
    [|discriminate].
  inversion HR; subst; clear HR.
  pose proof (collectReturns_sites _ [] _ EC) as Hsites. simpl in Hsites.
  apply collectReturns_inv in EC as (Hnd & Hlen & Hin & Hall).
  pose proof HL as HL'.
  apply logReturns_inv in HL' as (HF & HLn & HE & Hout & _); auto.
  apply logReturns_detail in HL as (HG & Hlog); auto.
  split.
  - apply Forall2_nth; auto.
    intros i b b' Hb Hb'. unfold ret_logged_of.
    destruct (is_return_block b) eqn:Er.
    + specialize (Hall i b Hb Er); simpl in Hall.
      destruct (Hlog i Hall) as (init & RetVal & log & Hn & Hl & Hn').
      rewrite Hb in Hn; inversion Hn; subst b.
      rewrite Hb' in Hn'; inversion Hn'; subst b'.
      rewrite getTerminator_app; simpl. eauto.
    + assert (Hni : ~ In i Returns).
      { intros Hi. destruct (Hin i Hi) as (_ & blk & Hn & Hr).
        rewrite Nat.sub_0_r, Hb in Hn; inversion Hn; subst. congruence. }
      rewrite (Hout i Hni), Hb in Hb'. inversion Hb'; subst.
      unfold is_return_block in Er.
      destruct (getTerminator b') as [[]|]; auto; discriminate.
  - rewrite HG, <- Hsites, map_map. reflexivity.
Qed.

Lemma collectReturns_terminators bs : forall k Returns,
  collectReturns bs k = Ok Returns ->
  Forall (fun b => has_terminator b = true) bs.
Proof.
  induction bs as [|b bs IH]; intros k Returns H; simpl in H; constructor.
  - unfold has_terminator. destruct (getTerminator b); [auto | discriminate].
  - destruct (getTerminator b); [|discriminate].
    destruct (collectReturns bs (S k)) eqn:E; [|discriminate]. eauto.
Qed.

Lemma args_from_types Ts : forall n, map getType (args_from n Ts) = Ts.
Proof. induction Ts as [|T Ts IH]; intros n; simpl; [|rewrite IH]; auto. Qed.

Lemma return_sites_insert_at pt L e rest :
  pt < List.length e ->
  return_sites (insert_at pt L e :: rest) = return_sites (e :: rest).
Proof.
  intros Hlt. unfold return_sites; simpl.
  assert (Hr : is_return_block (insert_at pt L e) = is_return_block e)
    by (unfold is_return_block; rewrite getTerminator_insert_at; auto).
  rewrite Hr. destruct (is_return_block e); auto.
  simpl. unfold returned. rewrite getTerminator_insert_at by auto. reflexivity.
Qed.

(** The whole of a successful run, with the operands of every log and
    the globals in the order of their creation. *)
Lemma run_detail M F PA M' F' :
  isSkippableFunction F = false ->
  run M F = Ok (PA, (M', F')) ->
  exists e rest enter LA id Callee,
    fn_blocks F = e :: rest /\
    getFirstInsertionPt e < List.length e /\
    enter = CallInst id Callee
              [VGlobalVariable (List.length (mod_globals M) + 1);
               VGlobalVariable (List.length (mod_globals M))] /\
    getNamedValue M' "printf" = Some Callee /\
    arg_logs_of M' (VGlobalVariable (List.length (mod_globals M))) 0
                (args F) LA /\
    Forall2 (ret_logged_of M' (VGlobalVariable (List.length (mod_globals M))))
      (insert_at (getFirstInsertionPt e) (LA ++ [enter]) e :: rest)
      (fn_blocks F') /\
    mod_globals M'
    = mod_globals M
      ++ mkGlobalVariable ("__logger.fn." ++ fn_name F) true (fn_name F)
      :: mkGlobalVariable "__logger.fmt.enter" true fmt_enter
      :: map arg_global (fn_params F)
      ++ map ret_global (return_sites (fn_blocks F)) /\
    Forall (fun b => has_terminator b = true) (fn_blocks F).
Proof.
  intros Hskip H. unfold run in H. rewrite Hskip in H.
  destruct (instrument (mkState M F (mkBuilder 0 0))) as [[PA0 sf]|] eqn:EI;
    [|discriminate].
  inversion H; subst PA0 M' F'; clear H.
  unfold instrument in EI.
  inv_bind EI as u1 s1 H1.
  apply IRBuilder_at_entry_inv in H1 as (HM1 & HF1 & e & rest & Hb & HB1 & Hlt).
  simpl in HM1, HF1, Hb.
  inv_bind EI as FnNameStr s2 H2.
  unfold getFunctionNameGlobal, getFunction in H2.
  inv_bind H2 as F0 s1' H2'. inversion H2'; subst F0 s1'; clear H2'.
  apply CreateGlobalStringPtr_inv in H2 as (HF2 & HB2 & HFn2 & HG2 & ->).
  rewrite HM1, HF1 in *.
  inv_bind EI as u3 s3 H3. destruct u3.
  unfold emitPrintfEnter in H3.
  apply emit_call_detail in H3 as (id & Callee & (HF3 & HB3) & HG3 & Hl3 & HE3).
  rewrite HF2, HB2, HB1, Hb in HF3. unfold splice in HF3; simpl in HF3.
  assert (Hlen2 : List.length (mod_globals (st_M s2))
                  = List.length (mod_globals M) + 1)
    by (rewrite HG2, length_app; reflexivity).
  rewrite Hlen2 in HF3.
  set (enter := CallInst id Callee
                  [VGlobalVariable (List.length (mod_globals M) + 1);
                   VGlobalVariable (List.length (mod_globals M))]) in *.
  inv_bind EI as F3 s3' H4. inversion H4; subst F3 s3'; clear H4.
  inv_bind EI as u5 s5 H5. destruct u5.
  apply logArguments_detail with (e := e) (rest := rest) (x := enter) (L := [])
    in H5; auto.
  2:{ rewrite HF3; reflexivity. }
  destruct H5 as (LA & HLA & HF5 & HG5 & HE5).
  inv_bind EI as Returns s6 H6.
  inv_bind EI as u7 s7 H7. destruct u7.
  inversion EI; subst PA sf; clear EI.
  destruct (return_phase _ _ _ _ _ H6 H7) as (_ & _ & HE7).
  destruct (return_phase_detail _ _ _ _ _ H6 H7) as (HFa & HG7).
  assert (Hb5 : fn_blocks (st_F s5)
                = insert_at (getFirstInsertionPt e) (LA ++ [enter]) e :: rest)
    by (rewrite HF5; reflexivity).
  exists e, rest, enter, LA, id, Callee.
  split; auto. split; auto. split; auto.
  split; [eapply getNamedValue_ext;
          [exact (mod_ext_trans _ _ _ _ _ HE5 HE7) | exact Hl3]|].
  split.
  { eapply arg_logs_of_ext; [exact HE7|].
    replace (args F) with (args (st_F s3)); auto.
    unfold args; rewrite HF3; reflexivity. }
  split; [rewrite <- Hb5; exact HFa|]. split.
  - rewrite HG7, HG5, HG3, HG2, Hb5, return_sites_insert_at by auto.
    rewrite Hb. rewrite <- !app_assoc. simpl. f_equal. f_equal. f_equal. f_equal.
    rewrite <- (map_map getType arg_global). unfold args.
    rewrite HF3; simpl. rewrite args_from_types. reflexivity.
  - unfold getReturns in H6.
    destruct (collectReturns (fn_blocks (st_F s5)) 0) as [R|] eqn:EC;
      [|discriminate].
    apply collectReturns_terminators in EC. rewrite Hb5 in EC.
    rewrite Hb. inversion EC as [|? ? He Hr]; subst. constructor; auto.
    unfold has_terminator in *.
    rewrite getTerminator_insert_at in He by auto. exact He.
Qed.

(** ** When a run completes *)

Lemma cast_result_ok op V T casts X :
  cast_result op V T casts X -> cast_ok op V T = true.
Proof.
  unfold cast_ok.
  intros [(E & _)|[(_ & E & _)|(_ & E & Hvalid & _)]]; rewrite E; auto.
  - apply orb_true_r.
  - rewrite Hvalid. apply orb_true_r.
Qed.

Lemma log_of_widens M G FnNameStr pre V log :
  log_of M G FnNameStr pre (Some V) log -> widens V = true.
Proof.
  intros (casts & vals & id & Callee & g & _ & Hv & _).
  unfold widens. destruct (widening V) as [[op T]|]; auto.
  destruct Hv as (X & Hc & _). exact (cast_result_ok _ _ _ _ _ Hc).
Qed.

Lemma arg_logs_of_widens M FnNameStr k Args LA :
  arg_logs_of M FnNameStr k Args LA ->
  Forall (fun A => widens A = true) Args.
Proof.
  induction 1; constructor; auto. eapply log_of_widens; eauto.
Qed.

Lemma ret_logged_of_widens M FnNameStr b b' :
  ret_logged_of M FnNameStr b b' -> return_widens b = true.
Proof.
  unfold ret_logged_of, return_widens.
  destruct (getTerminator b) as [T|]; auto. destruct T; auto.
  destruct RetVal as [V|]; auto.
  intros (init & log & _ & Hlog & _). eapply log_of_widens; eauto.
Qed.

Lemma Forall2_Forall_l {A B} (R : A -> B -> Prop) (P : A -> Prop) l l' :
  (forall a b, R a b -> P a) -> Forall2 R l l' -> Forall P l.
Proof. intros H; induction 1; constructor; eauto. Qed.

Lemma args_from_widens Ts : forall n,
  Forall (fun A => widens A = true) (args_from n Ts) ->
  Forall (fun T => castable T = true) Ts.
Proof.
  induction Ts as [|T Ts IH]; intros n H; simpl in *; constructor;
    inversion H; subst; eauto.
  rewrite <- (widens_argument n T); assumption.
Qed.

(** What a completed run tells about the function it was given. *)
Lemma run_conditions M F PA M' F' :
  isSkippableFunction F = false ->
  run M F = Ok (PA, (M', F')) ->
  Forall (fun b => has_terminator b = true) (fn_blocks F) /\
  Forall (fun T => castable T = true) (fn_params F) /\
  Forall (fun b => return_widens b = true) (fn_blocks F).
Proof.
  intros Hs H.
  destruct (run_detail _ _ _ _ _ Hs H)
    as (e & rest & enter & LA & id & Callee & Hb & Hlt & _ & _ & HLA & HF2
        & _ & HT).
  split; auto. split.
  - apply arg_logs_of_widens in HLA. unfold args in HLA.
    exact (args_from_widens _ _ HLA).
  - rewrite Hb.
    pose proof (Forall2_Forall_l _ (fun b => return_widens b = true) _ _
                  (ret_logged_of_widens _ _) HF2) as HR.
    inversion HR as [|? ? He Hr]; subst. constructor; auto.
    unfold return_widens in *.
    rewrite getTerminator_insert_at in He by auto. exact He.
Qed.

(** X1: a run on a function that is not skipped completes, with the
    empty set of preserved analyses as result, whenever every block
    ends in a terminator and every parameter and every returned value
    has a type the helpers can widen: an integer of at most 64 bits, a
    floating-point type no wider than [double], a pointer, or a type of
    the catch-all class.  No cast the pass asks for is then an invalid
    one, whatever the module holds. *)
Theorem X1_run_completes_on_widenable_types M F :
  isSkippableFunction F = false ->
  Forall (fun b => has_terminator b = true) (fn_blocks F) ->
  Forall (fun T => castable T = true) (fn_params F) ->
  Forall (fun b => return_castable b = true) (fn_blocks F) ->
  exists M' F', run M F = Ok (PA_none, (M', F')).
Proof.
  intros Hs HT HP HR. apply run_completes_widens; auto.
  eapply Forall_impl; [|exact HR]. exact return_castable_widens.
Qed.

Lemma X1_witness :
  isSkippableFunction pick_fn = false /\
  Forall (fun b => has_terminator b = true) (fn_blocks pick_fn) /\
  Forall (fun T => castable T = true) (fn_params pick_fn) /\
  Forall (fun b => return_castable b = true) (fn_blocks pick_fn) /\
  exists M' F', run pick_module pick_fn = Ok (PA_none, (M', F')).
Proof.
  assert (HT : Forall (fun b => has_terminator b = true) (fn_blocks pick_fn))
    by (repeat constructor).
  assert (HP : Forall (fun T => castable T = true) (fn_params pick_fn))
    by (repeat constructor).
  assert (HR : Forall (fun b => return_castable b = true) (fn_blocks pick_fn))
    by (repeat constructor).
  split; [reflexivity|]. split; [exact HT|]. split; [exact HP|].
  split; [exact HR|].
  exact (X1_run_completes_on_widenable_types pick_module pick_fn
           eq_refl HT HP HR).
Defined.

(** ** What a run adds to the module *)

Lemma arg_global_name T :
  gv_constant (arg_global T) = true /\
  String.prefix "__logger.fmt.arg." (gv_name (arg_global T)) = true /\
  String.eqb (gv_name (arg_global T)) "printf" = false.
Proof.
  unfold arg_global, arg_gname. destruct (classify T); repeat split.
Qed.

Lemma ret_global_name RetVal :
  gv_constant (ret_global RetVal) = true /\
  String.prefix "__logger.fmt.ret." (gv_name (ret_global RetVal)) = true /\
  String.eqb (gv_name (ret_global RetVal)) "printf" = false.
Proof.
  unfold ret_global, ret_gname.
  destruct RetVal as [V|]; [destruct (classify (getType V))|]; repeat split.
Qed.

(** X2: the globals a run on a function appends to the module, in the
    order of their creation: the name of the function, the entry
    format, one format per parameter in the order of the parameters, and
    one format per return site in the order of the blocks; the globals
    the module had stay where they were.  Every new global is a
    constant, and none is named [printf]. *)
Theorem X2_globals_created M F PA M' F' :
  isSkippableFunction F = false ->
  run M F = Ok (PA, (M', F')) ->
  mod_globals M'
  = mod_globals M
    ++ mkGlobalVariable ("__logger.fn." ++ fn_name F) true (fn_name F)
    :: mkGlobalVariable "__logger.fmt.enter" true fmt_enter
    :: map arg_global (fn_params F)
    ++ map ret_global (return_sites (fn_blocks F)) /\
  List.length (return_sites (fn_blocks F)) = num_returns (fn_blocks F) /\
  (forall G, In G (skipn (List.length (mod_globals M)) (mod_globals M')) ->
             gv_constant G = true /\
             String.eqb (gv_name G) "printf" = false).
Proof.
  intros Hs H.
  destruct (run_detail _ _ _ _ _ Hs H)
    as (e & rest & enter & LA & id & Callee & _ & _ & _ & _ & _ & _ & HG & _).
  split; [exact HG|]. split.
  - unfold return_sites, num_returns. apply length_map.
  - rewrite HG, skipn_app, skipn_all, Nat.sub_diag. simpl.
    intros G [<-|[<-|Hin]]; [split; reflexivity | split; reflexivity|].
    apply in_app_or in Hin as [Hin|Hin]; apply in_map_iff in Hin
      as (x & <- & _).
    + destruct (arg_global_name x) as (Hc & _ & Hn); auto.
    + destruct (ret_global_name x) as (Hc & _ & Hn); auto.
Qed.

Lemma X2_witness :
  isSkippableFunction pick_fn = false /\
  run pick_module pick_fn = Ok (PA_none, pick_result) /\
  mod_globals (fst pick_result)
  = [ mkGlobalVariable "__logger.fn.pick" true "pick";
      mkGlobalVariable "__logger.fmt.enter" true fmt_enter;
      mkGlobalVariable "__logger.fmt.arg.i" true fmt_arg_i;
      mkGlobalVariable "__logger.fmt.ret.i" true fmt_ret_i;
      mkGlobalVariable "__logger.fmt.ret.i" true fmt_ret_i ].
Proof.
  split; [reflexivity|]. split; [exact run_pick|].
  exact (proj1 (X2_globals_created pick_module pick_fn PA_none
                  (fst pick_result) (snd pick_result) eq_refl run_pick)).
Defined.

(** ** The operands of the logs in the function *)

Lemma ret_logged_of_cases M FnNameStr b b' :
  ret_logged_of M FnNameStr b b' ->
  (exists RetVal init log,
     b = init ++ [ReturnInst RetVal] /\
     log_of M (ret_global RetVal) FnNameStr [] RetVal log /\
     b' = init ++ log ++ [ReturnInst RetVal]) \/
  (is_return_block b = false /\ b' = b).
Proof.
  unfold ret_logged_of, is_return_block.
  destruct (getTerminator b) as [T|]; [destruct T|]; auto.
  intros (init & log & H); left; eauto.
Qed.

(** The entry block of the function a run returns, with the operands of
    the logs. *)
Lemma entry_layout_detail M F PA M' F' :
  isSkippableFunction F = false ->
  run M F = Ok (PA, (M', F')) ->
  exists e rest enter LA tail rest',
    fn_blocks F = e :: rest /\
    fn_blocks F'
    = (firstn (getFirstInsertionPt e) e ++ LA ++ enter :: tail) :: rest' /\
    arg_logs_of M' (VGlobalVariable (List.length (mod_globals M))) 0
                (args F) LA.
Proof.
  intros Hs H.
  destruct (run_detail _ _ _ _ _ Hs H)
    as (e & rest & enter & LA & id & Callee & Hb & Hlt & _ & _ & HLA & HF2 & _).
  inversion HF2 as [|b1 b' l1 rest' Hhead Htail]; subst.
  destruct (ret_logged_of_cases _ _ _ _ Hhead)
    as [(RetVal & init & log & E & _ & ->)|(_ & ->)].
  - assert (Hne : skipn (getFirstInsertionPt e) e <> []).
    { intros Hnil. apply (f_equal (@List.length _)) in Hnil.
      rewrite length_skipn in Hnil; simpl in Hnil. lia. }
    destruct (exists_last Hne) as (q & t & Eq).
    unfold insert_at in E. rewrite Eq in E.
    replace (firstn (getFirstInsertionPt e) e ++ (LA ++ [enter]) ++ q ++ [t])
      with ((firstn (getFirstInsertionPt e) e ++ LA ++ enter :: q) ++ [t]) in E
      by (rewrite <- !app_assoc; reflexivity).
    apply app_inj_tail in E as (<- & _).
    exists e, rest, enter, LA, (q ++ log ++ [ReturnInst RetVal]), rest'.
    split; auto. split; auto.
    f_equal. rewrite <- !app_assoc; reflexivity.
  - exists e, rest, enter, LA, (skipn (getFirstInsertionPt e) e), rest'.
    split; auto. split; auto.
    f_equal. unfold insert_at. rewrite <- !app_assoc; reflexivity.
Qed.

Lemma arg_logs_of_nth M FnNameStr k0 Args LA :
  arg_logs_of M FnNameStr k0 Args LA ->
  forall j Arg,
    nth_error Args j = Some Arg ->
    exists pre log post,
      LA = pre ++ log ++ post /\
      log_of M (arg_global (getType Arg)) FnNameStr
             [getInt32 (k0 + Z.of_nat j)] (Some Arg) log.
Proof.
  induction 1 as [|k Arg0 rest log L Hlog _ IH]; intros j Arg Hn.
  - destruct j; discriminate.
  - destruct j as [|j]; simpl in Hn.
    + inversion Hn; subst. exists L, log, []. rewrite app_nil_r.
      split; auto. rewrite Z.add_0_r. exact Hlog.
    + destruct (IH j Arg Hn) as (pre & log' & post & -> & Hlog').
      exists pre, log', (post ++ log). split.
      * rewrite <- !app_assoc; reflexivity.
      * replace (k + Z.of_nat (S j))%Z with (k + 1 + Z.of_nat j)%Z by lia.
        exact Hlog'.
Qed.

Lemma args_from_nth Ts : forall n j T,
  nth_error Ts j = Some T ->
  nth_error (args_from n Ts) j = Some (VArgument (n + j) T).
Proof.
  induction Ts as [|T0 Ts IH]; intros n j T H; destruct j; simpl in *;
    try discriminate.
  - inversion H; subst. rewrite Nat.add_0_r. reflexivity.
  - rewrite (IH (S n) j T H). f_equal. f_equal. lia.
Qed.

(** X3: in the function a run returns, every parameter has its log in
    the entry block: the cast the builder made for it, if any, followed
    by a call of [printf] on the format global of the class of the
    parameter, the name of the function, the index of the parameter as
    a 32-bit constant and, unless the class is the catch-all one, the
    parameter as the builder widened it. *)
Theorem X3_argument_log_operands M F PA M' F' :
  isSkippableFunction F = false ->
  run M F = Ok (PA, (M', F')) ->
  forall k T,
    nth_error (fn_params F) k = Some T ->
    exists pre log post,
      hd [] (fn_blocks F') = pre ++ log ++ post /\
      log_of M' (arg_global T) (VGlobalVariable (List.length (mod_globals M)))
             [getInt32 (Z.of_nat k)] (Some (VArgument k T)) log.
Proof.
  intros Hs H k T Hk.
  destruct (entry_layout_detail _ _ _ _ _ Hs H)
    as (e & rest & enter & LA & tail & rest' & _ & HF' & HLA).
  pose proof (args_from_nth _ 0 _ _ Hk) as Hn.
  destruct (arg_logs_of_nth _ _ _ _ _ HLA k _ Hn)
    as (pre & log & post & -> & Hlog).
  exists (firstn (getFirstInsertionPt e) e ++ pre), log,
         (post ++ enter :: tail).
  split; [|exact Hlog].
  rewrite HF'. simpl. rewrite <- !app_assoc. reflexivity.
Qed.

Lemma X3_witness :
  isSkippableFunction add_fn = false /\
  run add_module add_fn = Ok (PA_none, (add_module_logged, add_fn_logged)) /\
  nth_error (fn_params add_fn) 1 = Some i32 /\
  exists pre log post,
    hd [] (fn_blocks add_fn_logged) = pre ++ log ++ post /\
    log_of add_module_logged (arg_global i32)
           (VGlobalVariable (List.length (mod_globals add_module)))
           [getInt32 (Z.of_nat 1)] (Some (VArgument 1 i32)) log.
Proof.
  split; [reflexivity|]. split; [exact run_add|]. split; [reflexivity|].
  exact (X3_argument_log_operands add_module add_fn PA_none
           add_module_logged add_fn_logged eq_refl run_add 1 i32 eq_refl).
Defined.

Lemma Forall2_nth_l {A B} (R : A -> B -> Prop) l l' i a :
  Forall2 R l l' -> nth_error l i = Some a ->
  exists b, nth_error l' i = Some b /\ R a b.
Proof.
  intros H; revert i; induction H as [|x y l l' Hxy _ IH]; intros [|i] Hn;
    simpl in *; try discriminate.
  - inversion Hn; subst; eauto.
  - eauto.
Qed.

(** ** The callee of the logs *)

Lemma find_global_app name k l l' :
  find_global name k (l ++ l')
  = match find_global name k l with
    | Some i => Some i
    | None => find_global name (k + List.length l) l'
    end.
Proof.
  revert k; induction l as [|G r IH]; simpl; intros k.
  - rewrite Nat.add_0_r; reflexivity.
  - destruct (gv_name G =? name)%string; auto.
    rewrite IH. replace (S k + List.length r) with (k + S (List.length r))
      by lia. reflexivity.
Qed.

Lemma find_global_none name k l :
  Forall (fun G => String.eqb (gv_name G) name = false) l ->
  find_global name k l = None.
Proof.
  intros H; revert k; induction H as [|G r HG _ IH]; intros k; simpl; auto.
  rewrite HG; auto.
Qed.

(** X6: [getOrInsertPrintf] always returns a value; the module then
    knows that value as [printf], a second call returns the same value
    and changes nothing, and neither call touches the function under
    rewrite, the builder or the globals. *)
Theorem X6_getOrInsertPrintf_idempotent s :
  exists v s',
    getOrInsertPrintf s = Ok (v, s') /\
    getNamedValue (st_M s') "printf" = Some v /\
    getOrInsertPrintf s' = Ok (v, s') /\
    st_F s' = st_F s /\ st_B s' = st_B s /\
    mod_globals (st_M s') = mod_globals (st_M s) /\
    (forall w, getNamedValue (st_M s) "printf" = Some w -> v = w /\ s' = s).
Proof.
  destruct (getOrInsertPrintf_succeeds s) as (v & s' & H & HF & HB).
  exists v, s'. pose proof (getOrInsertPrintf_lookup _ _ _ H) as Hl.
  split; auto. split; auto. split.
  { unfold getOrInsertPrintf, getOrInsertFunction. rewrite Hl. reflexivity. }
  split; auto. split; auto.
  apply getOrInsertPrintf_inv in H as H'. destruct H' as (_ & _ & HG & _).
  split; auto.
  intros w Hw. unfold getOrInsertPrintf, getOrInsertFunction in H.
  rewrite Hw in H. inversion H; subst; auto.
Qed.

(** ** A second run *)

Lemma run_not_skippable M F PA M' F' :
  isSkippableFunction F = false ->
  run M F = Ok (PA, (M', F')) ->
  isSkippableFunction F' = false.
Proof.
  intros Hs H. destruct (run_blocks_related _ _ _ _ _ Hs H) as (HF & HB).
  rewrite HF. unfold isSkippableFunction, isDeclaration, isIntrinsic in *.
  simpl. destruct (fn_blocks F) as [|e rest] eqn:Eb; [discriminate|].
  inversion HB; subst. exact Hs.
Qed.

Lemma Forall2_Forall_transfer {A} (R : A -> A -> Prop) (P : A -> Prop) l l' :
  (forall a b, R a b -> P a -> P b) -> Forall2 R l l' -> Forall P l ->
  Forall P l'.
Proof.
  intros H H2; induction H2; intros HP; inversion HP; subst; constructor; eauto.
Qed.

(** X7: the pass does not recognise its own work.  When a run on a
    function that is not skipped has completed, a run on its result, in
    the module the first run left, completes as well and logs
    everything a second time: the function gains once more one call
    for the entry, one per parameter and one per return site, the module
    gains once more as many globals as in the first run, and no function
    is added to the module. *)
Theorem X7_second_run_logs_again M F PA M1 F1 :
  isSkippableFunction F = false ->
  run M F = Ok (PA, (M1, F1)) ->
  exists M2 F2,
    run M1 F1 = Ok (PA_none, (M2, F2)) /\
    count_calls (List.concat (fn_blocks F2))
    = count_calls (List.concat (fn_blocks F))
      + 2 * (1 + List.length (fn_params F) + num_returns (fn_blocks F)) /\
    List.length (mod_globals M2)
    = List.length (mod_globals M)
      + 2 * (2 + List.length (fn_params F) + num_returns (fn_blocks F)) /\
    mod_functions M2 = mod_functions M1.
Proof.
  intros Hs H.
  destruct (run_conditions _ _ _ _ _ Hs H) as (HT & HP & HR).
  destruct (run_blocks_related _ _ _ _ _ Hs H) as (HF & HB).
  pose proof (run_not_skippable _ _ _ _ _ Hs H) as Hs1.
  assert (HP1 : fn_params F1 = fn_params F) by (rewrite HF; reflexivity).
  assert (HT1 : Forall (fun b => has_terminator b = true) (fn_blocks F1)).
  { refine (Forall2_Forall_transfer _ _ _ _ _ HB HT).
    intros b b' (Ht & _) Hb. unfold has_terminator in *.
    rewrite Ht; exact Hb. }
  assert (HR1 : Forall (fun b => return_widens b = true) (fn_blocks F1)).
  { refine (Forall2_Forall_transfer _ _ _ _ _ HB HR).
    intros b b' (Ht & _) Hb. unfold return_widens in *.
    rewrite Ht; exact Hb. }
  rewrite <- HP1 in HP.
  destruct (run_completes_widens M1 F1 Hs1 HT1 HP HR1) as (M2 & F2 & H2).
  exists M2, F2. split; auto.
  pose proof (run_call_count _ _ _ _ _ Hs H) as Hc1.
  pose proof (run_call_count _ _ _ _ _ Hs1 H2) as Hc2.
  rewrite (num_returns_same _ _ HB), HP1 in Hc2.
  split; [lia|].
  destruct (run_structure _ _ _ _ _ Hs H)
    as (_ & _ & _ & _ & _ & _ & _ & _ & _ & _ & _ & _ & HE1 & _).
  destruct (run_structure _ _ _ _ _ Hs1 H2)
    as (_ & _ & _ & _ & _ & _ & _ & _ & _ & _ & _ & _ & HE2 & _).
  rewrite (num_returns_same _ _ HB), HP1 in HE2.
  destruct HE1 as [(gs1 & HG1 & HL1) _].
  destruct (run_detail _ _ _ _ _ Hs H)
    as (_ & _ & _ & _ & _ & Callee & _ & _ & _ & Hl1 & _).
  destruct HE2 as [(gs2 & HG2 & HL2) [E|[N _]]]; [|congruence].
  split; [|exact E].
  rewrite HG2, HG1, !length_app. lia.
Qed.

Lemma X7_witness :
  isSkippableFunction add_fn = false /\
  run add_module add_fn = Ok (PA_none, (add_module_logged, add_fn_logged)) /\
  exists M2 F2,
    run add_module_logged add_fn_logged = Ok (PA_none, (M2, F2)) /\
    count_calls (List.concat (fn_blocks F2)) = 0 + 2 * (1 + 2 + 1) /\
    List.length (mod_globals M2) = 0 + 2 * (2 + 2 + 1) /\
    mod_functions M2 = mod_functions add_module_logged.
Proof.
  split; [reflexivity|]. split; [exact run_add|].
  exact (X7_second_run_logs_again add_module add_fn PA_none
           add_module_logged add_fn_logged eq_refl run_add).
Defined.

(** ** The instructions a run inserts *)

Lemma inserted_with_refl P b : inserted_with P b b.
Proof. induction b; constructor; auto. Qed.

Lemma inserted_with_front P L b b' :
  Forall P L -> inserted_with P b b' -> inserted_with P b (L ++ b').
Proof.
  intros HL Hb; induction HL; simpl; [exact Hb | constructor; auto].
Qed.

Lemma inserted_with_middle P a L c :
  Forall P L -> inserted_with P (a ++ c) (a ++ L ++ c).
Proof.
  intros HL; induction a as [|x a IH]; simpl.
  - apply inserted_with_front; auto using inserted_with_refl.
  - constructor; exact IH.
Qed.

Lemma inserted_with_insert_at P pt L e :
  Forall P L -> inserted_with P e (insert_at pt L e).
Proof.
  intros HL. unfold insert_at.
  rewrite <- (firstn_skipn pt e) at 1. apply inserted_with_middle; exact HL.
Qed.

Lemma inserted_with_trans P a b c :
  inserted_with P a b -> inserted_with P b c -> inserted_with P a c.
Proof.
  intros Hab Hbc; revert a Hab.
  induction Hbc as [|x b c Hbc IH|y b c Hy Hbc IH]; intros a Hab.
  - exact Hab.
  - inversion Hab; subst; constructor; auto.
  - constructor; auto.
Qed.

(** The builder makes a cast only of the three kinds: the cases in which
    [CreateZExtOrBitCast] and [CreatePointerCast] would ask for a bit
    cast are those in which the types agree already. *)
Lemma log_of_instructions M G FnNameStr pre val log Callee :
  log_of M G FnNameStr pre val log ->
  getNamedValue M "printf" = Some Callee ->
  Forall (log_instruction Callee) log.
Proof.
  intros (casts & vals & id & Callee' & g & -> & Hv & _ & HC) HC'.
  assert (Callee' = Callee) by congruence; subst Callee'.
  apply Forall_app; split.
  2:{ constructor; [|constructor]. left; eauto. }
  destruct val as [V|]; [|destruct Hv as (-> & _); constructor].
  unfold widening, classify in Hv.
  destruct (isPointerTy (getType V)) eqn:EP;
    [|destruct (isIntegerTy (getType V)) eqn:EI;
      [|destruct (isFloatingPointTy (getType V)) eqn:EF]].
  - destruct Hv as (X & [(_ & -> & _)|[(_ & _ & ->)
                         |(Hne & _ & Hv & cid & -> & _)]] & _);
      try constructor; [|constructor].
    right; right; right. exists cid, V. split; [|exact EP].
    destruct (getType V); try discriminate. simpl in *.
    unfold ptr_cast_op, Int8PtrTy. rewrite Hne. reflexivity.
  - destruct Hv as (X & [(_ & -> & _)|[(_ & _ & ->)
                         |(Hne & _ & Hv & cid & -> & _)]] & _);
      try constructor; [|constructor].
    right; left. exists cid, V. split; [|exact EI].
    destruct (getType V); try discriminate. simpl in *.
    unfold int_cast_op, Int64Ty. simpl. rewrite Hne. reflexivity.
  - destruct Hv as (X & [(_ & -> & _)|[(_ & _ & ->)
                         |(Hne & _ & Hv & cid & -> & _)]] & _);
      try constructor; [|constructor].
    right; right; left. exists cid, V. split; [reflexivity | exact EF].
  - destruct Hv as (-> & _); constructor.
Qed.

Lemma arg_logs_of_instructions M FnNameStr k Args LA Callee :
  arg_logs_of M FnNameStr k Args LA ->
  getNamedValue M "printf" = Some Callee ->
  Forall (log_instruction Callee) LA.
Proof.
  intros H HC; induction H as [|k Arg rest log L Hlog _ IH]; [constructor|].
  apply Forall_app; split; [exact IH|].
  exact (log_of_instructions _ _ _ _ _ _ _ Hlog HC).
Qed.

Lemma ret_logged_of_split M FnNameStr b b' :
  ret_logged_of M FnNameStr b b' ->
  b' = b \/
  exists log G val,
    log_of M G FnNameStr [] val log /\
    b' = insert_at (List.length b - 1) log b /\
    has_terminator b = true.
Proof.
  unfold ret_logged_of, has_terminator.
  destruct (getTerminator b) as [[| | | |RetVal| | |]|] eqn:E; auto.
  intros (init & log & Hb & Hlog & Hb'). right.
  exists log, (ret_global RetVal), RetVal. split; [exact Hlog|].
  split; [|reflexivity].
  rewrite Hb' . rewrite Hb at 1 2. symmetry. apply insert_at_end.
Qed.

(** Every block of the result is the old block with instructions of
    the logs put in. *)
Lemma run_inserted_with M F PA M' F' :
  isSkippableFunction F = false ->
  run M F = Ok (PA, (M', F')) ->
  exists Callee,
    getNamedValue M' "printf" = Some Callee /\
    Forall2 (inserted_with (log_instruction Callee))
            (fn_blocks F) (fn_blocks F').
Proof.
  intros Hs H.
  destruct (run_detail _ _ _ _ _ Hs H)
    as (e & rest & enter & LA & id & Callee & Hb & Hlt & He & HC & HLA & HF2
        & _ & _).
  exists Callee. split; [exact HC|].
  assert (HR : forall b b',
             ret_logged_of M' (VGlobalVariable (List.length (mod_globals M)))
                           b b' ->
             inserted_with (log_instruction Callee) b b').
  { intros b b' Hr. apply ret_logged_of_split in Hr
      as [->|(log & G & val & Hlog & -> & _)].
    - apply inserted_with_refl.
    - apply inserted_with_insert_at.
      exact (log_of_instructions _ _ _ _ _ _ _ Hlog HC). }
  rewrite Hb. inversion HF2 as [|? e' ? rest' He' Hrest]; subst.
  constructor.
  - apply inserted_with_trans
      with (insert_at (getFirstInsertionPt e)
              (LA ++ [CallInst id Callee
                        [VGlobalVariable (List.length (mod_globals M) + 1);
                         VGlobalVariable (List.length (mod_globals M))]]) e).
    + apply inserted_with_insert_at. apply Forall_app; split.
      * exact (arg_logs_of_instructions _ _ _ _ _ _ HLA HC).
      * constructor; [|constructor]. left; eauto.
    + apply HR; exact He'.
  - exact (Forall2_impl _ HR Hrest).
Qed.

(** X8: a completed run puts nothing into the function but the
    instructions of its logs.  Every block of the result is the block
    it was, in the same order, with instructions put in, each of which
    is a call of the value the module knows as [printf], a [zext] of an
    integer to [i64], an [fpext] of a floating-point value to [double],
    or an [addrspacecast] of a pointer to the generic pointer type.  No
    bit cast, truncation, sign extension or pointer-to-integer cast is
    ever inserted, and no instruction is removed or moved. *)
Theorem X8_only_log_instructions_inserted M F PA M' F' :
  isSkippableFunction F = false ->
  run M F = Ok (PA, (M', F')) ->
  exists Callee,
    getNamedValue M' "printf" = Some Callee /\
    Forall2 (inserted_with (log_instruction Callee))
            (fn_blocks F) (fn_blocks F').
Proof. exact (run_inserted_with M F PA M' F'). Qed.

Lemma X8_witness :
  isSkippableFunction pick_fn = false /\
  run pick_module pick_fn = Ok (PA_none, pick_result) /\
  exists Callee,
    getNamedValue (fst pick_result) "printf" = Some Callee /\
    Forall2 (inserted_with (log_instruction Callee))
            (fn_blocks pick_fn) (fn_blocks (snd pick_result)).
Proof.
  split; [reflexivity|]. split; [exact run_pick|].
  exact (X8_only_log_instructions_inserted pick_module pick_fn PA_none
           (fst pick_result) (snd pick_result) eq_refl run_pick).
Defined.

(** ** PHI nodes and pads stay first *)

Lemma log_instruction_plain Callee Inst :
  log_instruction Callee Inst -> isPHI Inst = false /\ isEHPad Inst = false.
Proof.
  intros [(id & Args & ->)|[(id & V & -> & _)|[(id & V & -> & _)
         |(id & V & -> & _)]]]; split; reflexivity.
Qed.

Lemma nth_error_insert_at_lt pt L (b : list Instruction) k :
  k < pt -> pt <= List.length b ->
  nth_error (insert_at pt L b) k = nth_error b k.
Proof.
  intros Hk Hpt. unfold insert_at.
  rewrite nth_error_app1 by (rewrite length_firstn; lia).
  rewrite nth_error_firstn.
  destruct (Nat.ltb_spec k pt); [reflexivity | lia].
Qed.

Lemma nth_error_insert_at_eq pt L (b : list Instruction) y :
  nth_error b pt = Some y ->
  exists z, nth_error (insert_at pt L b) pt = Some z /\
            (z = y \/ In z L).
Proof.
  intros Hy. unfold insert_at.
  assert (Hlt : pt < List.length b) by (apply nth_error_Some; congruence).
  rewrite nth_error_app2 by (rewrite length_firstn; lia).
  rewrite length_firstn, Nat.min_l, Nat.sub_diag by lia.
  destruct L as [|x L]; simpl.
  - exists y. split; [|auto].
    rewrite <- (firstn_skipn pt b) in Hy.
    rewrite nth_error_app2 in Hy by (rewrite length_firstn; lia).
    rewrite length_firstn, Nat.min_l, Nat.sub_diag in Hy by lia. exact Hy.
  - exists x. split; [reflexivity | right; left; reflexivity].
Qed.

(** Putting plain instructions in at or after the first instruction
    that is no PHI node leaves that place, and the PHI nodes before it,
    as they are. *)
Lemma getFirstNonPHI_insert_at pt L b :
  getFirstNonPHI b <= pt -> pt < List.length b ->
  Forall (fun i => isPHI i = false) L ->
  getFirstNonPHI (insert_at pt L b) = getFirstNonPHI b /\
  firstn (getFirstNonPHI b) (insert_at pt L b) = firstn (getFirstNonPHI b) b.
Proof.
  intros Hk Hpt HL.
  assert (Hex : exists z tail,
             insert_at pt L b = firstn (getFirstNonPHI b) b ++ z :: tail /\
             isPHI z = false).
  { destruct (nth_error b (getFirstNonPHI b)) as [y|] eqn:Ey;
      [|apply nth_error_None in Ey; lia].
    pose proof (getFirstNonPHI_nth _ _ Ey) as Hy.
    assert (Hlen : List.length (firstn (getFirstNonPHI b) b) = getFirstNonPHI b)
      by (rewrite length_firstn; lia).
    destruct (Nat.eq_dec (getFirstNonPHI b) pt) as [E|N].
    - destruct (nth_error_insert_at_eq pt L b y) as (z & Hz & Hzy);
        [rewrite <- E; exact Ey|].
      exists z, (skipn (S pt) (insert_at pt L b)). split.
      + rewrite E.
        replace (firstn pt b) with (firstn pt (insert_at pt L b)).
        * pose proof (firstn_skipn pt (insert_at pt L b)) as Hfs.
          rewrite <- Hfs at 1. f_equal.
          clear - Hz. revert Hz. generalize (insert_at pt L b) as l.
          induction pt as [|n IH]; intros [|a l] H; simpl in *;
            try discriminate.
          -- inversion H; reflexivity.
          -- apply IH; exact H.
        * unfold insert_at. rewrite firstn_app, length_firstn.
          rewrite Nat.min_l by lia. rewrite Nat.sub_diag. simpl.
          rewrite firstn_firstn, Nat.min_id, app_nil_r. reflexivity.
      + destruct Hzy as [->|Hin]; [exact Hy|].
        rewrite Forall_forall in HL. apply HL; exact Hin.
    - exists y, (skipn (S (getFirstNonPHI b)) (insert_at pt L b)). split; auto.
      assert (Hn : nth_error (insert_at pt L b) (getFirstNonPHI b) = Some y)
        by (rewrite nth_error_insert_at_lt by lia; exact Ey).
      replace (firstn (getFirstNonPHI b) b)
        with (firstn (getFirstNonPHI b) (insert_at pt L b)).
      * pose proof (firstn_skipn (getFirstNonPHI b) (insert_at pt L b)) as Hfs.
        rewrite <- Hfs at 1. f_equal.
        clear - Hn. revert Hn. generalize (insert_at pt L b) as l.
        generalize (getFirstNonPHI b) as n.
        induction n as [|n IH]; intros [|a l] H; simpl in *;
          try discriminate.
        -- inversion H; reflexivity.
        -- apply IH; exact H.
      * unfold insert_at. rewrite firstn_app, length_firstn.
        rewrite Nat.min_l by lia.
        replace (getFirstNonPHI b - pt) with 0 by lia. simpl.
        rewrite firstn_firstn, Nat.min_l, app_nil_r by lia. reflexivity. }
  destruct Hex as (z & tail & -> & Hz).
  pose proof (getFirstNonPHI_prefix b) as HP.
  assert (Hlen : List.length (firstn (getFirstNonPHI b) b) = getFirstNonPHI b)
    by (rewrite length_firstn; pose proof (getFirstNonPHI_le b); lia).
  split.
  - rewrite getFirstNonPHI_app by auto. exact Hlen.
  - rewrite firstn_app, Hlen, Nat.sub_diag. simpl.
    rewrite firstn_firstn, Nat.min_id, app_nil_r. reflexivity.
Qed.

Lemma getFirstInsertionPt_le e : getFirstNonPHI e <= getFirstInsertionPt e.
Proof.
  unfold getFirstInsertionPt.
  destruct (nth_error e (getFirstNonPHI e)) as [y|];
    [destruct (isEHPad y); lia | apply getFirstNonPHI_le].
Qed.

(** The same for the first insertion point, which also skips a pad. *)
Lemma getFirstInsertionPt_insert_at pt L b :
  getFirstInsertionPt b <= pt -> pt < List.length b ->
  Forall (fun i => isPHI i = false /\ isEHPad i = false) L ->
  getFirstInsertionPt (insert_at pt L b) = getFirstInsertionPt b.
Proof.
  intros Hip Hpt HL.
  pose proof (getFirstInsertionPt_le b) as Hle.
  assert (HL' : Forall (fun i => isPHI i = false) L)
    by (eapply Forall_impl; [|exact HL]; intros ? []; auto).
  destruct (getFirstNonPHI_insert_at pt L b) as (Hk & _); [lia|lia|auto|].
  unfold getFirstInsertionPt in *. rewrite Hk.
  destruct (nth_error b (getFirstNonPHI b)) as [y|] eqn:Ey;
    [|apply nth_error_None in Ey; lia].
  destruct (Nat.eq_dec (getFirstNonPHI b) pt) as [E|N].
  - destruct (nth_error_insert_at_eq pt L b y) as (z & Hz & Hzy);
      [rewrite <- E; exact Ey|].
    rewrite E, Hz. rewrite <- E.
    destruct (isEHPad y) eqn:Ep; [lia|].
    destruct Hzy as [->|Hin]; [rewrite Ep; reflexivity|].
    rewrite Forall_forall in HL. destruct (HL _ Hin) as (_ & ->). reflexivity.
  - rewrite nth_error_insert_at_lt by lia. rewrite Ey. reflexivity.
Qed.

(** The terminator of a block stands at or after the first insertion
    point. *)
Lemma getFirstInsertionPt_terminator b :
  has_terminator b = true -> getFirstInsertionPt b <= List.length b - 1.
Proof.
  intros H. apply getFirstInsertionPt_lt in H. lia.
Qed.

(** X9: a completed run keeps every block well grouped.  In every block
    of the result the PHI nodes that stood first stand first still,
    unchanged, the first instruction that is no PHI node is at the same
    index, and so is the first insertion point: nothing is ever put
    before or between the PHI nodes or before a landing pad. *)
Theorem X9_phi_nodes_stay_first M F PA M' F' :
  isSkippableFunction F = false ->
  run M F = Ok (PA, (M', F')) ->
  Forall2 (fun b b' =>
             getFirstNonPHI b' = getFirstNonPHI b /\
             firstn (getFirstNonPHI b) b' = firstn (getFirstNonPHI b) b /\
             getFirstInsertionPt b' = getFirstInsertionPt b)
          (fn_blocks F) (fn_blocks F').
Proof.
  intros Hs H.
  destruct (run_detail _ _ _ _ _ Hs H)
    as (e & rest & enter & LA & id & Callee & Hb & Hlt & He & HC & HLA & HF2
        & _ & HT).
  assert (HP : forall L, Forall (log_instruction Callee) L ->
               Forall (fun i => isPHI i = false /\ isEHPad i = false) L).
  { intros L HL. eapply Forall_impl; [|exact HL].
    intros a Ha; exact (log_instruction_plain _ _ Ha). }
  assert (HP' : forall L,
               Forall (fun i => isPHI i = false /\ isEHPad i = false) L ->
               Forall (fun i => isPHI i = false) L).
  { intros L HL. eapply Forall_impl; [|exact HL]. intros ? []; auto. }
  assert (HI : forall pt L b,
             getFirstInsertionPt b <= pt -> pt < List.length b ->
             Forall (log_instruction Callee) L ->
             getFirstNonPHI (insert_at pt L b) = getFirstNonPHI b /\
             firstn (getFirstNonPHI b) (insert_at pt L b)
             = firstn (getFirstNonPHI b) b /\
             getFirstInsertionPt (insert_at pt L b) = getFirstInsertionPt b).
  { intros pt L b Hpt Hl HL. pose proof (getFirstInsertionPt_le b).
    destruct (getFirstNonPHI_insert_at pt L b) as (H1 & H2);
      [lia | lia | auto |].
    repeat split; auto. apply getFirstInsertionPt_insert_at; auto. }
  assert (HR : forall b b',
             ret_logged_of M' (VGlobalVariable (List.length (mod_globals M)))
                           b b' ->
             getFirstNonPHI b' = getFirstNonPHI b /\
             firstn (getFirstNonPHI b) b' = firstn (getFirstNonPHI b) b /\
             getFirstInsertionPt b' = getFirstInsertionPt b).
  { intros b b' Hr. apply ret_logged_of_split in Hr
      as [->|(log & G & val & Hlog & -> & Ht)]; [auto|].
    pose proof (getFirstInsertionPt_lt _ Ht).
    apply HI; [lia | lia |].
    exact (log_of_instructions _ _ _ _ _ _ _ Hlog HC). }
  rewrite Hb. inversion HF2 as [|? e' ? rest' He' Hrest]; subst.
  constructor.
  - apply HR in He'. destruct He' as (K1 & K2 & K3).
    destruct (HI (getFirstInsertionPt e)
                 (LA ++ [CallInst id Callee
                        [VGlobalVariable (List.length (mod_globals M) + 1);
                         VGlobalVariable (List.length (mod_globals M))]]) e)
      as (G1 & G2 & G3); [lia | exact Hlt | |].
    { apply Forall_app; split.
      - exact (arg_logs_of_instructions _ _ _ _ _ _ HLA HC).
      - constructor; [|constructor]. left; eauto. }
    rewrite G1 in K1, K2. rewrite K1, K2, K3, G2, G3. auto.
  - exact (Forall2_impl _ HR Hrest).
Qed.

Lemma X9_witness :
  isSkippableFunction pick_fn = false /\
  run pick_module pick_fn = Ok (PA_none, pick_result) /\
  Forall2 (fun b b' =>
             getFirstNonPHI b' = getFirstNonPHI b /\
             firstn (getFirstNonPHI b) b' = firstn (getFirstNonPHI b) b /\
             getFirstInsertionPt b' = getFirstInsertionPt b)
          (fn_blocks pick_fn) (fn_blocks (snd pick_result)).
Proof.
  split; [reflexivity|]. split; [exact run_pick|].
  exact (X9_phi_nodes_stay_first pick_module pick_fn PA_none
           (fst pick_result) (snd pick_result) eq_refl run_pick).
Defined.

(** ** The log of a parameter, instruction by instruction *)

Lemma needed_cast_none V :
  needed_cast V = None <->
  (getType V = Int64Ty \/ getType V = DoubleTy \/ getType V = Int8PtrTy \/
   classify (getType V) = ClassOther).
Proof.
  unfold needed_cast, widening, Int64Ty, Int8PtrTy.
  destruct (getType V) as [| | | | | | | | | | |n|a| | |] eqn:ET;
    simpl; (split; [intros H | intros [H|[H|[H|H]]]]);
    try discriminate; try reflexivity; auto.
  - destruct (N.eqb n 64) eqn:E; [|discriminate].
    apply N.eqb_eq in E; subst. left; reflexivity.
  - inversion H; subst. reflexivity.
  - destruct (N.eqb a 0) eqn:E; [|discriminate].
    apply N.eqb_eq in E; subst. right; right; left; reflexivity.
  - inversion H; subst. reflexivity.
Qed.

(** The log of a parameter in the entry block of the result. *)
Lemma run_parameter_log M F PA M' F' :
  isSkippableFunction F = false ->
  run M F = Ok (PA, (M', F')) ->
  forall k T,
    nth_error (fn_params F) k = Some T ->
    exists pre post cid id Callee g,
      hd [] (fn_blocks F')
      = pre ++ parameter_log cid id Callee g
                 (VGlobalVariable (List.length (mod_globals M))) k T ++ post /\
      nth_error (mod_globals M') g = Some (arg_global T) /\
      getNamedValue M' "printf" = Some Callee.
Proof.
  intros Hs H k T Hk.
  destruct (entry_layout_detail _ _ _ _ _ Hs H)
    as (e & rest & enter & LA & tail & rest' & _ & HF' & HLA).
  pose proof (args_from_nth _ 0 _ _ Hk) as Hn.
  destruct (arg_logs_of_nth _ _ _ _ _ HLA k _ Hn)
    as (pre & log & post & -> & Hlog).
  destruct Hlog as (casts & vals & id & Callee & g & -> & Hv & Hg & HC).
  simpl in Hg, Hv.
  assert (Hshape : exists cid,
             casts ++ [CallInst id Callee
                         (VGlobalVariable g
                          :: VGlobalVariable (List.length (mod_globals M))
                          :: [getInt32 (Z.of_nat k)] ++ vals)]
             = parameter_log cid id Callee g
                 (VGlobalVariable (List.length (mod_globals M))) k T).
  { unfold parameter_log, needed_cast. unfold widening in *. simpl getType in *.
    destruct (classify T) eqn:EC.
    - destruct Hv as (X & [(E & -> & ->)|[(_ & Hc & _)
                           |(E & _ & _ & cid & -> & ->)]] & ->);
        [|discriminate|]; simpl getType in E; rewrite E;
        [exists 0|exists cid]; reflexivity.
    - destruct Hv as (X & [(E & -> & ->)|[(_ & Hc & _)
                           |(E & _ & _ & cid & -> & ->)]] & ->);
        [|discriminate|]; simpl getType in E; rewrite E;
        [exists 0|exists cid]; reflexivity.
    - destruct Hv as (X & [(E & -> & ->)|[(_ & Hc & _)
                           |(E & _ & _ & cid & -> & ->)]] & ->);
        [|discriminate|]; simpl getType in E; rewrite E;
        [exists 0|exists cid]; reflexivity.
    - destruct Hv as (-> & ->). exists 0. reflexivity. }
  destruct Hshape as (cid & Hshape).
  exists (firstn (getFirstInsertionPt e) e ++ pre), (post ++ enter :: tail),
         cid, id, Callee, g.
  split; [|split; [exact Hg | exact HC]].
  rewrite HF', <- Hshape. simpl. rewrite <- !app_assoc. reflexivity.
Qed.

(** X10: the log of a parameter, instruction by instruction.  A
    parameter is never a constant, so the builder never folds its cast:
    in the entry block of the result the log of the parameter number
    [k] is the call alone, with the parameter itself as last operand,
    when its type is [i64], [double] or the generic pointer type; the
    call alone without the parameter when its class is the catch-all
    one; and in every other case one cast of the parameter followed
    immediately by the call, whose last operand is the result of that
    cast. *)
Theorem X10_parameter_log_shape M F PA M' F' :
  isSkippableFunction F = false ->
  run M F = Ok (PA, (M', F')) ->
  forall k T,
    nth_error (fn_params F) k = Some T ->
    (needed_cast (VArgument k T) = None <->
     (T = Int64Ty \/ T = DoubleTy \/ T = Int8PtrTy \/
      classify T = ClassOther)) /\
    exists pre post cid id Callee g,
      hd [] (fn_blocks F')
      = pre ++ parameter_log cid id Callee g
                 (VGlobalVariable (List.length (mod_globals M))) k T ++ post /\
      nth_error (mod_globals M') g = Some (arg_global T) /\
      getNamedValue M' "printf" = Some Callee.
Proof.
  intros Hs H k T Hk. split; [exact (needed_cast_none (VArgument k T))|].
  exact (run_parameter_log _ _ _ _ _ Hs H k T Hk).
Qed.

Lemma X10_witness :
  isSkippableFunction add_fn = false /\
  run add_module add_fn = Ok (PA_none, (add_module_logged, add_fn_logged)) /\
  nth_error (fn_params add_fn) 1 = Some i32 /\
  (needed_cast (VArgument 1 i32) = None <->
   (i32 = Int64Ty \/ i32 = DoubleTy \/ i32 = Int8PtrTy \/
    classify i32 = ClassOther)) /\
  exists pre post cid id Callee g,
    hd [] (fn_blocks add_fn_logged)
    = pre ++ parameter_log cid id Callee g
               (VGlobalVariable (List.length (mod_globals add_module))) 1 i32
          ++ post /\
    nth_error (mod_globals add_module_logged) g = Some (arg_global i32) /\
    getNamedValue add_module_logged "printf" = Some Callee.
Proof.
  split; [reflexivity|]. split; [exact run_add|]. split; [reflexivity|].
  exact (X10_parameter_log_shape add_module add_fn PA_none
           add_module_logged add_fn_logged eq_refl run_add 1 i32 eq_refl).
Defined.

(** ** The plugin *)

Lemma parseFunctionPassCallbacks_app Cs C Name InnerPipeline : forall FPM,
  parseFunctionPassCallbacks (Cs ++ [C]) Name FPM InnerPipeline
  = (let (taken, FPM') := parseFunctionPassCallbacks Cs Name FPM InnerPipeline in
     if taken then (true, FPM') else C Name FPM' InnerPipeline).
Proof.
  induction Cs as [|D Cs IH]; intros FPM; simpl.
  - destruct (C Name FPM InnerPipeline) as [[|] FPM']; reflexivity.
  - destruct (D Name FPM InnerPipeline) as [[|] FPM']; [reflexivity|].
    apply IH.
Qed.

Lemma runMPM_app MPM1 MPM2 M :
  runMPM (MPM1 ++ MPM2) M
  = match runMPM MPM1 M with
    | Ok M1 => runMPM MPM2 M1
    | Err e => Err e
    end.
Proof.
  revert M; induction MPM1 as [|P r IH]; intros M; simpl; [reflexivity|].
  destruct (runModulePass P M); [apply IH | reflexivity].
Qed.

(** X11: the name the plugin answers to.  Whatever callbacks a pass
    builder has already, after the plugin registered its own the
    parsing of a function pass name goes as before when an earlier
    callback takes the name; otherwise the name is taken exactly when
    it is [logger-fn], and then one [LoggerFunctionPass] is added at the
    end of the pass manager, which is left alone for every other
    name. *)
Theorem X11_parsing_takes_logger_fn V PB Name FPM InnerPipeline :
  let before :=
    parseFunctionPassCallbacks (FunctionPipelineParsingCallbacks PB)
                               Name FPM InnerPipeline in
  let after :=
    parseFunctionPassCallbacks
      (FunctionPipelineParsingCallbacks
         (RegisterPassBuilderCallbacks (llvmGetPassPluginInfo V) PB))
      Name FPM InnerPipeline in
  (fst after = true <-> fst before = true \/ Name = "logger-fn"%string) /\
  snd after
  = (if fst before then snd before
     else if String.eqb Name "logger-fn"
          then snd before ++ [LoggerFunctionPass]
          else snd before).
Proof.
  simpl. rewrite parseFunctionPassCallbacks_app.
  destruct (parseFunctionPassCallbacks (FunctionPipelineParsingCallbacks PB)
              Name FPM InnerPipeline) as [[|] FPM'] eqn:E; simpl.
  - split; [tauto | reflexivity].
  - destruct (String.eqb Name "logger-fn") eqn:EN; simpl.
    + apply String.eqb_eq in EN. split; [tauto | reflexivity].
    + apply String.eqb_neq in EN. split; [|reflexivity].
      split; [discriminate | intros [H|H]; [discriminate | contradiction]].
Qed.

(** X12: the plugin schedules the pass twice.  Each of the two
    extension points gets, after the passes of the callbacks registered
    earlier, one adaptor of [LoggerFunctionPass], at every optimisation
    level.  A pipeline made of the two extension points alone is
    therefore two runs of the pass over the module, the second on the
    output of the first, and when it completes the module has gained
    twice the globals one run creates for its functions. *)
Theorem X12_scheduled_at_both_extension_points V PB MPM Level M M' :
  let Adaptor := createModuleToFunctionPassAdaptor LoggerFunctionPass in
  let Plugin := RegisterPassBuilderCallbacks (llvmGetPassPluginInfo V) in
  let Pipeline :=
    invokeOptimizerLastEPCallbacks (Plugin emptyPassBuilder)
      (invokePipelineStartEPCallbacks (Plugin emptyPassBuilder) [] Level)
      Level in
  runMPM Pipeline M = Ok M' ->
  invokePipelineStartEPCallbacks (Plugin PB) MPM Level
  = invokePipelineStartEPCallbacks PB MPM Level ++ [Adaptor] /\
  invokeOptimizerLastEPCallbacks (Plugin PB) MPM Level
  = invokeOptimizerLastEPCallbacks PB MPM Level ++ [Adaptor] /\
  runMPM Pipeline M = runPipeline 2 M /\
  List.length (mod_globals M')
  = List.length (mod_globals M) + 2 * fresh_globals M.
Proof.
  intros Adaptor Plugin Pipeline H.
  split; [|split].
  - unfold invokePipelineStartEPCallbacks, Plugin. simpl.
    rewrite fold_left_app. reflexivity.
  - unfold invokeOptimizerLastEPCallbacks, Plugin. simpl.
    rewrite fold_left_app. reflexivity.
  - assert (HP : runMPM Pipeline M = runPipeline 2 M).
    { unfold Pipeline. simpl. destruct (runOnModule M) as [M1|]; [|reflexivity].
      destruct (runOnModule M1); reflexivity. }
    split; [exact HP|].
    rewrite HP in H. apply runPipeline_unit_ext in H.
    destruct H as ((gs & HG & HL) & _).
    rewrite HG, length_app, HL. reflexivity.
Qed.

Lemma X12_witness :
  runMPM
    (invokeOptimizerLastEPCallbacks
       (RegisterPassBuilderCallbacks (llvmGetPassPluginInfo "17.0.6")
          emptyPassBuilder)
       (invokePipelineStartEPCallbacks
          (RegisterPassBuilderCallbacks (llvmGetPassPluginInfo "17.0.6")
             emptyPassBuilder) [] O2)
       O2) add_module = Ok add_module_twice /\
  List.length (mod_globals add_module_twice)
  = List.length (mod_globals add_module) + 2 * fresh_globals add_module.
Proof.
  assert (H : runMPM
    (invokeOptimizerLastEPCallbacks
       (RegisterPassBuilderCallbacks (llvmGetPassPluginInfo "17.0.6")
          emptyPassBuilder)
       (invokePipelineStartEPCallbacks
          (RegisterPassBuilderCallbacks (llvmGetPassPluginInfo "17.0.6")
             emptyPassBuilder) [] O2)
       O2) add_module = Ok add_module_twice)
    by (vm_compute; reflexivity).
  split; [exact H|].
  exact (proj2 (proj2 (proj2
    (X12_scheduled_at_both_extension_points "17.0.6" emptyPassBuilder [] O2
       add_module add_module_twice H)))).
Defined.

(** ** The log of a return *)

Lemma insert_at_init pt L (init : list Instruction) T :
  pt <= List.length init ->
  insert_at pt L (init ++ [T]) = insert_at pt L init ++ [T].
Proof.
  intros Hpt. unfold insert_at.
  rewrite firstn_app, skipn_app.
  replace (pt - List.length init) with 0 by lia. simpl.
  rewrite app_nil_r, <- !app_assoc. reflexivity.
Qed.

(** A block that ends in a return, before and after a run. *)
Lemma run_return_log M F PA M' F' :
  isSkippableFunction F = false ->
  run M F = Ok (PA, (M', F')) ->
  forall i b RetVal,
    nth_error (fn_blocks F) i = Some b ->
    getTerminator b = Some (ReturnInst RetVal) ->
    exists init L log Callee,
      b = init ++ [ReturnInst RetVal] /\
      nth_error (fn_blocks F') i
      = Some (insert_at (getFirstInsertionPt b) L init
              ++ log ++ [ReturnInst RetVal]) /\
      log_of M' (ret_global RetVal)
             (VGlobalVariable (List.length (mod_globals M))) [] RetVal log /\
      getNamedValue M' "printf" = Some Callee /\
      Forall (log_instruction Callee) L /\
      (i <> 0 -> L = []).
Proof.
  intros Hs H i b RetVal Hb HT.
  destruct (run_detail _ _ _ _ _ Hs H)
    as (e & rest & enter & LA & id & Callee & HbF & Hlt & He & HC & HLA & HF2
        & _).
  rewrite HbF in Hb.
  destruct i as [|j]; simpl in Hb.
  - assert (Heb : e = b) by congruence. subst e. clear Hb.
    inversion HF2 as [|? b' ? rest' Hr Hrest E1 E2]; clear HF2.
    destruct (getTerminator_inv _ _ HT) as (init & Hinit & _).
    unfold ret_logged_of in Hr.
    rewrite getTerminator_insert_at, HT in Hr by auto.
    destruct Hr as (init1 & log & Hb1 & Hlog & ->).
    assert (Hpt : getFirstInsertionPt b <= List.length init).
    { rewrite Hinit in Hlt at 2. rewrite length_app in Hlt. simpl in Hlt. lia. }
    rewrite Hinit in Hb1 at 2. rewrite insert_at_init in Hb1 by exact Hpt.
    apply app_inj_tail in Hb1 as (Hb1 & _).
    exists init, (LA ++ [enter]), log, Callee.
    split; [exact Hinit|].
    split; [simpl; rewrite Hb1; reflexivity|].
    split; [exact Hlog|]. split; [exact HC|]. split; [|congruence].
    apply Forall_app; split.
    + exact (arg_logs_of_instructions _ _ _ _ _ _ HLA HC).
    + rewrite He. constructor; [|constructor]. left; eauto.
  - assert (Hn : nth_error (insert_at (getFirstInsertionPt e) (LA ++ [enter]) e
                            :: rest) (S j) = Some b) by exact Hb.
    destruct (getTerminator_inv _ _ HT) as (init & Hinit & _).
    destruct (Forall2_nth_l _ _ _ _ _ HF2 Hn) as (b' & Hn' & Hr).
    unfold ret_logged_of in Hr. rewrite HT in Hr.
    destruct Hr as (init1 & log & Hb1 & Hlog & ->).
    rewrite Hinit in Hb1. apply app_inj_tail in Hb1 as (Hb1 & _). subst init1.
    exists init, [], log, Callee.
    split; [exact Hinit|]. rewrite insert_at_nil.
    split; [exact Hn'|]. split; [exact Hlog|]. split; [exact HC|].
    split; [constructor | reflexivity].
Qed.

(** X4: a block that ends in a return is, in the function a run
    returns, its old instructions before the return, then one log, then
    that same return.  The old instructions are untouched, but for the
    entry block, where the logs of the entry and of the parameters stand
    at the first insertion point.  The log is the cast the builder made
    of the returned value, if any, followed by a call of the value the
    module knows as [printf]; the operands of the call are the format
    global of the return site, the name of the function and, when a
    value of a class other than the catch-all one is returned, that
    value as the builder widened it: the value itself when its type is
    the target already, the constant of the folder when the folder folds
    it, the result of the cast instruction otherwise. *)
Theorem X4_return_log_operands M F PA M' F' :
  isSkippableFunction F = false ->
  run M F = Ok (PA, (M', F')) ->
  forall i b RetVal,
    nth_error (fn_blocks F) i = Some b ->
    getTerminator b = Some (ReturnInst RetVal) ->
    exists init L log Callee,
      b = init ++ [ReturnInst RetVal] /\
      nth_error (fn_blocks F') i
      = Some (insert_at (getFirstInsertionPt b) L init
              ++ log ++ [ReturnInst RetVal]) /\
      log_of M' (ret_global RetVal)
             (VGlobalVariable (List.length (mod_globals M))) [] RetVal log /\
      getNamedValue M' "printf" = Some Callee /\
      Forall (log_instruction Callee) L /\
      (i <> 0 -> L = []).
Proof. exact (run_return_log M F PA M' F'). Qed.

Lemma X4_witness :
  isSkippableFunction pick_fn = false /\
  run pick_module pick_fn = Ok (PA_none, pick_result) /\
  nth_error (fn_blocks pick_fn) 2
  = Some [OtherInst 2 i32 "mul" [VArgument 0 i32; VArgument 0 i32];
          ReturnInst (Some (VInstruction 2 i32))] /\
  exists init L log Callee,
    [OtherInst 2 i32 "mul" [VArgument 0 i32; VArgument 0 i32];
     ReturnInst (Some (VInstruction 2 i32))]
    = init ++ [ReturnInst (Some (VInstruction 2 i32))] /\
    nth_error (fn_blocks (snd pick_result)) 2
    = Some (insert_at
              (getFirstInsertionPt
                 [OtherInst 2 i32 "mul" [VArgument 0 i32; VArgument 0 i32];
                  ReturnInst (Some (VInstruction 2 i32))]) L init
            ++ log ++ [ReturnInst (Some (VInstruction 2 i32))]) /\
    log_of (fst pick_result) (ret_global (Some (VInstruction 2 i32)))
           (VGlobalVariable (List.length (mod_globals pick_module))) []
           (Some (VInstruction 2 i32)) log /\
    getNamedValue (fst pick_result) "printf" = Some Callee /\
    Forall (log_instruction Callee) L /\
    (2 <> 0 -> L = []).
Proof.
  split; [reflexivity|]. split; [exact run_pick|]. split; [reflexivity|].
  exact (X4_return_log_operands pick_module pick_fn PA_none
           (fst pick_result) (snd pick_result) eq_refl run_pick
           2 _ _ eq_refl eq_refl).
Defined.

(** ** The callee of the logs *)

Lemma inserted_with_impl (P Q : Instruction -> Prop) b b' :
  (forall x, P x -> Q x) -> inserted_with P b b' -> inserted_with Q b b'.
Proof. intros HPQ; induction 1; constructor; auto. Qed.

Lemma log_instruction_call_of Callee Inst :
  log_instruction Callee Inst -> call_of Callee Inst.
Proof.
  intros [(id & Args & ->)|[(id & V & -> & _)|[(id & V & -> & _)
         |(id & V & -> & _)]]]; intros Hc; try discriminate; eauto.
Qed.

(** X5: which function the logs call.  After a run on a function that
    is not skipped the module knows a value as [printf], and every call
    the run has put into the function, of which there are one for the
    entry, one for each parameter and one for each return site, is a
    call of that value.  When the module knew a value as [printf] before
    the run (a declaration, a definition, or a global variable of that
    name) it is that value, and no function is added; when it knew none,
    it is the declaration of [printf] the run appends to the functions,
    once. *)
Theorem X5_printf_resolution M F PA M' F' :
  isSkippableFunction F = false ->
  run M F = Ok (PA, (M', F')) ->
  exists Callee,
    getNamedValue M' "printf" = Some Callee /\
    Forall2 (inserted_with (call_of Callee)) (fn_blocks F) (fn_blocks F') /\
    count_calls (List.concat (fn_blocks F'))
    = count_calls (List.concat (fn_blocks F))
      + (1 + List.length (fn_params F)) + num_returns (fn_blocks F) /\
    (forall v, getNamedValue M "printf" = Some v ->
               Callee = v /\ mod_functions M' = mod_functions M) /\
    (getNamedValue M "printf" = None ->
     Callee = VFunction "printf" /\
     mod_functions M' = mod_functions M ++ [PrintfDecl]).
Proof.
  intros Hs H.
  destruct (run_detail _ _ _ _ _ Hs H)
    as (e & rest & enter & LA & id & Callee & _ & _ & _ & Hl & _ & _ & HG & _).
  destruct (run_structure _ _ _ _ _ Hs H)
    as (_ & _ & _ & _ & _ & _ & _ & _ & _ & _ & _ & _ & HE & _).
  exists Callee. split; [exact Hl|]. split.
  { destruct (run_inserted_with _ _ _ _ _ Hs H) as (Callee' & Hl' & HI).
    assert (Callee' = Callee) by congruence; subst Callee'.
    refine (Forall2_impl _ _ HI). intros b b'.
    apply inserted_with_impl. exact (log_instruction_call_of Callee). }
  split; [exact (run_call_count _ _ _ _ _ Hs H)|]. split.
  - intros v Hv. pose proof (getNamedValue_ext _ _ _ _ HE Hv) as Hv'.
    split; [congruence|].
    destruct HE as [_ [E|[N _]]]; [exact E | congruence].
  - intros Hn. destruct HE as [_ [E|[_ E]]].
    + exfalso. unfold getNamedValue in Hn, Hl. rewrite E in Hl.
      destruct (find_function "printf" (mod_functions M)); [discriminate|].
      rewrite HG, find_global_app in Hl.
      destruct (find_global "printf" 0 (mod_globals M)); [discriminate|].
      rewrite find_global_none in Hl; [discriminate|].
      constructor; [reflexivity|]. constructor; [reflexivity|].
      apply Forall_app; split; apply Forall_forall; intros G Hin;
        apply in_map_iff in Hin as (x & <- & _).
      * apply arg_global_name.
      * apply ret_global_name.
    + split; auto. unfold getNamedValue in Hl.
      rewrite E, find_function_app in Hl; simpl in Hl.
      rewrite orb_true_r in Hl. congruence.
Qed.

Lemma X5_witness :
  isSkippableFunction add_fn = false /\
  run add_module add_fn = Ok (PA_none, (add_module_logged, add_fn_logged)) /\
  exists Callee,
    getNamedValue add_module_logged "printf" = Some Callee /\
    Forall2 (inserted_with (call_of Callee))
            (fn_blocks add_fn) (fn_blocks add_fn_logged) /\
    count_calls (List.concat (fn_blocks add_fn_logged))
    = count_calls (List.concat (fn_blocks add_fn))
      + (1 + List.length (fn_params add_fn)) + num_returns (fn_blocks add_fn) /\
    (forall v, getNamedValue add_module "printf" = Some v ->
               Callee = v /\
               mod_functions add_module_logged = mod_functions add_module) /\
    (getNamedValue add_module "printf" = None ->
     Callee = VFunction "printf" /\
     mod_functions add_module_logged
     = mod_functions add_module ++ [PrintfDecl]).
Proof.
  split; [reflexivity|]. split; [exact run_add|].
  exact (X5_printf_resolution add_module add_fn PA_none
           add_module_logged add_fn_logged eq_refl run_add).
Defined.

(** ** C6: narrow integers are zero-extended *)

Lemma run_byte : run byte_module byte_fn = Ok (PA_none, byte_result).
Proof. vm_compute. reflexivity. Qed.

(** What the builder hands over for a zero extension to [i64] of an
    integer of fewer bits. *)
Lemma cast_result_zero_extended w V casts X :
  getType V = IntegerTy w -> (w < 64)%N ->
  cast_result (int_cast_op (getType V)) V Int64Ty casts X ->
  zero_extended V casts X.
Proof.
  intros HT Hw Hc.
  assert (E : N.eqb w 64 = false) by (apply N.eqb_neq; lia).
  assert (Hop : int_cast_op (getType V) = ZExt)
    by (unfold int_cast_op; rewrite HT; simpl; rewrite E; reflexivity).
  rewrite Hop in Hc. unfold zero_extended.
  destruct Hc as [(Heq & _)|[(_ & Hf & ->)|(_ & _ & _ & cid & -> & ->)]].
  - rewrite HT in Heq. simpl in Heq. congruence.
  - right. unfold FoldCast in Hf.
    destruct V as [k T|id T|n v|T id|op C T|g|name]; simpl in *;
      try discriminate.
    + inversion HT; subst n.
      destruct (negb (v mod 2 ^ Z.of_N w =? 0)%Z && (64 <? w)%N);
        [discriminate|].
      inversion Hf; subst. left. split; [reflexivity|]. eauto.
    + inversion Hf; subst. right. split; [reflexivity|]. split; reflexivity.
  - left. eauto.
Qed.

(** C6: in the function a run returns, an integer parameter of
    [w < 64] bits is logged by a [zext] of the parameter to [i64]
    followed immediately by the call of [printf] on the format with
    [%lld], whose last operand is the result of that [zext]; and a
    returned integer value of [w] bits is logged, immediately before its
    return, by the call on the format with [%lld] whose last operand is
    the value zero-extended: the result of a [zext] instruction put
    before the call or, for a constant the builder folds, the constant
    of the zero extension.  No sign extension is ever made.  A [zext] to
    64 bits of a [w]-bit pattern [x] is [x] read unsigned, and that is
    what [%lld] prints: 200 for the 8-bit pattern 200, where a sign
    extension would print -56.  Integer types carry no sign, so the
    source-level signedness cannot be told apart by the pass. *)
Theorem C6_narrow_integers_are_zero_extended M F PA M' F' (w : N) :
  (w < 64)%N ->
  isSkippableFunction F = false ->
  run M F = Ok (PA, (M', F')) ->
  (forall k,
      nth_error (fn_params F) k = Some (IntegerTy w) ->
      exists pre post cid id Callee g,
        hd [] (fn_blocks F')
        = pre ++ [CastInst cid ZExt (VArgument k (IntegerTy w)) Int64Ty;
                  CallInst id Callee
                    [VGlobalVariable g;
                     VGlobalVariable (List.length (mod_globals M));
                     getInt32 (Z.of_nat k);
                     VInstruction cid Int64Ty]] ++ post /\
        nth_error (mod_globals M') g
        = Some (mkGlobalVariable "__logger.fmt.arg.i" true fmt_arg_i) /\
        getNamedValue M' "printf" = Some Callee) /\
  (forall i b V,
      nth_error (fn_blocks F) i = Some b ->
      getTerminator b = Some (ReturnInst (Some V)) ->
      getType V = IntegerTy w ->
      exists init casts X id Callee g,
        nth_error (fn_blocks F') i
        = Some (init ++ casts
                ++ [CallInst id Callee
                      [VGlobalVariable g;
                       VGlobalVariable (List.length (mod_globals M)); X];
                    ReturnInst (Some V)]) /\
        zero_extended V casts X /\
        nth_error (mod_globals M') g
        = Some (mkGlobalVariable "__logger.fmt.ret.i" true fmt_ret_i) /\
        getNamedValue M' "printf" = Some Callee) /\
  (forall x, (0 <= x < 2 ^ Z.of_N w)%Z ->
             evalCast ZExt w 64 x = Some x /\ printf_lld x = x) /\
  (evalCast ZExt 8 64 200 = Some 200%Z /\ printf_lld 200 = 200%Z /\
   evalCast SExt 8 64 200 = Some (2 ^ 64 - 56)%Z /\
   printf_lld (2 ^ 64 - 56) = (-56)%Z).
Proof.
  intros Hw Hs H.
  assert (E : N.eqb w 64 = false) by (apply N.eqb_neq; lia).
  split; [|split; [|split]].
  - intros k Hk.
    destruct (run_parameter_log _ _ _ _ _ Hs H k _ Hk)
      as (pre & post & cid & id & Callee & g & Hhd & Hg & HC).
    exists pre, post, cid, id, Callee, g.
    split; [|split; [exact Hg | exact HC]].
    rewrite Hhd. unfold parameter_log, needed_cast, widening, int_cast_op.
    simpl. rewrite E. reflexivity.
  - intros i b V Hb HT HV.
    destruct (run_return_log _ _ _ _ _ Hs H i b _ Hb HT)
      as (init & L & log & Callee & _ & Hn & Hlog & HC & _).
    destruct Hlog as (casts & vals & id & Callee' & g & -> & Hv & Hg & HC').
    assert (Callee' = Callee) by congruence; subst Callee'.
    assert (Hcl : classify (getType V) = ClassInteger)
      by (rewrite HV; reflexivity).
    unfold widening in Hv. rewrite Hcl in Hv.
    destruct Hv as (X & Hc & ->).
    exists (insert_at (getFirstInsertionPt b) L init), casts, X, id, Callee, g.
    split; [|split; [|split]].
    + rewrite Hn. simpl. rewrite <- !app_assoc. reflexivity.
    + exact (cast_result_zero_extended w V casts X HV Hw Hc).
    + rewrite Hg. unfold ret_global, ret_gname, ret_format.
      rewrite Hcl. reflexivity.
    + exact HC.
  - intros x Hx. unfold evalCast, printf_lld, signed.
    rewrite Z.mod_small by lia. split; auto.
    assert (H64 : (2 ^ Z.of_N w <= 2 ^ 63)%Z)
      by (apply Z.pow_le_mono_r; lia).
    rewrite Z.mod_small by (change (2 ^ Z.of_N 64)%Z with (2 * 2 ^ 63)%Z; lia).
    change (Z.of_N 64 - 1)%Z with 63%Z.
    destruct (Z.ltb_spec x (2 ^ 63)); [reflexivity | lia].
  - repeat split; vm_compute; reflexivity.
Qed.

Lemma C6_witness :
  (8 < 64)%N /\
  isSkippableFunction byte_fn = false /\
  run byte_module byte_fn = Ok (PA_none, byte_result) /\
  (forall k,
      nth_error (fn_params byte_fn) k = Some (IntegerTy 8) ->
      exists pre post cid id Callee g,
        hd [] (fn_blocks (snd byte_result))
        = pre ++ [CastInst cid ZExt (VArgument k (IntegerTy 8)) Int64Ty;
                  CallInst id Callee
                    [VGlobalVariable g;
                     VGlobalVariable (List.length (mod_globals byte_module));
                     getInt32 (Z.of_nat k);
                     VInstruction cid Int64Ty]] ++ post /\
        nth_error (mod_globals (fst byte_result)) g
        = Some (mkGlobalVariable "__logger.fmt.arg.i" true fmt_arg_i) /\
        getNamedValue (fst byte_result) "printf" = Some Callee) /\
  (forall i b V,
      nth_error (fn_blocks byte_fn) i = Some b ->
      getTerminator b = Some (ReturnInst (Some V)) ->
      getType V = IntegerTy 8 ->
      exists init casts X id Callee g,
        nth_error (fn_blocks (snd byte_result)) i
        = Some (init ++ casts
                ++ [CallInst id Callee
                      [VGlobalVariable g;
                       VGlobalVariable (List.length (mod_globals byte_module));
                       X];
                    ReturnInst (Some V)]) /\
        zero_extended V casts X /\
        nth_error (mod_globals (fst byte_result)) g
        = Some (mkGlobalVariable "__logger.fmt.ret.i" true fmt_ret_i) /\
        getNamedValue (fst byte_result) "printf" = Some Callee) /\
  (forall x, (0 <= x < 2 ^ Z.of_N 8)%Z ->
             evalCast ZExt 8 64 x = Some x /\ printf_lld x = x) /\
  (evalCast ZExt 8 64 200 = Some 200%Z /\ printf_lld 200 = 200%Z /\
   evalCast SExt 8 64 200 = Some (2 ^ 64 - 56)%Z /\
   printf_lld (2 ^ 64 - 56) = (-56)%Z).
Proof.
  assert (Hw : (8 < 64)%N) by reflexivity.
  split; [exact Hw|]. split; [reflexivity|]. split; [exact run_byte|].
  exact (C6_narrow_integers_are_zero_extended byte_module byte_fn PA_none
           (fst byte_result) (snd byte_result) 8 Hw eq_refl run_byte).
Defined.
